(** * An R-tree over axis-aligned rectangles: model and verification

    Shallow embedding of the C index (Guttman's quadratic-split R-tree):
    geometry primitives, search, the insertion engine, the split engine
    and the deletion engine, followed by the properties proved of them.

    Conventions of the embedding.
    - A coordinate stored in a rectangle is a finite C [double], held as
      the exact canonical rational ([Qc]) it denotes.  The index only
      compares and copies stored coordinates ([<], [>], [min], [max]);
      on finite doubles the comparisons agree with the order of the
      rationals.
    - Every number the index computes (extents, sizes, wastes, growths)
      is an IEEE 754 binary64 number, a primitive [float]: the
      arithmetic rounds to nearest after every operation (no extended
      precision, no fused multiply-add), overflows to an infinity and
      yields NaN as the C arithmetic does, and the comparisons are
      false on NaN.  [toDouble] gives the binary64 value of a stored
      coordinate.
    - [nodeT.branch] is the live prefix [branch[0 .. count-1]] of the C
      array, so [count] is the length of the list.  Slots at or above
      [count] hold stale data in C; reading one is undefined there and
      is reported here by [None].
    - Pointers to nodes are [option nodeT] ([None] is NULL); the tree is
      a strict tree, so a child pointer is modelled by the child itself.
      A payload handle ([void *]) is an integer, [0] being NULL. *)

From Stdlib Require Import ZArith QArith Qcanon Floats.
From stdpp Require Import base numbers list.

Local Open Scope Qc_scope.

(** ** Numbers *)

Definition double := Qc.

(** [a < b] and [a > b] on doubles, as C evaluates them. *)
Definition dlt (a b : double) : bool :=
  match a ?= b with Lt => true | _ => false end.
Definition dgt (a b : double) : bool := dlt b a.

Definition min (a b : double) : double := if dlt a b then a else b.
Definition max (a b : double) : double := if dgt a b then a else b.

(** ** Binary64 arithmetic *)

(** The binary64 value of a positive integer, by Horner's rule over its
    binary digits; exact whenever the integer is a binary64 number. *)
Fixpoint P2F (p : positive) : float :=
  match p with
  | xH => 1%float
  | xO p' => (2 * P2F p')%float
  | xI p' => (2 * P2F p' + 1)%float
  end.

Definition Z2F (z : Z) : float :=
  match z with
  | Z0 => 0%float
  | Zpos p => P2F p
  | Zneg p => (- P2F p)%float
  end.

(** [f / d]: halving for every factor 2 of [d] (exact on binary64
    numbers, subnormal ones included), one division for what is left. *)
Fixpoint scaleDown (f : float) (d : positive) : float :=
  match d with
  | xH => f
  | xO d' => scaleDown (f * 0.5)%float d'
  | xI _ => (f / P2F d)%float
  end.

(** The binary64 number a stored coordinate is. *)
Definition toDouble (q : double) : float :=
  scaleDown (Z2F (Qnum q)) (Qden q).

(** The rational a finite binary64 number denotes. *)
Definition SF2Q (f : spec_float) : option Q :=
  match f with
  | S754_zero _ => Some 0%Q
  | S754_finite s m e =>
      let v := match e with
               | Zneg p => (Zpos m # Pos.shiftl 1 (Npos p))%Q
               | _ => inject_Z (Z.shiftl (Zpos m) e)
               end in
      Some (if s then Qopp v else v)
  | _ => None
  end.

(** A coordinate that is a finite binary64 number. *)
Definition isDouble (q : double) : bool :=
  match SF2Q (Prim2SF (toDouble q)) with
  | Some v => Qeq_bool v q
  | None => false
  end.

(** ** Rectangles *)

(** [struct rectT { double min[NUM_DIMS]; double max[NUM_DIMS]; }] *)
Record rectT := mkRect { rmin : list double; rmax : list double }.

(** [a[i]] for an array held as a list. *)
Definition sub (a : list double) (i : nat) : double := default 0 (a !! i).

Section Geometry.

(** The build-time dimensionality ([#define NUM_DIMS], 2, 3 or 4). *)
Variable NUM_DIMS : nat.

(** [memset(&r, 0, sizeof(rectT))] *)
Definition zeroRect : rectT :=
  mkRect (replicate NUM_DIMS 0) (replicate NUM_DIMS 0).

(** The loop leaves with 0 at the first separating dimension. *)
Definition overlap (rectA rectB : rectT) : bool :=
  forallb (λ index,
             negb (dgt (sub (rmin rectA) index) (sub (rmax rectB) index)
                   || dgt (sub (rmin rectB) index) (sub (rmax rectA) index)))
          (seq 0 NUM_DIMS).

(** The loop of [combineRect] runs over [index < 2], whatever
    [NUM_DIMS] is. *)
Definition combineRect (rectA rectB : rectT) : rectT :=
  foldl (λ newRect index,
           mkRect (<[index := min (sub (rmin rectA) index) (sub (rmin rectB) index)]>
                     (rmin newRect))
                  (<[index := max (sub (rmax rectA) index) (sub (rmax rectB) index)]>
                     (rmax newRect)))
        zeroRect (seq 0 2).

(** A rectangle of the data model: [NUM_DIMS] coordinates each way and
    [min[i] <= max[i]]. *)
Definition wf_rect (r : rectT) : Prop :=
  length (rmin r) = NUM_DIMS ∧ length (rmax r) = NUM_DIMS ∧
  ∀ i, (i < NUM_DIMS)%nat → sub (rmin r) i ≤ sub (rmax r) i.

End Geometry.

(** ** The default build *)

(** [#ifndef NUM_DIMS / #define NUM_DIMS 2]: the index below is the
    default, two-dimensional build. *)
Definition NUM_DIMS : nat := 2.
Definition MAX_NODES : nat := 16.
Definition MIN_NODES : nat := MAX_NODES / 2.
Definition USE_SPHERICAL_VOLUME : bool := true.
(** [#define UNIT_SPHERE_VOLUME 3.141593]: the binary64 number nearest
    to the decimal literal. *)
Definition UNIT_SPHERE_VOLUME : float := 0x1.921fb82c2bd7fp+1%float.

(** ** Nodes and branches *)

(** [struct branchT { rectT rect; nodeT *child; void *item; }] *)
Record branchOf (N : Type) := mkBranch {
  b_rect : rectT;
  b_child : option N;
  b_item : Z
}.
Arguments mkBranch {N} _ _ _.
Arguments b_rect {N} _.
Arguments b_child {N} _.
Arguments b_item {N} _.

(** [struct nodeT { int count; int level; branchT branch[MAX_NODES]; }] *)
#[warnings="-register-all"]
Inductive nodeT := mkNode {
  n_level : Z;
  n_branch : list (branchOf nodeT)
}.

Abbreviation branchT := (branchOf nodeT).

Definition n_count (node : nodeT) : nat := length (n_branch node).

(** [memset(&branch, 0, sizeof(branchT))] *)
Definition zeroBranch : branchT := mkBranch (zeroRect NUM_DIMS) None 0.

(** [malloc] followed by [memset(node, 0, sizeof(nodeT))] *)
Definition zeroNode : nodeT := mkNode 0 [].

(** The pending-reinsertion list, most recently queued node first. *)
Definition reInsert (node : nodeT) (listNode : list nodeT) : list nodeT :=
  node :: listNode.

(** [branch[index] = branch[count-1]; count--].  Every caller has
    [index < count]. *)
Definition disconnectBranch (node : nodeT) (index : nat) : nodeT :=
  match n_branch node !! (n_count node - 1)%nat with
  | Some lastBranch =>
      mkNode (n_level node)
             (take (n_count node - 1) (<[index := lastBranch]> (n_branch node)))
  | None => node
  end.

(** ** Search *)

(** [search] on a node that is not NULL. *)
Fixpoint searchNode (node : nodeT) (rect : rectT) : Z :=
  match node with
  | mkNode lvl bs =>
      if (lvl >? 0)%Z then
        foldl (λ counter b,
                 if overlap NUM_DIMS rect b.(b_rect)
                 then (counter + match b.(b_child) with
                                 | Some c => searchNode c rect
                                 | None => 0
                                 end)%Z
                 else counter)
              0%Z bs
      else
        foldl (λ counter b,
                 if overlap NUM_DIMS rect b.(b_rect)
                 then (counter + 1)%Z else counter)
              0%Z bs
  end.

(** [search(node, rect)]; the counter stays 0 when [node] is NULL. *)
Definition search (node : option nodeT) (rect : rectT) : Z :=
  match node with
  | Some n => searchNode n rect
  | None => 0
  end.

(** ** Covering rectangles and the size heuristic *)

Definition nodeCover (node : nodeT) : rectT :=
  snd (foldl (λ '(firstTime, rect0) (b : branchT),
                if firstTime : bool then (false, b.(b_rect))
                else (false, combineRect NUM_DIMS rect0 b.(b_rect)))
             (true, zeroRect NUM_DIMS) (n_branch node)).

Definition rectVolume (r : rectT) : float :=
  foldl (λ volume index,
           (volume * (toDouble (sub (rmax r) index) - toDouble (sub (rmin r) index)))%float)
        1%float (seq 0 2).

(** The loop runs over [index < 2]; the return is the one of the branch
    [NUM_DIMS == 2]. *)
Definition rectSphericalVolume (r : rectT) : float :=
  let sumOfSquares :=
    foldl (λ sumOfSquares index,
             let halfExtent :=
               ((toDouble (sub (rmax r) index) - toDouble (sub (rmin r) index)) * 0.5)%float in
             (sumOfSquares + halfExtent * halfExtent)%float)
          0%float (seq 0 2) in
  let radius := PrimFloat.sqrt sumOfSquares in
  (radius * radius * UNIT_SPHERE_VOLUME)%float.

Definition calcRectVolume (r : rectT) : float :=
  if USE_SPHERICAL_VOLUME then rectSphericalVolume r else rectVolume r.

(** ** The split engine *)

(** [struct partitionVarsT]; the two-element arrays [count], [cover] and
    [area] are pairs read and written through [get2] and [set2]. *)
Record partitionVarsT := mkParVars {
  pv_partition : list Z;
  pv_total : nat;
  pv_minFill : nat;
  pv_taken : list bool;
  pv_count : nat * nat;
  pv_cover : rectT * rectT;
  pv_area : float * float;
  pv_branchBuf : list branchT;
  pv_branchCount : nat;
  pv_coverSplit : rectT;
  pv_coverSplitArea : float
}.

Definition get2 {A} (a : A * A) (group : nat) : A :=
  match group with O => a.1 | S _ => a.2 end.
Definition set2 {A} (a : A * A) (group : nat) (x : A) : A * A :=
  match group with O => (x, a.2) | S _ => (a.1, x) end.

Global Instance branchT_inhabited : Inhabited branchT := populate zeroBranch.

(** [memset(&localVars, 0, sizeof(partitionVarsT))] *)
Definition zeroParVars : partitionVarsT :=
  mkParVars (replicate (MAX_NODES + 1) 0%Z) 0 0 (replicate (MAX_NODES + 1) false)
            (0%nat, 0%nat) (zeroRect NUM_DIMS, zeroRect NUM_DIMS) (0%float, 0%float)
            (replicate (MAX_NODES + 1) zeroBranch) 0
            (zeroRect NUM_DIMS) 0%float.

(** Loads the buffer with the [MAX_NODES] branches of the full node and
    the extra one, covers them, and empties the node ([count = 0],
    [level = -1]).  The caller has [count == MAX_NODES]. *)
Definition getBranches (node : nodeT) (br : branchT) (parVars : partitionVarsT)
  : nodeT * partitionVarsT :=
  let buf := take MAX_NODES (n_branch node) ++ [br] in
  let coverSplit :=
    foldl (λ c (b : branchT), combineRect NUM_DIMS c b.(b_rect))
          (b_rect (buf !!! 0%nat)) (drop 1 buf) in
  (mkNode (-1) [],
   mkParVars (pv_partition parVars) (pv_total parVars) (pv_minFill parVars)
             (pv_taken parVars) (pv_count parVars) (pv_cover parVars)
             (pv_area parVars) buf (MAX_NODES + 1)
             coverSplit (calcRectVolume coverSplit)).

Definition initParVars (parVars : partitionVarsT) (maxRects minFill : nat)
  : partitionVarsT :=
  mkParVars
    (foldl (λ p index, <[index := (-1)%Z]> p) (pv_partition parVars) (seq 0 maxRects))
    maxRects minFill
    (foldl (λ t index, <[index := false]> t) (pv_taken parVars) (seq 0 maxRects))
    (0%nat, 0%nat) (pv_cover parVars) (0%float, 0%float)
    (pv_branchBuf parVars) (pv_branchCount parVars)
    (pv_coverSplit parVars) (pv_coverSplitArea parVars).

(** Put a branch in one of the groups. *)
Definition classify (index group : nat) (parVars : partitionVarsT)
  : partitionVarsT :=
  let r := b_rect (pv_branchBuf parVars !!! index) in
  let cover' :=
    if decide (get2 (pv_count parVars) group = 0%nat)
    then set2 (pv_cover parVars) group r
    else set2 (pv_cover parVars) group
              (combineRect NUM_DIMS r (get2 (pv_cover parVars) group)) in
  mkParVars
    (<[index := Z.of_nat group]> (pv_partition parVars))
    (pv_total parVars) (pv_minFill parVars)
    (<[index := true]> (pv_taken parVars))
    (set2 (pv_count parVars) group (S (get2 (pv_count parVars) group)))
    cover'
    (set2 (pv_area parVars) group (calcRectVolume (get2 cover' group)))
    (pv_branchBuf parVars) (pv_branchCount parVars)
    (pv_coverSplit parVars) (pv_coverSplitArea parVars).

(** The pairs [(indexA, indexB)], [indexA < indexB < total], in the order
    of the two nested loops of [pickSeeds]. *)
Definition seedPairs (total : nat) : list (nat * nat) :=
  flat_map (λ indexA, map (λ indexB, (indexA, indexB))
                          (seq (indexA + 1) (total - (indexA + 1))))
           (seq 0 (total - 1)).

Definition pickSeeds (parVars : partitionVarsT) : partitionVarsT :=
  let area index := calcRectVolume (b_rect (pv_branchBuf parVars !!! index)) in
  let '(_, seed0, seed1) :=
    foldl (λ '(worst, seed0, seed1) '(indexA, indexB),
             let oneRect :=
               combineRect NUM_DIMS (b_rect (pv_branchBuf parVars !!! indexA))
                                    (b_rect (pv_branchBuf parVars !!! indexB)) in
             let waste := (calcRectVolume oneRect - area indexA - area indexB)%float in
             if (worst <? waste)%float then (waste, indexA, indexB)
             else (worst, seed0, seed1))
          ((- pv_coverSplitArea parVars - 1)%float, 0%nat, 0%nat)
          (seedPairs (pv_total parVars)) in
  classify seed1 1 (classify seed0 0 parVars).

(** The locals of [choosePartition] that live across loop iterations. *)
Record chooseVarsT := mkChoose {
  cv_biggestDiff : float;
  cv_group : nat;
  cv_chosen : nat;
  cv_betterGroup : nat
}.

(** One pass of the inner [for] loop: the unassigned branch most strongly
    attracted to one group. *)
Definition chooseNext (parVars : partitionVarsT) (cv : chooseVarsT) : chooseVarsT :=
  foldl (λ cv index,
           if negb (pv_taken parVars !!! index) then
             let curRect := b_rect (pv_branchBuf parVars !!! index) in
             let rect0 := combineRect NUM_DIMS curRect (pv_cover parVars).1 in
             let rect1 := combineRect NUM_DIMS curRect (pv_cover parVars).2 in
             let growth0 := (calcRectVolume rect0 - (pv_area parVars).1)%float in
             let growth1 := (calcRectVolume rect1 - (pv_area parVars).2)%float in
             let diff := (growth1 - growth0)%float in
             let '(group, diff) :=
               if (0 <=? diff)%float then (0%nat, diff) else (1%nat, (- diff)%float) in
             if (cv_biggestDiff cv <? diff)%float then
               mkChoose diff group index group
             else if (diff =? cv_biggestDiff cv)%float
                     && bool_decide (get2 (pv_count parVars) group
                                     < get2 (pv_count parVars) (cv_betterGroup cv))%nat
             then mkChoose (cv_biggestDiff cv) group index group
             else mkChoose (cv_biggestDiff cv) group (cv_chosen cv) (cv_betterGroup cv)
           else cv)
        cv (seq 0 (pv_total parVars)).

Definition chooseCond (parVars : partitionVarsT) : bool :=
  bool_decide ((pv_count parVars).1 + (pv_count parVars).2 < pv_total parVars)%nat
  && bool_decide ((pv_count parVars).1 < pv_total parVars - pv_minFill parVars)%nat
  && bool_decide ((pv_count parVars).2 < pv_total parVars - pv_minFill parVars)%nat.

(** The [while] loop of [choosePartition].  Every iteration classifies
    once and so raises [count[0] + count[1]]; [fuel] bounds the number of
    iterations. *)
Fixpoint chooseLoop (fuel : nat) (cv : chooseVarsT) (parVars : partitionVarsT)
  : chooseVarsT * partitionVarsT :=
  match fuel with
  | O => (cv, parVars)
  | S fuel' =>
      if chooseCond parVars then
        let cv' := chooseNext parVars
                     (mkChoose (-1)%float (cv_group cv) (cv_chosen cv)
                               (cv_betterGroup cv)) in
        chooseLoop fuel' cv' (classify (cv_chosen cv') (cv_betterGroup cv') parVars)
      else (cv, parVars)
  end.

Definition choosePartition (parVars : partitionVarsT) (minFill : nat)
  : partitionVarsT :=
  let parVars := initParVars parVars (pv_branchCount parVars) minFill in
  let parVars := pickSeeds parVars in
  let '(_, parVars) :=
    chooseLoop (pv_total parVars) (mkChoose 0%float 0 0 0) parVars in
  (* If one group too full, put remaining rects in the other *)
  if bool_decide ((pv_count parVars).1 + (pv_count parVars).2 < pv_total parVars)%nat
  then
    let group :=
      if bool_decide (pv_total parVars - pv_minFill parVars ≤ (pv_count parVars).1)%nat
      then 1%nat else 0%nat in
    foldl (λ pv index,
             if negb (pv_taken pv !!! index) then classify index group pv else pv)
          parVars (seq 0 (pv_total parVars))
  else parVars.

Definition appendBranch (br : branchT) (node : nodeT) : nodeT :=
  mkNode (n_level node) (n_branch node ++ [br]).

(** [addBranch(branch, node, NULL)]: with room in the node the branch is
    appended; a full node would be split and the sibling stored through
    the NULL pointer, which is undefined ([None]). *)
Definition addBranchNull (br : branchT) (node : nodeT) : option nodeT :=
  if bool_decide (n_count node < MAX_NODES)%nat
  then Some (appendBranch br node) else None.

(** Copy branches from the buffer into two nodes according to the
    partition. *)
Definition loadNodes (nodeA nodeB : nodeT) (parVars : partitionVarsT)
  : option (nodeT * nodeT) :=
  foldl (λ acc index,
           '(nodeA, nodeB) ← acc;
           if decide (pv_partition parVars !!! index = 0%Z) then
             nodeA' ← addBranchNull (pv_branchBuf parVars !!! index) nodeA;
             Some (nodeA', nodeB)
           else if decide (pv_partition parVars !!! index = 1%Z) then
             nodeB' ← addBranchNull (pv_branchBuf parVars !!! index) nodeB;
             Some (nodeA, nodeB')
           else Some (nodeA, nodeB))
        (Some (nodeA, nodeB)) (seq 0 (pv_total parVars)).

(** Split a node: the result is the reused node and the new sibling. *)
Definition splitNode (node : nodeT) (br : branchT) : option (nodeT * nodeT) :=
  let level0 := n_level node in
  let '(node, parVars) := getBranches node br zeroParVars in
  let parVars := choosePartition parVars MIN_NODES in
  let newNode := zeroNode in
  let node := mkNode level0 (n_branch node) in
  let newNode := mkNode (n_level node) (n_branch newNode) in
  loadNodes node newNode parVars.

(** [addBranch(branch, node, &newNode)]: [(node, None)] for the result 0,
    [(node, Some newNode)] for the result 1. *)
Definition addBranch (br : branchT) (node : nodeT)
  : option (nodeT * option nodeT) :=
  if bool_decide (n_count node < MAX_NODES)%nat
  then Some (appendBranch br node, None)
  else '(node', newNode) ← splitNode node br; Some (node', Some newNode).

(** ** The insertion engine *)

(** The loop state of [pickBranch]. *)
Record pickVarsT := mkPick {
  pk_firstTime : bool;
  pk_bestIncr : float;
  pk_bestArea : float;
  pk_best : nat
}.

(** Pick the branch that needs the smallest increase in area to take the
    new rectangle; on a tie, the one that was smaller before. *)
Definition pickBranch (rect : rectT) (node : nodeT) : nat :=
  pk_best
    (foldl (λ pk index,
              let curRect := b_rect (n_branch node !!! index) in
              let area := calcRectVolume curRect in
              let tempRect := combineRect NUM_DIMS rect curRect in
              let increase := (calcRectVolume tempRect - area)%float in
              if (increase <? pk_bestIncr pk)%float || pk_firstTime pk then
                mkPick false increase area index
              else if (increase =? pk_bestIncr pk)%float
                      && (area <? pk_bestArea pk)%float then
                mkPick (pk_firstTime pk) increase area index
              else pk)
           (mkPick true (-1)%float 0%float 0) (seq 0 (n_count node))).

(** [f] applied to [branch[index]], for [index] inside the live prefix;
    [d] outside it. *)
Definition withBranch {R} (f : branchT → R) (d : R) : list branchT → nat → R :=
  fix go l index :=
    match l with
    | [] => d
    | b :: l' => match index with O => f b | S index' => go l' index' end
    end.

(** The result is [None] where C is undefined, [(node, None)] where it
    returns 0 and [(node, Some newNode)] where it returns 1; [node] is the
    node as the call leaves it.  The caller tests for NULL. *)
Fixpoint insertRectRec (rect : rectT) (item : Z) (node : nodeT) (level : Z)
  : option (nodeT * option nodeT) :=
  match node with
  | mkNode lvl bs =>
      if (lvl >? level)%Z then
        (* Still above level for insertion, go down tree recursively *)
        let index := pickBranch rect node in
        '(b, child', otherNode) ←
          withBranch (λ b,
                        match b.(b_child) with
                        | None => Some (b, None, None)
                        | Some c =>
                            '(c', otherNode) ← insertRectRec rect item c level;
                            Some (b, Some c', otherNode)
                        end)
                     None bs index;
        match otherNode with
        | None =>
            (* Child was not split *)
            Some (mkNode lvl
                    (<[index := mkBranch (combineRect NUM_DIMS rect b.(b_rect))
                                         child' b.(b_item)]> bs),
                  None)
        | Some other =>
            (* Child was split *)
            c' ← child';
            let bs' := <[index := mkBranch (nodeCover c') child' b.(b_item)]> bs in
            addBranch (mkBranch (nodeCover other) (Some other) 0) (mkNode lvl bs')
        end
      else if (lvl =? level)%Z then
        (* Have reached level for insertion. Add rect, split if necessary *)
        addBranch (mkBranch rect None item) node
      else
        (* Should never occur *)
        Some (node, None)
  end.

(** [insertRect(rect, item, &root, level)]: the root it leaves and its
    result, 1 when the root was split. *)
Definition insertRect (rect : rectT) (item : Z) (root : option nodeT) (level : Z)
  : option (option nodeT * Z) :=
  match root with
  | None => Some (None, 0%Z)
  | Some r =>
      '(r', newNode) ← insertRectRec rect item r level;
      match newNode with
      | Some newNode =>
          (* Grow tree taller and new root *)
          let newRoot := mkNode (n_level r' + 1) [] in
          newRoot ← addBranchNull (mkBranch (nodeCover r') (Some r') 0) newRoot;
          newRoot ← addBranchNull (mkBranch (nodeCover newNode) (Some newNode) 0) newRoot;
          Some (Some newRoot, 1%Z)
      | None => Some (Some r', 0%Z)
      end
  end.

(** The range of the C type [int] of the counters. *)
Definition INT_MIN : Z := (- 2 ^ 31)%Z.
Definition INT_MAX : Z := (2 ^ 31 - 1)%Z.

(** [countRec]; it reads [node->level] without a NULL test, so a NULL
    child is undefined.  The [int] counter is carried as an integer
    without bound: what is stated of the count below is stated where the
    counter stays between [INT_MIN] and [INT_MAX], so that no addition
    of the code overflows. *)
Fixpoint countRec (node : nodeT) (counter : Z) : option Z :=
  match node with
  | mkNode lvl bs =>
      if (lvl >? 0)%Z then
        foldl (λ acc b,
                 counter ← acc;
                 match b.(b_child) with
                 | Some c => countRec c counter
                 | None => None
                 end)
              (Some counter) bs
      else Some (counter + Z.of_nat (length bs))%Z
  end.

(** The node objects [freeNode] releases: the node and, through every
    child pointer that is not NULL, the subtrees below it. *)
Fixpoint freeNode (node : nodeT) : list nodeT :=
  match node with
  | mkNode lvl bs =>
      flat_map (λ b, match b.(b_child) with
                     | Some c => freeNode c
                     | None => []
                     end) bs ++ [node]
  end.

(** ** The deletion engine *)

(** The scan of an internal node in [removeRectRec].  [recurse] is the
    recursive call; [done] holds the branches already passed, as the calls
    on their children left them, and [todo] the branches from [index] on. *)
Definition removeScan (recurse : nodeT → list nodeT → Z * nodeT * list nodeT)
    (rect : rectT) (lvl : Z)
  : list branchT → list branchT → list nodeT → Z * nodeT * list nodeT :=
  fix go done todo listNode :=
    match todo with
    | [] => (1%Z, mkNode lvl done, listNode)
    | b :: todo' =>
        if overlap NUM_DIMS rect b.(b_rect) then
          match b.(b_child) with
          | None => go (done ++ [b]) todo' listNode
          | Some c =>
              let '(res, c', listNode') := recurse c listNode in
              let b' := mkBranch b.(b_rect) (Some c') b.(b_item) in
              if decide (res = 0%Z) then
                if bool_decide (MIN_NODES ≤ n_count c')%nat then
                  (* child removed, just resize parent rect *)
                  (0%Z,
                   mkNode lvl (done ++ mkBranch (nodeCover c') (Some c') b.(b_item)
                                         :: todo'),
                   listNode')
                else
                  (* child removed, not enough entries in node, eliminate node *)
                  (0%Z,
                   disconnectBranch (mkNode lvl (done ++ b' :: todo')) (length done),
                   reInsert c' listNode')
              else go (done ++ [b']) todo' listNode'
          end
        else go (done ++ [b]) todo' listNode
    end.

(** [removeRectRec] on a node that is not NULL: the result (1 if the
    record was not found, 0 on success), the node and the reinsertion
    list as the call leaves them. *)
Fixpoint removeRectRec (rect : rectT) (item : Z) (node : nodeT)
    (listNode : list nodeT) : Z * nodeT * list nodeT :=
  match node with
  | mkNode lvl bs =>
      if (lvl >? 0)%Z then
        removeScan (removeRectRec rect item) rect lvl [] bs listNode
      else
        match list_find (λ b : branchT, b.(b_item) = item) bs with
        | Some (index, _) => (0%Z, disconnectBranch node index, listNode)
        | None => (1%Z, node, listNode)
        end
  end.

(** Reinsert the branches of one eliminated node: [rect] and [item] of
    each branch go to [insertRect] at the level of the node. *)
Definition reinsertNode (tempNode : nodeT) (root : option nodeT)
  : option (option nodeT) :=
  foldl (λ acc (b : branchT),
           root ← acc;
           '(root', _) ← insertRect b.(b_rect) b.(b_item) root (n_level tempNode);
           Some root')
        (Some root) (n_branch tempNode).

(** [removeRect(rect, item, &root)]: its result (1 if the record was not
    found, 0 on success) and the root it leaves. *)
Definition removeRect (rect : rectT) (item : Z) (root : option nodeT)
  : option (Z * option nodeT) :=
  match root with
  | None => Some (1%Z, None)
  | Some r =>
      let '(res, r', reInsertList) := removeRectRec rect item r [] in
      if decide (res = 0%Z) then
        (* Found and deleted a data item *)
        (* Reinsert any branches from eliminated nodes *)
        root' ← foldl (λ acc tempNode, root ← acc; reinsertNode tempNode root)
                      (Some (Some r')) reInsertList;
        (* Check for redundant root (not leaf, 1 child) and eliminate *)
        rt ← root';
        if bool_decide (n_count rt = 1%nat) && (n_level rt >? 0)%Z
        then Some (0%Z, b_child (n_branch rt !!! 0%nat))
        else Some (0%Z, Some rt)
      else Some (1%Z, Some r')
  end.


(** ** Vocabulary of the properties *)

(** [r] lies inside [r'] (default build). *)
Definition rect_le (r r' : rectT) : Prop :=
  ∀ i, (i < NUM_DIMS)%nat →
       sub (rmin r') i ≤ sub (rmin r) i ∧ sub (rmax r) i ≤ sub (rmax r') i.

(** Union of rectangles with [None] for "no rectangle yet". *)
Definition ounion (a b : option rectT) : option rectT :=
  match a, b with
  | Some x, Some y => Some (combineRect NUM_DIMS x y)
  | Some x, None => Some x
  | None, _ => b
  end.

Definition ocover (l : list rectT) : option rectT :=
  foldr (λ r acc, ounion (Some r) acc) None l.

(** The number of buffer slots assigned to [group] by a partition. *)
Definition tally (group : Z) (partition : list Z) : nat :=
  length (filter (λ p, p = group) partition).

(** State of a split in progress over the buffer [buf]: a slot is taken
    exactly when it is assigned to group 0 or 1, an untaken slot holds
    [-1], and [count] tallies the two groups. *)
Definition parOk (buf : list branchT) (parVars : partitionVarsT) : Prop :=
  pv_branchBuf parVars = buf ∧ length buf = 17%nat ∧
  pv_total parVars = 17%nat ∧ pv_minFill parVars = 8%nat ∧
  Forall2 (λ (t : bool) (p : Z), if t then p = 0%Z ∨ p = 1%Z else p = (-1)%Z)
          (pv_taken parVars) (pv_partition parVars) ∧
  length (pv_taken parVars) = 17%nat ∧
  (pv_count parVars).1 = tally 0 (pv_partition parVars) ∧
  (pv_count parVars).2 = tally 1 (pv_partition parVars).

(** The covers of the two groups of a split in progress, for rectangles
    of the family [Dom]: the cover of a group that has members belongs
    to the family and [area] holds its size. *)
Definition covOk (Dom : list rectT) (parVars : partitionVarsT) : Prop :=
  ((1 ≤ (pv_count parVars).1)%nat →
   (pv_cover parVars).1 ∈ Dom ∧
   (pv_area parVars).1 = calcRectVolume (pv_cover parVars).1) ∧
  ((1 ≤ (pv_count parVars).2)%nat →
   (pv_cover parVars).2 ∈ Dom ∧
   (pv_area parVars).2 = calcRectVolume (pv_cover parVars).2).

(** Covering rectangle of a node's branches, [None] for an empty node. *)
Definition cov (node : nodeT) : option rectT :=
  ocover (b_rect <$> n_branch node).

(** The leaf entries below a node, read the way the traversals of the
    code read a node: by its level. *)
Fixpoint entries (node : nodeT) : list (rectT * Z) :=
  match node with
  | mkNode lvl bs =>
      if (lvl >? 0)%Z then
        flat_map (λ b, match b.(b_child) with
                       | Some c => entries c
                       | None => []
                       end) bs
      else map (λ b, (b.(b_rect), b.(b_item))) bs
  end.

(** The nodes strictly below a node. *)
Fixpoint subnodes (node : nodeT) : list nodeT :=
  match node with
  | mkNode lvl bs =>
      if (lvl >? 0)%Z then
        flat_map (λ b, match b.(b_child) with
                       | Some c => c :: subnodes c
                       | None => []
                       end) bs
      else []
  end.

(** The internal branches of a tree that point to a child: the rectangle
    of the branch and the child. *)
Fixpoint internalBranches (node : nodeT) : list (rectT * nodeT) :=
  match node with
  | mkNode lvl bs =>
      if (lvl >? 0)%Z then
        flat_map (λ b, match b.(b_child) with
                       | Some c => (b.(b_rect), c) :: internalBranches c
                       | None => []
                       end) bs
      else []
  end.


(** Minimum and maximum of a non-empty list of coordinates. *)
Definition minimum (x : double) (xs : list double) : double := foldl min x xs.
Definition maximum (x : double) (xs : list double) : double := foldl max x xs.

(** The union of the rectangles [r0 :: rs] as the specification words it:
    per dimension, the minimum of the mins and the maximum of the maxes. *)
Definition unionRects (r0 : rectT) (rs : list rectT) : rectT :=
  mkRect (map (λ i, minimum (sub (rmin r0) i) ((λ r, sub (rmin r) i) <$> rs))
              (seq 0 NUM_DIMS))
         (map (λ i, maximum (sub (rmax r0) i) ((λ r, sub (rmax r) i) <$> rs))
              (seq 0 NUM_DIMS)).

(** A branch of a node at height [h] is in order, for rectangles picked
    out by [good]: its rectangle is [good] and, in an internal node, a
    child that is not NULL sits one level lower, holds between
    [MIN_NODES] and [MAX_NODES] branches, is covered exactly by the
    rectangle of the branch, and is in order. *)
Fixpoint brOkG (good : rectT → Prop) (h : nat) (b : branchT) : Prop :=
  good b.(b_rect) ∧
  match h with
  | O => True
  | S h' =>
      match b.(b_child) with
      | None => True
      | Some c =>
          (MIN_NODES ≤ n_count c ≤ MAX_NODES)%nat ∧
          b.(b_rect) = nodeCover c ∧
          n_level c = Z.of_nat h' ∧ Forall (brOkG good h') (n_branch c)
      end
  end.

Definition okAtG (good : rectT → Prop) (h : nat) (node : nodeT) : Prop :=
  n_level node = Z.of_nat h ∧ Forall (brOkG good h) (n_branch node).

(** In order, with well-formed rectangles. *)
Definition brOk (h : nat) (b : branchT) : Prop := brOkG (wf_rect NUM_DIMS) h b.

Definition okAt (h : nat) (node : nodeT) : Prop := okAtG (wf_rect NUM_DIMS) h node.

(** No NULL child anywhere in the internal nodes. *)
Fixpoint brFull (h : nat) (b : branchT) : Prop :=
  match h with
  | O => True
  | S h' =>
      match b.(b_child) with
      | None => False
      | Some c => Forall (brFull h') (n_branch c)
      end
  end.

Definition fullAt (h : nat) (node : nodeT) : Prop :=
  Forall (brFull h) (n_branch node).

(** The root handle is in order: NULL, or a tree in order whose root holds
    at most [MAX_NODES] branches and, when internal, at least two. *)
Definition rootOkG (good : rectT → Prop) (root : option nodeT) : Prop :=
  match root with
  | None => True
  | Some r =>
      ∃ h, okAtG good h r ∧ (n_count r ≤ MAX_NODES)%nat ∧
           ((0 < h)%nat → (2 ≤ n_count r)%nat)
  end.

Definition rootOk (root : option nodeT) : Prop := rootOkG (wf_rect NUM_DIMS) root.

(** The root holds at most [MAX_NODES] branches and every other node
    between [MIN_NODES] and [MAX_NODES]; the nodes are those reached
    through child pointers that are not NULL. *)
Definition balanced (root : option nodeT) : Prop :=
  match root with
  | None => True
  | Some r =>
      (0 ≤ n_count r ≤ MAX_NODES)%nat ∧
      Forall (λ n, (MIN_NODES ≤ n_count n ≤ MAX_NODES)%nat) (subnodes r)
  end.

(** The rectangle of every internal branch that has a child is the union
    of the rectangles of the child's branches, in the words of the
    specification: per dimension the minimum of the mins and the maximum
    of the maxes.  The internal branches whose child is NULL are counted
    by [nullChildren]. *)
Definition coverExact (root : option nodeT) : Prop :=
  match root with
  | None => True
  | Some r =>
      Forall (λ rc : rectT * nodeT,
                match n_branch rc.2 with
                | b0 :: bs => rc.1 = unionRects b0.(b_rect) (b_rect <$> bs)
                | [] => False
                end)
             (internalBranches r)
  end.

(** A leaf entry with payload [item] that [removeRectRec] can reach: in a
    leaf, any branch with that payload; in an internal node, through a
    branch whose rectangle overlaps [rect]. *)
Inductive reachable (rect : rectT) (item : Z) : nodeT → Prop :=
| reach_leaf lvl bs (b : branchT) :
    (lvl >? 0)%Z = false → b ∈ bs → b.(b_item) = item →
    reachable rect item (mkNode lvl bs)
| reach_internal lvl bs (b : branchT) c :
    (lvl >? 0)%Z = true → b ∈ bs →
    overlap NUM_DIMS rect b.(b_rect) = true → b.(b_child) = Some c →
    reachable rect item c →
    reachable rect item (mkNode lvl bs).

(** Operations on an index and their execution from a root handle. *)
Inductive opT :=
| Insert (rect : rectT) (item : Z)
| Delete (rect : rectT) (item : Z).

Definition op_rect (o : opT) : rectT :=
  match o with Insert r _ | Delete r _ => r end.

Definition step (root : option nodeT) (o : opT) : option (option nodeT) :=
  match o with
  | Insert rect item => fst <$> insertRect rect item root 0
  | Delete rect item => snd <$> removeRect rect item root
  end.

Definition run (ops : list opT) (root : option nodeT) : option (option nodeT) :=
  foldl (λ acc o, root ← acc; step root o) (Some root) ops.

(** What one call of [insertRectRec] at target level [lv] establishes for
    a node at height [h]: [node'] is the node as the call leaves it and
    [o] the new sibling, if the node was split. *)
Definition insPost (good : rectT → Prop) (h : nat) (rect : rectT) (item : Z)
    (lv : nat) (node node' : nodeT) (o : option nodeT) : Prop :=
  okAtG good h node' ∧
  match o with
  | None =>
      (n_count node ≤ n_count node' ≤ MAX_NODES)%nat ∧
      cov node' = ounion (Some rect) (cov node)
  | Some nn =>
      okAtG good h nn ∧
      (MIN_NODES ≤ n_count node' ≤ MAX_NODES)%nat ∧
      (MIN_NODES ≤ n_count nn ≤ MAX_NODES)%nat ∧
      ounion (cov node') (cov nn) = ounion (Some rect) (cov node)
  end ∧
  (fullAt h node → lv = 0%nat →
   fullAt h node' ∧ (∀ nn, o = Some nn → fullAt h nn) ∧
   entries node' ++ from_option entries [] o ≡ₚ (rect, item) :: entries node).

(** A node queued for reinsertion below a node at height [h]. *)
Definition detOk (good : rectT → Prop) (h : nat) (d : nodeT) : Prop :=
  ∃ hd, (hd < h)%nat ∧ okAtG good hd d.

(** What one call of [removeRectRec] does: either nothing at all (result
    1, no reachable entry), or (result 0) it removes one reachable leaf
    entry [e] with the payload, queueing the nodes that fell below
    [MIN_NODES] in front of the reinsertion list. *)
Definition remSpec (good : rectT → Prop) (rect : rectT) (item : Z) (node : nodeT)
    (listNode : list nodeT) (out : Z * nodeT * list nodeT) : Prop :=
  let '(res, node', list') := out in
  (res = 1%Z ∧ node' = node ∧ list' = listNode ∧ ¬ reachable rect item node) ∨
  (res = 0%Z ∧ reachable rect item node ∧ n_level node' = n_level node ∧
   (n_count node' ≤ n_count node ≤ S (n_count node'))%nat ∧
   ∃ det e,
     list' = det ++ listNode ∧ e.2 = item ∧
     entries node ≡ₚ e :: entries node' ++ flat_map entries det ∧
     ∀ h, (okAtG good h node → okAtG good h node' ∧ Forall (detOk good h) det) ∧
          (fullAt h node → fullAt h node')).

(** A branch of an internal node through which [removeRectRec] finds an
    entry to remove. *)
Definition hit (rect : rectT) (item : Z) (b : branchT) : Prop :=
  overlap NUM_DIMS rect b.(b_rect) = true ∧
  ∃ c, b.(b_child) = Some c ∧ reachable rect item c.

(** The leaf entries a node hands to [insertRect] when its branches are
    reinserted as data. *)
Definition branchData (node : nodeT) : list (rectT * Z) :=
  map (λ b : branchT, (b.(b_rect), b.(b_item))) (n_branch node).

(** The sizes the split engine combines: the waste of a pair of
    rectangles ([pickSeeds]) and the difference of the growths of two
    covers that take in [cur] ([choosePartition]). *)
Definition wasteOf (A B : rectT) : float :=
  (calcRectVolume (combineRect NUM_DIMS A B) - calcRectVolume A - calcRectVolume B)%float.

Definition growthDiff (cur R0 R1 : rectT) : float :=
  (calcRectVolume (combineRect NUM_DIMS cur R1) - calcRectVolume R1
   - (calcRectVolume (combineRect NUM_DIMS cur R0) - calcRectVolume R0))%float.

(** A finite family of rectangles on which the size arithmetic of the
    split engine is well behaved: the rectangles are well formed with
    binary64 coordinates, the family is closed under union, the waste
    of two members exceeds the starting value [-coverSplitArea - 1] of
    [pickSeeds] for every member around them, and no difference of
    growths is NaN. *)
Definition safeDomain (Dom : list rectT) : Prop :=
  Forall (λ r, wf_rect NUM_DIMS r ∧
               Forall (λ c, isDouble c = true) (rmin r ++ rmax r)) Dom ∧
  (∀ A B, A ∈ Dom → B ∈ Dom → combineRect NUM_DIMS A B ∈ Dom) ∧
  (∀ A B C, A ∈ Dom → B ∈ Dom → C ∈ Dom → rect_le A C → rect_le B C →
            ((- calcRectVolume C - 1) <? wasteOf A B)%float = true) ∧
  (∀ cur R0 R1, cur ∈ Dom → R0 ∈ Dom → R1 ∈ Dom →
                PrimFloat.is_nan (growthDiff cur R0 R1) = false).

(** Membership in a family, and an operation whose inserted rectangle
    is [good]. *)
Definition inDom (Dom : list rectT) (r : rectT) : Prop := r ∈ Dom.

Definition opOk (good : rectT → Prop) (o : opT) : Prop :=
  match o with
  | Insert rect _ => good rect
  | Delete _ _ => True
  end.

(** Inserting a list of (rectangle, payload) pairs, first to last. *)
Definition insertAll (l : list (rectT * Z)) (root : option nodeT)
  : option (option nodeT) :=
  run (map (λ p, Insert p.1 p.2) l) root.

(** ** Concrete rectangles and workloads *)

(** A coordinate from an integer, and the planar rectangle with corners
    [(a, b)] and [(c, e)]. *)
Definition coord (z : Z) : double := Qc_of_Z z.

Definition box (a b c e : Z) : rectT :=
  mkRect [coord a; coord b] [coord c; coord e].

(** The cube with corners [(a, a, a)] and [(c, c, c)] of a build with
    [NUM_DIMS = 3]. *)
Definition cube (a c : Z) : rectT :=
  mkRect [coord a; coord a; coord a] [coord c; coord c; coord c].

(** [n] unit squares side by side along the x axis, square [i] carrying
    the payload [100 + i]. *)
Definition unitSquares (n : nat) : list (rectT * Z) :=
  map (λ i : nat, (box (Z.of_nat i) 0 (Z.of_nat i + 1) 1, (100 + Z.of_nat i)%Z))
      (seq 0 n).

(** A query rectangle around every workload used below. *)
Definition world : rectT := box (-10) (-10) 1000 1000.

(** The number of leaf entries a traversal by [countRec] reports for a
    root handle; [None] where it reads through a NULL handle. *)
Definition countRoot (root : option nodeT) : option Z :=
  r ← root; countRec r 0.

(** 152 unit squares inserted into an empty index (the root is then at
    level 2), followed by the deletion of the squares 0 and 1, which
    brings a leaf and with it its parent below [MIN_NODES]. *)
Definition grown : option (option nodeT) :=
  insertAll (unitSquares 152) (Some zeroNode).

Definition afterFirstDelete : option (option nodeT) :=
  root ← grown; step root (Delete (box 0 0 1 1) 100).

Definition afterSecondDelete : option (option nodeT) :=
  root ← afterFirstDelete; step root (Delete (box 1 0 2 1) 101).

(** The number of internal branches below a node whose child is NULL. *)
Fixpoint nullChildren (node : nodeT) : nat :=
  match node with
  | mkNode lvl bs =>
      if (lvl >? 0)%Z then
        foldr (λ b acc, (match b.(b_child) with
                         | Some c => nullChildren c
                         | None => 1
                         end + acc)%nat) 0%nat bs
      else 0%nat
  end.

(** What the traversals of the code see of a root handle: the count of
    [search] over [world], the count of [countRec], and the number of
    NULL children. *)
Definition census (root : option nodeT) : Z * option Z * nat :=
  (search root world, countRoot root, from_option nullChildren 0%nat root).

(** A leaf with the given entries. *)
Definition leafOf (l : list (rectT * Z)) : nodeT :=
  mkNode 0 (map (λ p : rectT * Z, mkBranch p.1 None p.2) l).



(** The (level of the parent, level of the child) pairs along the child
    pointers of a tree. *)
Fixpoint childLevels (node : nodeT) : list (Z * Z) :=
  match node with
  | mkNode lvl bs =>
      if (lvl >? 0)%Z then
        flat_map (λ b, match b.(b_child) with
                       | Some c => (lvl, n_level c) :: childLevels c
                       | None => []
                       end) bs
      else []
  end.

(** The rectangles of all branches of a tree, leaf entries included. *)
Fixpoint allRects (node : nodeT) : list rectT :=
  match node with
  | mkNode lvl bs =>
      if (lvl >? 0)%Z then
        flat_map (λ b, b.(b_rect) :: match b.(b_child) with
                                     | Some c => allRects c
                                     | None => []
                                     end) bs
      else map b_rect bs
  end.

(** ** Families of rectangles checked by evaluation *)

Global Instance rectT_eq_dec : EqDecision rectT.
Proof. solve_decision. Defined.

Definition wf_rectb (r : rectT) : bool :=
  (length (rmin r) =? NUM_DIMS)%nat && (length (rmax r) =? NUM_DIMS)%nat &&
  forallb (λ i, negb (dlt (sub (rmax r) i) (sub (rmin r) i))) (seq 0 NUM_DIMS).

Definition rect_leb (r r' : rectT) : bool :=
  forallb (λ i, negb (dlt (sub (rmin r) i) (sub (rmin r') i))
                && negb (dlt (sub (rmax r') i) (sub (rmax r) i)))
          (seq 0 NUM_DIMS).

(** The four conditions of [safeDomain], evaluated. *)
Definition safeDomainb (Dom : list rectT) : bool :=
  forallb (λ r, wf_rectb r && forallb isDouble (rmin r ++ rmax r)) Dom
  && forallb (λ A, forallb (λ B, bool_decide (combineRect NUM_DIMS A B ∈ Dom)) Dom) Dom
  && forallb (λ A, forallb (λ B, forallb (λ C,
        if rect_leb A C && rect_leb B C
        then ((- calcRectVolume C - 1) <? wasteOf A B)%float else true) Dom) Dom) Dom
  && forallb (λ cur, forallb (λ R0, forallb (λ R1,
        negb (PrimFloat.is_nan (growthDiff cur R0 R1))) Dom) Dom) Dom.

(** The well-formed rectangles with corners on a grid of integers. *)
Definition gridRects (xs ys : list Z) : list rectT :=
  a ← xs; c ← xs; b ← ys; e ← ys;
  if bool_decide (a ≤ c ∧ b ≤ e)%Z then [box a b c e] else [].

(** The thirty rectangles with corners in [{0,1,2,3} x {0,1}], and a
    workload that runs through them again and again, entry [i] carrying
    the payload [100 + i]. *)
Definition smallDom : list rectT := gridRects [0; 1; 2; 3]%Z [0; 1]%Z.

Definition gridWork (n : nat) : list (rectT * Z) :=
  map (λ i : nat, (nth (i mod length smallDom) smallDom (box 0 0 0 0),
                   (100 + Z.of_nat i)%Z))
      (seq 0 n).

Definition workload : list opT :=
  map (λ p : rectT * Z, Insert p.1 p.2) (gridWork 40) ++
  [Delete (box 0 0 0 0) 100; Delete (box 50 50 51 51) 7; Insert (box 1 0 3 1) 7].

(** ** Workloads with sizes beyond the binary64 range *)

(** A square of side [2^600]: its size, about [2^1201], is [+inf] in
    binary64. *)
Definition huge : rectT := box 0 0 (2 ^ 600) (2 ^ 600).

(** Seventeen strips [(i*2^600, 0) - ((i+1)*2^600, 1)], payloads [i]. *)
Definition wideStrips : list (rectT * Z) :=
  map (λ i : nat, (box (Z.of_nat i * 2 ^ 600) 0 ((Z.of_nat i + 1) * 2 ^ 600) 1,
                   Z.of_nat i))
      (seq 0 17).

(** Eight copies of one unit square and eight of another, with the
    payloads 0 to 15. *)
Definition twoClusters : list (rectT * Z) :=
  map (λ i : nat, (if (i <? 8)%nat then box 0 0 1 1 else box 100 0 101 1, Z.of_nat i))
      (seq 0 16).

(** 152 unit squares (the root is then at level 2), then three more
    copies of square 0 and four of square 8, which fill the first leaf. *)
Definition fullFirstLeaf : list (rectT * Z) :=
  unitSquares 152 ++
  map (λ i : nat, (if (i <? 3)%nat then box 0 0 1 1 else box 8 0 9 1,
                   (300 + Z.of_nat i)%Z))
      (seq 0 7).

(** A query rectangle around all of these. *)
Definition beyond : rectT := box (-1) (-1) (2 ^ 700) (2 ^ 700).

(** The branch counts of the two nodes of a split. *)
Definition splitCounts (node : nodeT) (br : branchT) : option (nat * nat) :=
  '(node', newNode) ← splitNode node br; Some (n_count node', n_count newNode).

(** The leaf entries of the two nodes of a split. *)
Definition splitEntries (node : nodeT) (br : branchT) : option (list (rectT * Z)) :=
  '(node', newNode) ← splitNode node br; Some (entries node' ++ entries newNode).

(** Finite doubles with [min <= max], all of them. *)
Definition finiteRects (l : list (rectT * Z)) : bool :=
  forallb (λ p : rectT * Z, wf_rectb p.1 && forallb isDouble (rmin p.1 ++ rmax p.1)) l.

(** The rectangle of the first branch of the root and the cover of the
    child it points to. *)
Definition firstCover (root : option nodeT) : option (rectT * rectT) :=
  r ← root; rc ← head (internalBranches r); Some (rc.1, nodeCover rc.2).

(** The branch counts of the nodes below the root. *)
Definition subnodeCounts (root : option nodeT) : list nat :=
  from_option (λ r, n_count <$> subnodes r) [] root.

(** The state of a split right after [pickSeeds], as [choosePartition]
    reaches it from [splitNode]. *)
Definition seedsOf (node : nodeT) (br : branchT) : partitionVarsT :=
  let parVars := (getBranches node br zeroParVars).2 in
  pickSeeds (initParVars parVars (pv_branchCount parVars) MIN_NODES).
(** * Properties *)

(** ** Comparisons *)

Lemma dlt_spec (a b : double) : dlt a b = true ↔ a < b.
Proof.
  unfold dlt. rewrite Qclt_alt. destruct (a ?= b); split; congruence.
Qed.

Lemma dlt_false (a b : double) : dlt a b = false ↔ b ≤ a.
Proof.
  rewrite Qcle_ngt, <- dlt_spec. destruct (dlt a b); split; congruence.
Qed.

Lemma dgt_false (a b : double) : dgt a b = false ↔ a ≤ b.
Proof. apply dlt_false. Qed.

(** ** Geometry primitives *)

Section GeometryFacts.

Variable D : nat.

Lemma overlap_true_iff (A B : rectT) :
  overlap D A B = true ↔
  ∀ i, (i < D)%nat →
       sub (rmin A) i ≤ sub (rmax B) i ∧ sub (rmin B) i ≤ sub (rmax A) i.
Proof.
  unfold overlap. rewrite forallb_forall. split.
  - intros H i Hi. specialize (H i). rewrite in_seq in H.
    specialize (H ltac:(lia)).
    apply negb_true_iff, orb_false_iff in H as [H1 H2].
    by rewrite !dgt_false in H1, H2.
  - intros H i [_ Hi]%in_seq. destruct (H i ltac:(lia)) as [H1 H2].
    apply negb_true_iff, orb_false_iff. by rewrite !dgt_false.
Qed.

(** C8.  On well-formed rectangles [overlap] is true exactly when the
    two rectangles intersect on every dimension
    ([A.min[i] <= B.max[i]] and [B.min[i] <= A.max[i]]); rectangles that
    meet only in a shared boundary coordinate overlap, and rectangles
    with a positive gap on some dimension do not. *)
Theorem overlap_correct (A B : rectT) :
  wf_rect D A → wf_rect D B →
  (overlap D A B = true ↔
     ∀ i, (i < D)%nat →
          sub (rmin A) i ≤ sub (rmax B) i ∧ sub (rmin B) i ≤ sub (rmax A) i)
  ∧ ((∃ i, (i < D)%nat ∧
           (sub (rmax A) i = sub (rmin B) i ∨ sub (rmax B) i = sub (rmin A) i)
           ∧ ∀ j, (j < D)%nat → j ≠ i →
                  sub (rmin A) j ≤ sub (rmax B) j ∧ sub (rmin B) j ≤ sub (rmax A) j)
     → overlap D A B = true)
  ∧ ((∃ i, (i < D)%nat ∧
           (sub (rmax A) i < sub (rmin B) i ∨ sub (rmax B) i < sub (rmin A) i))
     → overlap D A B = false).
Proof.
  intros (_ & _ & HA) (_ & _ & HB). split; [apply overlap_true_iff|]. split.
  - intros (i & Hi & Htouch & Hrest). apply overlap_true_iff. intros j Hj.
    destruct (decide (j = i)) as [->|Hne]; [|by apply Hrest].
    specialize (HA i Hi). specialize (HB i Hi).
    destruct Htouch as [Heq|Heq].
    + split.
      * apply Qcle_trans with (sub (rmax A) i); [done|]. by rewrite Heq.
      * rewrite Heq. apply Qcle_refl.
    + split.
      * rewrite <- Heq. apply Qcle_refl.
      * apply Qcle_trans with (sub (rmax B) i); [done|]. by rewrite Heq.
  - intros (i & Hi & Hgap). apply not_true_is_false.
    intros H. rewrite overlap_true_iff in H. destruct (H i Hi) as [H1 H2].
    destruct Hgap as [Hgap|Hgap].
    + by apply Qcle_not_lt in H2.
    + by apply Qcle_not_lt in H1.
Qed.

End GeometryFacts.

Lemma min_comm (a b : double) : min a b = min b a.
Proof.
  unfold min. destruct (dlt a b) eqn:Hab, (dlt b a) eqn:Hba; try done.
  - apply dlt_spec in Hab, Hba. apply Qclt_le_weak in Hba.
    by apply Qclt_not_le in Hab.
  - apply dlt_false in Hab, Hba. by apply Qcle_antisym.
Qed.

Lemma min_l (a b : double) : a ≤ b → min a b = a.
Proof.
  intros H. unfold min. destruct (dlt a b) eqn:Hab; [done|].
  apply dlt_false in Hab. by apply Qcle_antisym.
Qed.

Lemma min_r (a b : double) : b ≤ a → min a b = b.
Proof. intros H. rewrite min_comm. by apply min_l. Qed.

Lemma min_le_l (a b : double) : min a b ≤ a.
Proof.
  destruct (Qclt_le_dec a b) as [H|H].
  - rewrite min_l; [apply Qcle_refl|by apply Qclt_le_weak].
  - by rewrite min_r.
Qed.

Lemma min_le_r (a b : double) : min a b ≤ b.
Proof. rewrite min_comm. apply min_le_l. Qed.

Lemma min_glb (a b c : double) : c ≤ a → c ≤ b → c ≤ min a b.
Proof. intros. unfold min. by destruct (dlt a b). Qed.

Lemma min_assoc (a b c : double) : min (min a b) c = min a (min b c).
Proof.
  destruct (Qclt_le_dec a b) as [Hab%Qclt_le_weak|Hab];
    destruct (Qclt_le_dec b c) as [Hbc%Qclt_le_weak|Hbc].
  - rewrite (min_l a b), (min_l b c), (min_l a b), (min_l a c);
      eauto using Qcle_trans.
  - by rewrite (min_l a b), (min_r b c).
  - rewrite (min_r a b), (min_l b c), (min_r a b); eauto using Qcle_trans.
  - rewrite (min_r a b), (min_r b c), (min_r a c); eauto using Qcle_trans.
Qed.

Lemma max_comm (a b : double) : max a b = max b a.
Proof.
  unfold max, dgt. destruct (dlt b a) eqn:Hab, (dlt a b) eqn:Hba; try done.
  - apply dlt_spec in Hab, Hba. apply Qclt_le_weak in Hba.
    by apply Qclt_not_le in Hab.
  - apply dlt_false in Hab, Hba. by apply Qcle_antisym.
Qed.

Lemma max_l (a b : double) : b ≤ a → max a b = a.
Proof.
  intros H. unfold max, dgt. destruct (dlt b a) eqn:Hab; [done|].
  apply dlt_false in Hab. by apply Qcle_antisym.
Qed.

Lemma max_r (a b : double) : a ≤ b → max a b = b.
Proof. intros H. rewrite max_comm. by apply max_l. Qed.

Lemma max_ge_l (a b : double) : a ≤ max a b.
Proof.
  destruct (Qclt_le_dec b a) as [H|H].
  - rewrite max_l; [apply Qcle_refl|by apply Qclt_le_weak].
  - by rewrite max_r.
Qed.

Lemma max_ge_r (a b : double) : b ≤ max a b.
Proof. rewrite max_comm. apply max_ge_l. Qed.

Lemma max_lub (a b c : double) : a ≤ c → b ≤ c → max a b ≤ c.
Proof. intros. unfold max. by destruct (dgt a b). Qed.

Lemma max_assoc (a b c : double) : max (max a b) c = max a (max b c).
Proof.
  destruct (Qclt_le_dec a b) as [Hab%Qclt_le_weak|Hab];
    destruct (Qclt_le_dec b c) as [Hbc%Qclt_le_weak|Hbc].
  - rewrite (max_r a b), (max_r b c), (max_r a c); eauto using Qcle_trans.
  - by rewrite (max_r a b), (max_l b c), (max_r a b).
  - by rewrite (max_l a b), (max_r b c).
  - rewrite (max_l a b), (max_l b c), (max_l a c), (max_l a b);
      eauto using Qcle_trans.
Qed.

(** *** [combineRect] in the default build *)

Lemma combineRect_2 (A B : rectT) :
  combineRect 2 A B =
  mkRect [min (sub (rmin A) 0) (sub (rmin B) 0); min (sub (rmin A) 1) (sub (rmin B) 1)]
         [max (sub (rmax A) 0) (sub (rmax B) 0); max (sub (rmax A) 1) (sub (rmax B) 1)].
Proof. reflexivity. Qed.

Lemma combineRect_sub (A B : rectT) :
  sub (rmin (combineRect 2 A B)) 0 = min (sub (rmin A) 0) (sub (rmin B) 0) ∧
  sub (rmin (combineRect 2 A B)) 1 = min (sub (rmin A) 1) (sub (rmin B) 1) ∧
  sub (rmax (combineRect 2 A B)) 0 = max (sub (rmax A) 0) (sub (rmax B) 0) ∧
  sub (rmax (combineRect 2 A B)) 1 = max (sub (rmax A) 1) (sub (rmax B) 1).
Proof. done. Qed.

Lemma combineRect_comm (A B : rectT) : combineRect 2 A B = combineRect 2 B A.
Proof.
  rewrite !combineRect_2.
  by rewrite (min_comm (sub (rmin A) 0)), (min_comm (sub (rmin A) 1)),
    (max_comm (sub (rmax A) 0)), (max_comm (sub (rmax A) 1)).
Qed.

Lemma combineRect_assoc (A B C : rectT) :
  combineRect 2 (combineRect 2 A B) C = combineRect 2 A (combineRect 2 B C).
Proof.
  rewrite (combineRect_2 (combineRect 2 A B) C), (combineRect_2 A (combineRect 2 B C)).
  destruct (combineRect_sub A B) as (-> & -> & -> & ->).
  destruct (combineRect_sub B C) as (-> & -> & -> & ->).
  by rewrite !min_assoc, !max_assoc.
Qed.

(** *** Well-formedness and containment *)

Ltac dims i Hi := destruct i as [|[|i]]; [| |unfold NUM_DIMS in Hi; lia].

Lemma wf_rect_combineRect (A B : rectT) :
  wf_rect 2 A → wf_rect 2 (combineRect 2 A B).
Proof.
  intros (_ & _ & HA). rewrite combineRect_2. split; [done|]. split; [done|].
  intros i Hi. dims i Hi; unfold sub at 1 4; simpl.
  - eapply Qcle_trans; [apply min_le_l|].
    eapply Qcle_trans; [apply (HA 0%nat); lia|apply max_ge_l].
  - eapply Qcle_trans; [apply min_le_l|].
    eapply Qcle_trans; [apply (HA 1%nat); lia|apply max_ge_l].
Qed.

Lemma rect_le_refl (A : rectT) : rect_le A A.
Proof. intros i Hi. split; apply Qcle_refl. Qed.

Lemma rect_le_trans (A B C : rectT) : rect_le A B → rect_le B C → rect_le A C.
Proof.
  intros H1 H2 i Hi. destruct (H1 i Hi), (H2 i Hi).
  split; eapply Qcle_trans; eauto.
Qed.

Lemma combineRect_le_l (A B : rectT) : rect_le A (combineRect 2 A B).
Proof.
  intros i Hi. destruct (combineRect_sub A B) as (H1 & H2 & H3 & H4).
  dims i Hi.
  - rewrite H1, H3. split; [apply min_le_l|apply max_ge_l].
  - rewrite H2, H4. split; [apply min_le_l|apply max_ge_l].
Qed.

Lemma combineRect_le_r (A B : rectT) : rect_le B (combineRect 2 A B).
Proof. rewrite combineRect_comm. apply combineRect_le_l. Qed.

Lemma combineRect_lub (A B C : rectT) :
  rect_le A C → rect_le B C → rect_le (combineRect 2 A B) C.
Proof.
  intros HA HB i Hi. destruct (combineRect_sub A B) as (H1 & H2 & H3 & H4).
  destruct (HA i Hi), (HB i Hi). dims i Hi.
  - rewrite H1, H3. split; [by apply min_glb|by apply max_lub].
  - rewrite H2, H4. split; [by apply min_glb|by apply max_lub].
Qed.

(** *** Binary64 comparisons *)

(** A difference that is not NaN passes, with its sign removed the way
    [choosePartition] removes it, the comparison with the starting value
    [-1] of [biggestDiff]. *)
Lemma absdiff_gt (d : float) :
  PrimFloat.is_nan d = false →
  ((-1) <? (if (0 <=? d) then (0%nat, d) else (1%nat, (- d))).2)%float = true ∧
  ((if (0 <=? d)%float then (0%nat, d) else (1%nat, (- d)%float)).1 ≤ 1)%nat.
Proof.
  unfold PrimFloat.is_nan. intros H%negb_false_iff.
  rewrite FloatAxioms.eqb_spec in H. rewrite FloatAxioms.leb_spec.
  destruct (SFleb (Prim2SF 0%float) (Prim2SF d)) eqn:E; cbn [fst snd];
    (split; [|lia]); rewrite FloatAxioms.ltb_spec, ?FloatAxioms.opp_spec;
    destruct (Prim2SF d) as [[]|[]| |[] m e]; try done.
Qed.

(** ** Loops over array indices *)

Lemma foldl_seq_lookup {A B} (f : A → nat → A) (g : A → B → A) (l : list B) :
  ∀ k a,
    (∀ i x a, l !! i = Some x → f a (k + i)%nat = g a x) →
    foldl f a (seq k (length l)) = foldl g a l.
Proof.
  induction l as [|x l IH]; intros k a H; [done|]. simpl.
  rewrite <- (H 0%nat x a eq_refl), Nat.add_0_r. apply IH.
  intros i y a' Hi. rewrite <- (H (S i) y a' Hi). f_equal. lia.
Qed.

Lemma tally_insert_new (g : Z) (l : list Z) (i : nat) (x : Z) :
  l !! i = Some x → x ≠ g → tally g (<[i := g]> l) = S (tally g l).
Proof.
  unfold tally. revert i. induction l as [|y l IH]; intros [|i] Hi Hx; try done.
  - simpl in *. simplify_eq. rewrite !filter_cons.
    destruct (decide (g = g)); [|done]. by destruct (decide (x = g)).
  - simpl in *. rewrite !filter_cons.
    destruct (decide (y = g)); simpl; by rewrite IH.
Qed.

Lemma tally_insert_other (g : Z) (l : list Z) (i : nat) (x y : Z) :
  l !! i = Some x → x ≠ g → y ≠ g → tally g (<[i := y]> l) = tally g l.
Proof.
  unfold tally. revert i. induction l as [|z l IH]; intros [|i] Hi Hx Hy; try done.
  - simpl in *. simplify_eq. rewrite !filter_cons.
    destruct (decide (y = g)); [done|]. by destruct (decide (x = g)).
  - simpl in *. rewrite !filter_cons.
    destruct (decide (z = g)); simpl; by rewrite IH.
Qed.

Lemma tally_le_length (g : Z) (l : list Z) : (tally g l ≤ length l)%nat.
Proof. apply length_filter. Qed.

(** ** The split engine *)

Lemma classify_ok (buf : list branchT) (pv : partitionVarsT) (i g : nat) :
  parOk buf pv → pv_taken pv !! i = Some false → (g ≤ 1)%nat →
  parOk buf (classify i g pv).
Proof.
  intros (Hbuf & Hlen & Htot & Hmin & Hrel & Hlt & Hc0 & Hc1) Hi Hg.
  assert (pv_partition pv !! i = Some (-1)%Z) as Hp.
  { destruct (Forall2_lookup_l _ _ _ _ _ Hrel Hi) as (p & Hp & Hp'). by subst. }
  unfold parOk, classify; simpl. repeat split; try done.
  - apply Forall2_insert; [done|]. destruct g as [|[|]]; [by left|by right|lia].
  - by rewrite length_insert.
  - destruct g as [|[|]]; [| |lia]; simpl.
    + erewrite tally_insert_new; [by rewrite Hc0|done|done].
    + erewrite tally_insert_other; [done|done|done|done].
  - destruct g as [|[|]]; [| |lia]; simpl.
    + erewrite tally_insert_other; [done|done|done|done].
    + erewrite tally_insert_new; [by rewrite Hc1|done|done].
Qed.

Lemma taken_tally (T : list bool) (P : list Z) :
  Forall2 (λ (t : bool) (p : Z), if t then p = 0%Z ∨ p = 1%Z else p = (-1)%Z) T P →
  (tally 0 P + tally 1 P ≤ length T)%nat ∧
  ((tally 0 P + tally 1 P < length T)%nat → ∃ i, T !! i = Some false) ∧
  (Forall (λ t, t = true) T ↔ (tally 0 P + tally 1 P = length T)%nat).
Proof.
  unfold tally. induction 1 as [|t p T P Htp _ (IH1 & IH2 & IH3)]; simpl.
  - split; [done|]. split; [lia|done].
  - rewrite !filter_cons. destruct t.
    + assert (length (if decide (p = 0%Z) then p :: filter (λ p, p = 0%Z) P
                      else filter (λ p, p = 0%Z) P)
              + length (if decide (p = 1%Z) then p :: filter (λ p, p = 1%Z) P
                        else filter (λ p, p = 1%Z) P)
              = S (length (filter (λ p, p = 0%Z) P) + length (filter (λ p, p = 1%Z) P)))%nat
        as ->.
      { destruct Htp as [-> | ->]; simpl; lia. }
      split; [lia|]. split.
      * intros H. destruct IH2 as [i Hi]; [lia|]. by exists (S i).
      * rewrite Forall_cons, IH3. split; [intros [_ ->]; done|]. split; [done|lia].
    + subst p. simpl. split; [lia|]. split.
      * intros _. by exists 0%nat.
      * rewrite Forall_cons. split; [by intros [? _]|lia].
Qed.

Lemma seedPairs_17 :
  ∃ rest, seedPairs 17 = (0%nat, 1%nat) :: rest ∧
          Forall (λ p, (p.1 < p.2 < 17)%nat) rest.
Proof.
  eexists. split; [reflexivity|].
  repeat (constructor; [simpl; lia|]). constructor.
Qed.

Lemma foldl_combineRect_ge (acc : rectT) (l : list branchT) :
  rect_le acc (foldl (λ c (b : branchT), combineRect NUM_DIMS c b.(b_rect)) acc l).
Proof.
  revert acc. induction l as [|b l IH]; intros acc; simpl; [apply rect_le_refl|].
  eapply rect_le_trans; [|apply IH]. apply combineRect_le_l.
Qed.

Lemma seed_fold_rest (waste : nat → nat → float) (rest : list (nat * nat)) :
  Forall (λ p, (p.1 < p.2 < 17)%nat) rest →
  ∀ (w0 : float) (a0 b0 : nat),
    (a0 < b0 < 17)%nat →
    ∃ w s0 s1,
      foldl (λ '(worst, seed0, seed1) '(indexA, indexB),
               if (worst <? waste indexA indexB)%float
               then (waste indexA indexB, indexA, indexB)
               else (worst, seed0, seed1))
            (w0, a0, b0) rest = (w, s0, s1) ∧
      (s0 < s1 < 17)%nat.
Proof.
  induction 1 as [|[a b] l Hab _ IH]; intros w0 a0 b0 Hst.
  - by exists w0, a0, b0.
  - cbn [foldl]. destruct (w0 <? waste a b)%float; by apply IH.
Qed.

Lemma seed_fold (waste : nat → nat → float) (worst0 : float)
    (rest : list (nat * nat)) :
  (worst0 <? waste 0%nat 1%nat)%float = true →
  Forall (λ p, (p.1 < p.2 < 17)%nat) rest →
  ∃ w s0 s1,
    foldl (λ '(worst, seed0, seed1) '(indexA, indexB),
             if (worst <? waste indexA indexB)%float
             then (waste indexA indexB, indexA, indexB)
             else (worst, seed0, seed1))
          (worst0, 0%nat, 0%nat) ((0%nat, 1%nat) :: rest) = (w, s0, s1) ∧
    (s0 < s1 < 17)%nat.
Proof.
  intros Hfirst Hrest. cbn [foldl]. rewrite Hfirst.
  apply seed_fold_rest; [done|lia].
Qed.

Lemma Forall_total_lookup {A} `{!Inhabited A} (P : A → Prop) (l : list A) (i : nat) :
  Forall P l → (i < length l)%nat → P (l !!! i).
Proof.
  intros H Hi. destruct (lookup_lt_is_Some_2 l i Hi) as [x Hx].
  rewrite (list_lookup_total_correct _ _ _ Hx).
  by eapply Forall_lookup_1.
Qed.

Lemma classify_cov (Dom : list rectT) (pv : partitionVarsT) (i g : nat) :
  (∀ A B, A ∈ Dom → B ∈ Dom → combineRect NUM_DIMS A B ∈ Dom) →
  covOk Dom pv → b_rect (pv_branchBuf pv !!! i) ∈ Dom → (g ≤ 1)%nat →
  covOk Dom (classify i g pv).
Proof.
  intros Hun [H0 H1] Hi Hg. unfold covOk, classify.
  cbn [pv_count pv_cover pv_area].
  destruct g as [|[|]]; [| |lia]; cbn [get2 set2 fst snd].
  - destruct (decide ((pv_count pv).1 = 0%nat)) as [Hz|Hz]; cbn [fst snd].
    + split; [done|exact H1].
    + split; [intros _|exact H1]. split; [|done]. apply Hun; [done|]. apply H0. lia.
  - destruct (decide ((pv_count pv).2 = 0%nat)) as [Hz|Hz]; cbn [fst snd].
    + split; [exact H0|done].
    + split; [exact H0|intros _]. split; [|done]. apply Hun; [done|]. apply H1. lia.
Qed.

Lemma pickSeeds_ok (Dom : list rectT) (buf : list branchT) (pv : partitionVarsT)
    (CS : rectT) :
  safeDomain Dom →
  parOk buf pv → pv_taken pv = replicate 17 false → pv_count pv = (0, 0)%nat →
  Forall (λ b : branchT, b_rect b ∈ Dom) buf → CS ∈ Dom →
  rect_le (b_rect (buf !!! 0%nat)) CS → rect_le (b_rect (buf !!! 1%nat)) CS →
  pv_coverSplitArea pv = calcRectVolume CS →
  parOk buf (pickSeeds pv) ∧ pv_count (pickSeeds pv) = (1, 1)%nat ∧
  covOk Dom (pickSeeds pv).
Proof.
  intros (_ & Hun & Hseed & _) Hok Htk Hcnt Hdom HCSd HCS0 HCS1 Harea.
  pose proof Hok as (Hbuf & Hlen & Htot & _).
  assert (∀ i, (i < 17)%nat → b_rect (buf !!! i) ∈ Dom) as Hin.
  { intros i Hi.
    apply (Forall_total_lookup (λ b : branchT, b_rect b ∈ Dom) buf i); [done|lia]. }
  unfold pickSeeds. rewrite Htot, Hbuf, Harea.
  destruct seedPairs_17 as (rest & -> & Hrest).
  destruct (seed_fold
              (λ a b, (calcRectVolume
                         (combineRect NUM_DIMS (b_rect (buf !!! a)) (b_rect (buf !!! b)))
                       - calcRectVolume (b_rect (buf !!! a))
                       - calcRectVolume (b_rect (buf !!! b)))%float)
              (- calcRectVolume CS - 1)%float rest)
    as (w & s0 & s1 & Hfold & Hseeds); [|done|].
  { apply (Hseed (b_rect (buf !!! 0%nat)) (b_rect (buf !!! 1%nat)) CS); try done;
      apply Hin; lia. }
  match goal with
  | |- context [foldl ?f ?st ?l] =>
      replace (foldl f st l) with (w, s0, s1) by (symmetry; exact Hfold)
  end.
  assert (pv_taken pv !! s0 = Some false) as H0.
  { rewrite Htk. apply lookup_replicate_2. lia. }
  assert (pv_taken (classify s0 0 pv) !! s1 = Some false) as H1.
  { unfold classify; cbn [pv_taken]. rewrite list_lookup_insert_ne by lia.
    rewrite Htk. apply lookup_replicate_2. lia. }
  split; [|split].
  - apply classify_ok; [|done|lia]. apply classify_ok; [done|done|lia].
  - unfold classify; cbn [pv_count]. by rewrite Hcnt.
  - apply classify_cov; [done| | |lia].
    + apply classify_cov; [done| | |lia].
      * split; rewrite Hcnt; cbn [fst snd]; lia.
      * rewrite Hbuf. apply Hin. lia.
    + unfold classify at 1. cbn [pv_branchBuf]. rewrite Hbuf. apply Hin. lia.
Qed.

Lemma chooseNext_ok (Dom : list rectT) (buf : list branchT) (pv : partitionVarsT)
    (cv : chooseVarsT) :
  safeDomain Dom →
  parOk buf pv → Forall (λ b : branchT, b_rect b ∈ Dom) buf → covOk Dom pv →
  (1 ≤ (pv_count pv).1)%nat → (1 ≤ (pv_count pv).2)%nat →
  (∃ i, pv_taken pv !! i = Some false) →
  cv_biggestDiff cv = (-1)%float →
  pv_taken pv !! cv_chosen (chooseNext pv cv) = Some false ∧
  (cv_betterGroup (chooseNext pv cv) ≤ 1)%nat.
Proof.
  intros (_ & _ & _ & Hnan) (Hbuf & Hlen & Htot & _ & _ & Hlt & _) Hdom [Hc0 Hc1]
         Hn0 Hn1 [i0 Hi0] Hcv.
  destruct (Hc0 Hn0) as [Hd0 Ha0]. destruct (Hc1 Hn1) as [Hd1 Ha1].
  unfold chooseNext. rewrite Htot, Hbuf, Ha0, Ha1.
  match goal with |- context [foldl ?f cv _] => set (stp := f) end.
  assert (∀ n, (n ≤ 17)%nat →
               (cv_biggestDiff (foldl stp cv (seq 0 n)) = (-1)%float
                ∧ ∀ i, (i < n)%nat → pv_taken pv !! i ≠ Some false)
               ∨ (pv_taken pv !! cv_chosen (foldl stp cv (seq 0 n)) = Some false
                  ∧ (cv_betterGroup (foldl stp cv (seq 0 n)) ≤ 1)%nat)) as Hinv.
  { induction n as [|n IH]; intros Hn.
    - left. split; [done|lia].
    - rewrite seq_S, foldl_app. cbn [foldl Nat.add].
      specialize (IH ltac:(lia)).
      set (st := foldl stp cv (seq 0 n)) in *.
      destruct (lookup_lt_is_Some_2 (pv_taken pv) n ltac:(lia)) as [t Ht].
      unfold stp. rewrite (list_lookup_total_correct _ _ _ Ht).
      destruct t; cbn [negb].
      + destruct IH as [[H1 H2]|IH]; [left|by right].
        split; [done|]. intros i Hi.
        destruct (decide (i = n)) as [->|]; [by rewrite Ht|apply H2; lia].
      + assert (b_rect (buf !!! n) ∈ Dom) as Hcur.
        { apply (Forall_total_lookup (λ b : branchT, b_rect b ∈ Dom) buf n); [done|lia]. }
        pose proof (Hnan _ _ _ Hcur Hd0 Hd1) as Hd. unfold growthDiff in Hd.
        apply absdiff_gt in Hd as [Hd Hg]. cbv zeta.
        match goal with
        | |- context [if (0 <=? ?d)%float then _ else _] =>
            destruct (if (0 <=? d)%float then (0%nat, d) else (1%nat, (- d)%float))
              as [g d']
        end.
        cbn [fst snd] in Hd, Hg. right.
        destruct IH as [[H1 H2]|(H2 & H3)].
        * rewrite H1, Hd. done.
        * destruct (cv_biggestDiff st <? d')%float; [done|].
          match goal with |- context [if ?c then _ else _] => destruct c end; done. }
  destruct (Hinv 17%nat ltac:(lia)) as [[_ H]|(H1 & H2)]; [|done].
  destruct (H i0); [|done]. apply lookup_lt_Some in Hi0. lia.
Qed.

Lemma chooseLoop_ok (Dom : list rectT) (buf : list branchT) (fuel : nat) :
  safeDomain Dom → Forall (λ b : branchT, b_rect b ∈ Dom) buf →
  ∀ cv pv,
    parOk buf pv → covOk Dom pv →
    (1 ≤ (pv_count pv).1 ≤ 9)%nat → (1 ≤ (pv_count pv).2 ≤ 9)%nat →
    (17 ≤ fuel + (pv_count pv).1 + (pv_count pv).2)%nat →
    let pv' := (chooseLoop fuel cv pv).2 in
    parOk buf pv' ∧ chooseCond pv' = false ∧
    ((pv_count pv').1 ≤ 9)%nat ∧ ((pv_count pv').2 ≤ 9)%nat.
Proof.
  intros Hsafe Hdom.
  induction fuel as [|fuel IH]; intros cv pv Hok Hcov H1 H2 Hfuel; cbn [chooseLoop].
  - cbn [snd]. split; [done|]. split; [|lia].
    destruct Hok as (_ & _ & Htot & _). unfold chooseCond. rewrite Htot.
    rewrite (bool_decide_eq_false_2 (_ + _ < 17)%nat); [done|lia].
  - destruct (chooseCond pv) eqn:Hcond; [|cbn [snd]; split; [done|split; [done|lia]]].
    pose proof Hok as (Hbuf & _ & Htot & Hmin & Hrel & Hlt & Hc0 & Hc1).
    unfold chooseCond in Hcond. rewrite Htot, Hmin in Hcond.
    apply andb_true_iff in Hcond as [[Hs Ha]%andb_true_iff Hb].
    apply bool_decide_eq_true in Hs, Ha, Hb.
    destruct (taken_tally _ _ Hrel) as (_ & Hex & _).
    cbv zeta.
    match goal with
    | |- context [chooseNext pv ?c] =>
        destruct (chooseNext_ok Dom buf pv c Hsafe Hok Hdom Hcov) as [Hch Hg];
          [lia|lia|apply Hex; lia|done|];
        set (cv' := chooseNext pv c) in *
    end.
    assert (b_rect (pv_branchBuf pv !!! cv_chosen cv') ∈ Dom) as Hin.
    { rewrite Hbuf.
      apply (Forall_total_lookup (λ b : branchT, b_rect b ∈ Dom) buf); [done|].
      apply lookup_lt_Some in Hch. destruct Hok as (_ & Hl & _). lia. }
    destruct Hsafe as (Hs1 & Hun & Hs3 & Hs4).
    apply IH.
    + by apply classify_ok.
    + by apply classify_cov.
    + unfold classify. cbn [pv_count].
      destruct (cv_betterGroup cv') as [|?]; cbn [get2 set2 fst snd]; lia.
    + unfold classify. cbn [pv_count].
      destruct (cv_betterGroup cv') as [|?]; cbn [get2 set2 fst snd]; lia.
    + unfold classify. cbn [pv_count].
      destruct (cv_betterGroup cv') as [|?]; cbn [get2 set2 fst snd]; lia.
Qed.

Lemma finish_ok (buf : list branchT) (pv : partitionVarsT) (g : nat) :
  parOk buf pv → (g ≤ 1)%nat →
  let pv' := foldl (λ pv index,
                      if negb (pv_taken pv !!! index) then classify index g pv else pv)
                   pv (seq 0 17) in
  parOk buf pv' ∧ Forall (λ t, t = true) (pv_taken pv') ∧
  get2 (pv_count pv') (1 - g) = get2 (pv_count pv) (1 - g).
Proof.
  intros Hok Hg.
  match goal with |- context [foldl ?f pv _] => set (stp := f) end.
  assert (∀ n, (n ≤ 17)%nat →
               parOk buf (foldl stp pv (seq 0 n))
               ∧ (∀ i, (i < n)%nat → pv_taken (foldl stp pv (seq 0 n)) !! i = Some true)
               ∧ get2 (pv_count (foldl stp pv (seq 0 n))) (1 - g)
                 = get2 (pv_count pv) (1 - g)) as Hinv.
  { induction n as [|n IH]; intros Hn.
    - split; [done|]. split; [lia|done].
    - rewrite seq_S, foldl_app. cbn [foldl Nat.add].
      destruct (IH ltac:(lia)) as (Hst & Htk & Hcnt).
      set (st := foldl stp pv (seq 0 n)) in *.
      pose proof Hst as (_ & _ & _ & _ & _ & Hlt & _).
      destruct (lookup_lt_is_Some_2 (pv_taken st) n ltac:(lia)) as [t Ht].
      unfold stp. rewrite (list_lookup_total_correct _ _ _ Ht).
      destruct t; cbn [negb].
      + split; [done|]. split; [|done]. intros i Hi.
        destruct (decide (i = n)) as [->|]; [done|apply Htk; lia].
      + split; [by apply classify_ok|]. split.
        * intros i Hi. unfold classify; cbn [pv_taken].
          destruct (decide (i = n)) as [->|].
          -- apply list_lookup_insert_eq. lia.
          -- rewrite list_lookup_insert_ne by done. apply Htk. lia.
        * rewrite <- Hcnt. unfold classify; cbn [pv_count].
          destruct g as [|[|]]; [done|done|lia]. }
  destruct (Hinv 17%nat ltac:(lia)) as (H1 & H2 & H3).
  cbv zeta. split; [done|]. split; [|done].
  apply Forall_lookup. intros i t Hi.
  pose proof H1 as (_ & _ & _ & _ & _ & Hlt & _).
  apply lookup_lt_Some in Hi as Hi'. rewrite H2 in Hi by lia. by simplify_eq.
Qed.

Lemma initParVars_ok (buf : list branchT) (pv : partitionVarsT) :
  pv_branchBuf pv = buf → length buf = 17%nat →
  pv_partition pv = replicate 17 0%Z → pv_taken pv = replicate 17 false →
  parOk buf (initParVars pv 17 8) ∧
  pv_taken (initParVars pv 17 8) = replicate 17 false ∧
  pv_count (initParVars pv 17 8) = (0, 0)%nat ∧
  pv_coverSplitArea (initParVars pv 17 8) = pv_coverSplitArea pv.
Proof.
  intros Hbuf Hlen Hpart Htk.
  assert (pv_partition (initParVars pv 17 8) = replicate 17 (-1)%Z) as HP
    by (unfold initParVars; cbn [pv_partition]; by rewrite Hpart).
  assert (pv_taken (initParVars pv 17 8) = replicate 17 false) as HT
    by (unfold initParVars; cbn [pv_taken]; by rewrite Htk).
  split; [|done].
  unfold parOk. rewrite HP, HT.
  split; [done|]. split; [done|]. split; [done|]. split; [done|].
  split; [|done]. repeat constructor.
Qed.

Lemma forced_completion_ok (buf : list branchT) (pvL : partitionVarsT) :
  parOk buf pvL → chooseCond pvL = false →
  ((pv_count pvL).1 ≤ 9)%nat → ((pv_count pvL).2 ≤ 9)%nat →
  ∀ pvF,
    pvF = (if bool_decide ((pv_count pvL).1 + (pv_count pvL).2 < pv_total pvL)%nat
           then
             foldl (λ pv index,
                      if negb (pv_taken pv !!! index)
                      then classify index
                             (if bool_decide (pv_total pvL - pv_minFill pvL
                                              ≤ (pv_count pvL).1)%nat
                              then 1%nat else 0%nat) pv
                      else pv)
                   pvL (seq 0 (pv_total pvL))
           else pvL) →
    parOk buf pvF ∧ Forall (λ t, t = true) (pv_taken pvF) ∧
    (8 ≤ (pv_count pvF).1)%nat ∧ (8 ≤ (pv_count pvF).2)%nat.
Proof.
  intros HokL Hcond H1 H2 pvF HpvF.
  pose proof HokL as (_ & _ & HtotL & HminL & HrelL & HltL & Hc0 & Hc1).
  destruct (taken_tally _ _ HrelL) as (Hle & _ & Hall).
  unfold chooseCond in Hcond. rewrite HtotL, HminL in Hcond, HpvF.
  destruct (bool_decide ((pv_count pvL).1 + (pv_count pvL).2 < 17)%nat) eqn:Hsum.
  - apply bool_decide_eq_true in Hsum. rewrite andb_true_l in Hcond.
    set (g := if bool_decide (17 - 8 ≤ (pv_count pvL).1)%nat then 1%nat else 0%nat) in *.
    assert (g ≤ 1)%nat as Hg by (unfold g; case_match; lia).
    destruct (finish_ok buf pvL g HokL Hg) as (HokF & HallF & Hother).
    rewrite <- HpvF in HokF, HallF, Hother.
    split; [exact HokF|]. split; [exact HallF|].
    pose proof HokF as (_ & _ & _ & _ & HrelF & HltF & Hc0F & Hc1F).
    destruct (taken_tally _ _ HrelF) as (_ & _ & HallF').
    apply HallF' in HallF. rewrite <- Hc0F, <- Hc1F, HltF in HallF.
    apply andb_false_iff in Hcond as [Hcond|Hcond];
      apply bool_decide_eq_false in Hcond.
    + assert (g = 1%nat) as Hg1
        by (unfold g; rewrite bool_decide_eq_true_2; [done|lia]).
      rewrite Hg1 in Hother. cbn [Nat.sub get2] in Hother. lia.
    + assert (g = 0%nat) as Hg0
        by (unfold g; rewrite bool_decide_eq_false_2; [done|lia]).
      rewrite Hg0 in Hother. cbn [Nat.sub get2] in Hother. lia.
  - apply bool_decide_eq_false in Hsum. subst pvF.
    split; [exact HokL|]. split; [apply Hall; lia|]. lia.
Qed.

Lemma choosePartition_ok (Dom : list rectT) (buf : list branchT)
    (pv : partitionVarsT) (CS : rectT) :
  safeDomain Dom →
  pv_branchBuf pv = buf → length buf = 17%nat → pv_branchCount pv = 17%nat →
  pv_partition pv = replicate 17 0%Z → pv_taken pv = replicate 17 false →
  Forall (λ b : branchT, b_rect b ∈ Dom) buf → CS ∈ Dom →
  rect_le (b_rect (buf !!! 0%nat)) CS → rect_le (b_rect (buf !!! 1%nat)) CS →
  pv_coverSplitArea pv = calcRectVolume CS →
  parOk buf (choosePartition pv 8) ∧
  Forall (λ t, t = true) (pv_taken (choosePartition pv 8)) ∧
  (8 ≤ (pv_count (choosePartition pv 8)).1)%nat ∧
  (8 ≤ (pv_count (choosePartition pv 8)).2)%nat.
Proof.
  intros Hsafe Hbuf Hlen Hbc Hpart Htk Hdom HCSd HCS0 HCS1 Harea.
  destruct (initParVars_ok buf pv Hbuf Hlen Hpart Htk) as (HokI & HtkI & HcntI & HareaI).
  rewrite Harea in HareaI.
  destruct (pickSeeds_ok Dom buf (initParVars pv 17 8) CS Hsafe HokI HtkI HcntI Hdom
              HCSd HCS0 HCS1 HareaI) as (HokS & HcntS & HcovS).
  pose proof HokS as (_ & _ & HtotS & _).
  destruct (chooseLoop_ok Dom buf 17 Hsafe Hdom (mkChoose 0%float 0 0 0)
              (pickSeeds (initParVars pv 17 8)) HokS HcovS)
    as (HokL & Hcond & H1 & H2); [rewrite HcntS; cbn [fst snd]; lia..|].
  apply (forced_completion_ok buf _ HokL Hcond H1 H2).
  unfold choosePartition. rewrite Hbc, HtotS.
  by destruct (chooseLoop 17 (mkChoose 0%float 0 0 0) (pickSeeds (initParVars pv 17 8))).
Qed.

Local Abbreviation loadPair :=
  (λ (acc : option (nodeT * nodeT)) (pb : Z * branchT),
     '(nodeA, nodeB) ← acc;
     if decide (pb.1 = 0%Z) then
       nodeA' ← addBranchNull pb.2 nodeA; Some (nodeA', nodeB)
     else if decide (pb.1 = 1%Z) then
       nodeB' ← addBranchNull pb.2 nodeB; Some (nodeA, nodeB')
     else Some (nodeA, nodeB)).

Lemma addBranchNull_room (br : branchT) (lvl : Z) (bs : list branchT) :
  (length bs < 16)%nat →
  addBranchNull br (mkNode lvl bs) = Some (mkNode lvl (bs ++ [br])).
Proof.
  intros H. unfold addBranchNull, n_count, MAX_NODES. cbn [n_branch].
  by rewrite bool_decide_eq_true_2.
Qed.

Lemma loadPair_0 (la lb : Z) (A B : list branchT) (b : branchT) :
  (length A < 16)%nat →
  loadPair (Some (mkNode la A, mkNode lb B)) (0%Z, b)
  = Some (mkNode la (A ++ [b]), mkNode lb B).
Proof.
  intros H. cbn [mbind option_bind fst snd].
  rewrite decide_True by done. by rewrite addBranchNull_room.
Qed.

Lemma loadPair_1 (la lb : Z) (A B : list branchT) (b : branchT) :
  (length B < 16)%nat →
  loadPair (Some (mkNode la A, mkNode lb B)) (1%Z, b)
  = Some (mkNode la A, mkNode lb (B ++ [b])).
Proof.
  intros H. cbn [mbind option_bind fst snd].
  rewrite decide_False by done. rewrite decide_True by done.
  by rewrite addBranchNull_room.
Qed.

Lemma tally_cons (g p : Z) (l : list Z) :
  tally g (p :: l) = if decide (p = g) then S (tally g l) else tally g l.
Proof. unfold tally. rewrite filter_cons. by destruct (decide (p = g)). Qed.

Lemma load_fold (la lb : Z) (l : list (Z * branchT)) :
  ∀ A B : list branchT,
    Forall (λ pb, pb.1 = 0%Z ∨ pb.1 = 1%Z) l →
    (length A + tally 0 l.*1 ≤ 16)%nat → (length B + tally 1 l.*1 ≤ 16)%nat →
    ∃ A' B',
      foldl loadPair (Some (mkNode la A, mkNode lb B)) l
      = Some (mkNode la (A ++ A'), mkNode lb (B ++ B')) ∧
      A' ++ B' ≡ₚ l.*2 ∧
      length A' = tally 0 l.*1 ∧ length B' = tally 1 l.*1.
Proof.
  induction l as [|[p b] l IH]; intros A B Hl HA HB.
  - exists [], []. by rewrite !app_nil_r.
  - apply Forall_cons in Hl as [Hp Hl]. cbn [fst] in Hp.
    rewrite !fmap_cons in *. cbn [fst snd] in *.
    rewrite !tally_cons in *. cbn [foldl].
    destruct Hp as [-> | ->].
    + rewrite decide_True in HA by done. rewrite decide_False in HB by done.
      rewrite loadPair_0 by lia.
      destruct (IH (A ++ [b]) B Hl) as (A' & B' & Hf & Hperm & HlA & HlB).
      { rewrite length_app. cbn [length]. lia. }
      { done. }
      exists (b :: A'), B'. rewrite Hf, <- app_assoc.
      split; [done|]. split; [cbn [app]; by rewrite Hperm|].
      rewrite decide_True by done. rewrite decide_False by done.
      cbn [length]. by rewrite HlA, HlB.
    + rewrite decide_False in HA by done. rewrite decide_True in HB by done.
      rewrite loadPair_1 by lia.
      destruct (IH A (B ++ [b]) Hl) as (A' & B' & Hf & Hperm & HlA & HlB).
      { done. }
      { rewrite length_app. cbn [length]. lia. }
      exists A', (b :: B'). rewrite Hf, <- app_assoc.
      split; [done|]. split; [by rewrite <- Permutation_middle, Hperm|].
      rewrite decide_False by done. rewrite decide_True by done.
      cbn [length]. by rewrite HlA, HlB.
Qed.

Lemma loadNodes_ok (buf : list branchT) (pv : partitionVarsT) (la lb : Z) :
  parOk buf pv → Forall (λ t, t = true) (pv_taken pv) →
  ((pv_count pv).1 ≤ 16)%nat → ((pv_count pv).2 ≤ 16)%nat →
  ∃ A B,
    loadNodes (mkNode la []) (mkNode lb []) pv = Some (mkNode la A, mkNode lb B) ∧
    A ++ B ≡ₚ buf ∧ length A = (pv_count pv).1 ∧ length B = (pv_count pv).2.
Proof.
  intros (Hbuf & Hlen & Htot & _ & Hrel & Hlt & Hc0 & Hc1) Hall H0 H1.
  pose proof (Forall2_length _ _ _ Hrel) as HlenP.
  assert (length (zip (pv_partition pv) buf) = 17%nat) as Hz
    by (rewrite length_zip; lia).
  assert ((zip (pv_partition pv) buf).*1 = pv_partition pv) as Hfst
    by (apply fst_zip; lia).
  assert ((zip (pv_partition pv) buf).*2 = buf) as Hsnd
    by (apply snd_zip; lia).
  destruct (load_fold la lb (zip (pv_partition pv) buf) [] [])
    as (A & B & Hf & Hperm & HlA & HlB).
  { apply Forall_forall. intros [p b] Hin.
    apply list_elem_of_lookup in Hin as [i Hi].
    apply lookup_zip_with_Some in Hi as (p' & b' & Heq & Hp & Hb). simplify_eq.
    destruct (Forall2_lookup_r _ _ _ _ _ Hrel Hp) as (t & Ht & Htp).
    rewrite Forall_lookup in Hall. specialize (Hall _ _ Ht). by subst t. }
  { rewrite Hfst, <- Hc0. cbn [length]. lia. }
  { rewrite Hfst, <- Hc1. cbn [length]. lia. }
  exists A, B. rewrite Hfst in HlA, HlB. rewrite Hsnd in Hperm.
  split; [|split; [done|by rewrite Hc0, Hc1]].
  cbn [app] in Hf. rewrite <- Hf. unfold loadNodes. rewrite Htot, <- Hz.
  apply foldl_seq_lookup. intros i [p b] acc Hi.
  apply lookup_zip_with_Some in Hi as (p' & b' & Heq & Hp & Hb).
  simplify_eq. cbn [Nat.add fst snd].
  by rewrite (list_lookup_total_correct _ _ _ Hp),
    (list_lookup_total_correct _ _ _ Hb).
Qed.

Lemma foldl_combineRect_dom (Dom : list rectT) (l : list branchT) :
  (∀ A B, A ∈ Dom → B ∈ Dom → combineRect NUM_DIMS A B ∈ Dom) →
  Forall (λ b : branchT, b_rect b ∈ Dom) l →
  ∀ acc, acc ∈ Dom →
         foldl (λ c (b : branchT), combineRect NUM_DIMS c b.(b_rect)) acc l ∈ Dom.
Proof.
  intros Hun. induction 1 as [|b l Hb _ IH]; intros acc Hacc; [done|].
  cbn [foldl]. apply IH. by apply Hun.
Qed.

Lemma splitNode_spec (Dom : list rectT) (node : nodeT) (br : branchT) :
  safeDomain Dom →
  n_count node = MAX_NODES →
  Forall (λ b : branchT, b_rect b ∈ Dom) (n_branch node) →
  b_rect br ∈ Dom →
  ∃ A B,
    splitNode node br = Some (mkNode (n_level node) A, mkNode (n_level node) B) ∧
    A ++ B ≡ₚ n_branch node ++ [br] ∧
    (8 ≤ length A)%nat ∧ (8 ≤ length B)%nat.
Proof.
  intros Hsafe Hcnt Hdom Hbr. unfold n_count, MAX_NODES in Hcnt.
  unfold splitNode, getBranches.
  rewrite take_ge by (unfold MAX_NODES; lia).
  set (buf := n_branch node ++ [br]).
  assert (length buf = 17%nat) as Hlen
    by (unfold buf; rewrite length_app, length_cons, length_nil; lia).
  assert (Forall (λ b : branchT, b_rect b ∈ Dom) buf) as Hbuf
    by (apply Forall_app; split; [done|by constructor]).
  set (CS := foldl (λ c (b : branchT), combineRect NUM_DIMS c (b_rect b))
                   (b_rect (buf !!! 0%nat)) (drop 1 buf)).
  assert (CS ∈ Dom ∧ rect_le (b_rect (buf !!! 0%nat)) CS
          ∧ rect_le (b_rect (buf !!! 1%nat)) CS) as (HCSd & HCS0 & HCS1).
  { unfold CS. destruct buf as [|b0 [|b1 rest]]; [done..|].
    apply Forall_cons in Hbuf as [Hb0 Hrest].
    cbn [drop lookup_total list_lookup_total foldl].
    split; [|split].
    - destruct Hsafe as (_ & Hun & _).
      apply (foldl_combineRect_dom Dom (b1 :: rest) Hun Hrest). done.
    - apply (foldl_combineRect_ge (b_rect b0) (b1 :: rest)).
    - eapply rect_le_trans; [|apply foldl_combineRect_ge]. apply combineRect_le_r. }
  match goal with
  | |- context [choosePartition ?pv MIN_NODES] =>
      destruct (choosePartition_ok Dom buf pv CS Hsafe) as (Hok & Hall & H0 & H1);
        [done..|]; set (pvF := choosePartition pv MIN_NODES) in *
  end.
  change (choosePartition _ 8) with pvF in Hok, Hall, H0, H1.
  pose proof Hok as (_ & _ & _ & _ & Hrel & Hlt & Hc0 & Hc1).
  destruct (taken_tally _ _ Hrel) as (_ & _ & Hsum). apply Hsum in Hall as Hs.
  rewrite <- Hc0, <- Hc1, Hlt in Hs.
  destruct (loadNodes_ok buf pvF (n_level node) (n_level node) Hok Hall)
    as (A & B & Hload & Hperm & HlA & HlB); [lia..|].
  exists A, B. cbn [n_level n_branch zeroNode]. split; [done|]. split; [done|]. lia.
Qed.

(** ** Covering rectangles *)

Lemma ounion_comm (a b : option rectT) : ounion a b = ounion b a.
Proof. destruct a, b; simpl; try done. f_equal. apply combineRect_comm. Qed.

Lemma ounion_assoc (a b c : option rectT) :
  ounion (ounion a b) c = ounion a (ounion b c).
Proof. destruct a, b, c; simpl; try done. f_equal. apply combineRect_assoc. Qed.

Lemma ounion_None_r (a : option rectT) : ounion a None = a.
Proof. by destruct a. Qed.

Lemma ocover_cons (r : rectT) (l : list rectT) :
  ocover (r :: l) = ounion (Some r) (ocover l).
Proof. done. Qed.

Lemma ocover_app (l1 l2 : list rectT) :
  ocover (l1 ++ l2) = ounion (ocover l1) (ocover l2).
Proof.
  induction l1 as [|r l1 IH]; [done|].
  rewrite <- app_comm_cons, !ocover_cons, IH. by rewrite ounion_assoc.
Qed.

Lemma ocover_perm (l1 l2 : list rectT) : l1 ≡ₚ l2 → ocover l1 = ocover l2.
Proof.
  induction 1 as [|x l l' _ IH|x y l|l l' l'' _ IH1 _ IH2].
  - done.
  - by rewrite !ocover_cons, IH.
  - rewrite !ocover_cons, <- !ounion_assoc. by rewrite (ounion_comm (Some y) (Some x)).
  - congruence.
Qed.

Lemma ocover_is_Some (l : list rectT) : l ≠ [] → is_Some (ocover l).
Proof.
  destruct l as [|r l]; [done|]. intros _. rewrite ocover_cons.
  destruct (ocover l); simpl; eauto.
Qed.

Lemma foldl_combine_ocover (rs : list rectT) :
  ∀ r, Some (foldl (combineRect NUM_DIMS) r rs) = ounion (Some r) (ocover rs).
Proof.
  induction rs as [|x rs IH]; intros r; [done|].
  simpl foldl. rewrite IH, ocover_cons, <- ounion_assoc. done.
Qed.

Lemma nodeCover_cons (lvl : Z) (b : branchT) (bs : list branchT) :
  nodeCover (mkNode lvl (b :: bs)) = foldl (combineRect NUM_DIMS) b.(b_rect) (b_rect <$> bs).
Proof.
  unfold nodeCover. simpl. generalize (b_rect b). clear b.
  induction bs as [|b bs IH]; intros r; [done|]. simpl. apply IH.
Qed.

Lemma nodeCover_cov (node : nodeT) (r : rectT) :
  cov node = Some r → nodeCover node = r.
Proof.
  destruct node as [lvl [|b bs]]; [done|]. unfold cov. cbn [n_branch].
  rewrite fmap_cons, ocover_cons, nodeCover_cons, <- foldl_combine_ocover. congruence.
Qed.

Lemma cov_nodeCover (node : nodeT) :
  (1 ≤ n_count node)%nat → cov node = Some (nodeCover node).
Proof.
  intros H. destruct (ocover_is_Some (b_rect <$> n_branch node)) as [r Hr].
  { destruct node as [lvl [|]]; [unfold n_count in H; cbn in H; lia|done]. }
  unfold cov. rewrite Hr. f_equal. symmetry. by apply nodeCover_cov.
Qed.

Lemma MAX_NODES_eq : MAX_NODES = 16%nat.
Proof. reflexivity. Qed.

Lemma MIN_NODES_eq : MIN_NODES = 8%nat.
Proof. reflexivity. Qed.

Ltac consts := rewrite ?MIN_NODES_eq, ?MAX_NODES_eq in *.

Section Engine.

(** The rectangles the index is used on, and what the engines need of
    them: they are well formed, their unions are among them, and a split
    of seventeen of them shares all of them out with at least
    [MIN_NODES] on each side. *)
Context {good : rectT → Prop}.
Hypothesis good_wf : ∀ r, good r → wf_rect NUM_DIMS r.
Hypothesis good_union :
  ∀ a b, good a → good b → good (combineRect NUM_DIMS a b).
Hypothesis good_split :
  ∀ (node : nodeT) (br : branchT),
    n_count node = 16%nat →
    Forall (λ b : branchT, good (b_rect b)) (n_branch node) → good (b_rect br) →
    ∃ A B,
      splitNode node br = Some (mkNode (n_level node) A, mkNode (n_level node) B) ∧
      A ++ B ≡ₚ n_branch node ++ [br] ∧ (8 ≤ length A)%nat ∧ (8 ≤ length B)%nat.

Lemma ocover_wf (rs : list rectT) (r : rectT) :
  Forall (good) rs → ocover rs = Some r → good r.
Proof.
  revert r. induction rs as [|x rs IH]; intros r Hwf Hr; [done|].
  apply Forall_cons in Hwf as [Hx Hwf]. rewrite ocover_cons in Hr.
  destruct (ocover rs) eqn:E; simpl in Hr; simplify_eq; [|done].
  apply good_union; [done|]. by apply IH.
Qed.

Lemma ocover_le (q : rectT) (rs : list rectT) (r : rectT) :
  Forall (λ x, rect_le x q) rs → ocover rs = Some r → rect_le r q.
Proof.
  revert r. induction rs as [|x rs IH]; intros r Hle Hr; [done|].
  apply Forall_cons in Hle as [Hx Hle]. rewrite ocover_cons in Hr.
  destruct (ocover rs) eqn:E; simpl in Hr; simplify_eq; [|done].
  apply combineRect_lub; [done|]. by apply IH.
Qed.

Lemma ounion_wf (a b : option rectT) (r : rectT) :
  (∀ x, a = Some x → good x) → (∀ x, b = Some x → good x) →
  ounion a b = Some r → good r.
Proof.
  intros Ha Hb. destruct a as [x|], b as [y|]; simpl; intros; simplify_eq; eauto.
Qed.

(** ** The insertion engine *)

Lemma addBranch_spec (br : branchT) (node : nodeT) :
  (n_count node ≤ MAX_NODES)%nat →
  Forall (λ b : branchT, good (b_rect b)) (n_branch node) →
  good (b_rect br) →
  ∃ node' o,
    addBranch br node = Some (node', o) ∧ n_level node' = n_level node ∧
    match o with
    | None => n_branch node' = n_branch node ++ [br] ∧ (n_count node < MAX_NODES)%nat
    | Some nn =>
        n_count node = MAX_NODES ∧ n_level nn = n_level node ∧
        n_branch node' ++ n_branch nn ≡ₚ n_branch node ++ [br] ∧
        (8 ≤ n_count node')%nat ∧ (8 ≤ n_count nn)%nat
    end.
Proof.
  intros Hcnt Hwf Hbr. unfold addBranch. case_bool_decide as Hlt.
  - exists (appendBranch br node), None. done.
  - assert (n_count node = MAX_NODES) as Heq by lia.
    destruct (good_split node br Heq Hwf Hbr) as (A & B & -> & Hperm & HA & HB).
    simpl. eexists _, (Some _). split; [done|]. simpl. done.
Qed.

Lemma pickBranch_lt (rect : rectT) (node : nodeT) :
  (1 ≤ n_count node)%nat → (pickBranch rect node < n_count node)%nat.
Proof.
  unfold pickBranch. generalize (n_count node). intros n Hn.
  match goal with |- context [foldl ?f ?a _] => set (stp := f); set (st0 := a) end.
  assert (∀ k, (pk_firstTime (foldl stp st0 (seq 0 k)) = true ∧ k = 0%nat)
               ∨ (pk_firstTime (foldl stp st0 (seq 0 k)) = false
                  ∧ (pk_best (foldl stp st0 (seq 0 k)) < k)%nat)) as Hinv.
  { induction k as [|k IH]; [by left|]. right.
    rewrite seq_S, foldl_app. cbn [foldl Nat.add].
    set (st := foldl stp st0 (seq 0 k)) in *. unfold stp.
    destruct IH as [[Hf ->]|[Hf Hb]]; rewrite ?Hf.
    - rewrite orb_true_r. cbn [pk_firstTime pk_best]. split; [done|lia].
    - rewrite orb_false_r.
      repeat case_match; cbn [pk_firstTime pk_best]; (split; [done|lia]). }
  destruct (Hinv n) as [[_ ->]|[_ H]]; [lia|done].
Qed.

Lemma withBranch_lookup {R} (f : branchT → R) (d : R) (bs : list branchT)
    (i : nat) (b : branchT) :
  bs !! i = Some b → withBranch f d bs i = f b.
Proof.
  revert i. induction bs as [|x bs IH]; intros [|i] Hi; simplify_eq/=; [done|].
  by apply IH.
Qed.

Lemma insert_middle {A} (l : list A) (i : nat) (x y : A) :
  l !! i = Some x →
  l = take i l ++ x :: drop (S i) l ∧ <[i := y]> l = take i l ++ y :: drop (S i) l.
Proof.
  intros Hi. split; [by rewrite take_drop_middle|].
  apply insert_take_drop. by eapply lookup_lt_Some.
Qed.

Lemma insert_Permutation {A} (l : list A) (i : nat) (x y : A) :
  l !! i = Some x → <[i := y]> l ≡ₚ y :: delete i l.
Proof.
  intros Hi. destruct (insert_middle l i x y Hi) as [_ ->].
  rewrite delete_take_drop. by rewrite <- Permutation_middle.
Qed.

Lemma brOk_wf (h : nat) (b : branchT) : brOkG good h b → good b.(b_rect).
Proof. destruct h; by intros [? _]. Qed.

Lemma brOk_leaf (h : nat) (rect : rectT) (item : Z) :
  good rect → brOkG good h (mkBranch rect None item).
Proof. intros H. destruct h; by split. Qed.

Lemma brOk_child (h : nat) (c : nodeT) (item : Z) :
  okAtG good h c → (MIN_NODES ≤ n_count c ≤ MAX_NODES)%nat →
  brOkG good (S h) (mkBranch (nodeCover c) (Some c) item).
Proof.
  intros [Hl Hbs] Hc. split; [|done]. cbn [b_rect].
  destruct (ocover_is_Some (b_rect <$> n_branch c)) as [r Hr].
  { unfold n_count, MIN_NODES, MAX_NODES in Hc. cbn in Hc.
    destruct (n_branch c); [cbn in Hc; lia|done]. }
  rewrite (nodeCover_cov c r Hr). eapply ocover_wf; [|exact Hr].
  apply Forall_fmap. eapply Forall_impl; [exact Hbs|]. intros b. apply brOk_wf.
Qed.

Lemma entries_app (lvl : Z) (A B : list branchT) :
  entries (mkNode lvl (A ++ B)) = entries (mkNode lvl A) ++ entries (mkNode lvl B).
Proof.
  cbn [entries]. destruct (lvl >? 0)%Z; [apply flat_map_app|apply map_app].
Qed.

Lemma entries_perm (lvl : Z) (A B : list branchT) :
  A ≡ₚ B → entries (mkNode lvl A) ≡ₚ entries (mkNode lvl B).
Proof.
  intros H. cbn [entries]. destruct (lvl >? 0)%Z.
  - by apply Permutation_flat_map.
  - by apply Permutation_map.
Qed.

Lemma count_perm (A B : list branchT) : A ≡ₚ B → length A = length B.
Proof. apply Permutation_length. Qed.

Lemma split_post (h : nat) (L A B : list branchT) :
  A ++ B ≡ₚ L → Forall (brOkG good h) L →
  Forall (brOkG good h) A ∧ Forall (brOkG good h) B ∧
  ounion (ocover (b_rect <$> A)) (ocover (b_rect <$> B)) = ocover (b_rect <$> L).
Proof.
  intros Hperm HL. rewrite <- Hperm in HL. apply Forall_app in HL as [HA HB].
  split; [done|]. split; [done|].
  rewrite <- ocover_app, <- fmap_app. apply ocover_perm. by rewrite Hperm.
Qed.

Lemma node_eta (node : nodeT) : node = mkNode (n_level node) (n_branch node).
Proof. by destruct node. Qed.

Lemma insPost_intro (h : nat) (rect : rectT) (item : Z) (lv : nat)
    (node node' : nodeT) (o : option nodeT) (L : list branchT) :
  n_level node' = Z.of_nat h → Forall (brOkG good h) (n_branch node') →
  match o with
  | None => (n_count node ≤ n_count node' ≤ 16)%nat
  | Some nn =>
      n_level nn = Z.of_nat h ∧ Forall (brOkG good h) (n_branch nn) ∧
      (8 ≤ n_count node' ≤ 16)%nat ∧ (8 ≤ n_count nn ≤ 16)%nat
  end →
  n_branch node' ++ from_option n_branch [] o ≡ₚ L →
  ocover (b_rect <$> L) = ounion (Some rect) (cov node) →
  (fullAt h node → lv = 0%nat →
   Forall (brFull h) L ∧
   entries (mkNode (Z.of_nat h) L) ≡ₚ (rect, item) :: entries node) →
  insPost good h rect item lv node node' o.
Proof.
  intros Hlvl Hok Ho Hperm Hcov Hent. unfold insPost. consts.
  split; [done|]. split.
  - destruct o as [nn|]; cbn [from_option] in Hperm.
    + destruct Ho as (Hl & Hb & Hc1 & Hc2). split; [done|]. split; [done|].
      split; [done|]. rewrite <- Hcov. unfold cov.
      rewrite <- ocover_app, <- fmap_app.
      apply ocover_perm. by rewrite Hperm.
    + split; [done|]. unfold cov at 1. rewrite <- Hcov. apply ocover_perm.
      rewrite app_nil_r in Hperm. by rewrite Hperm.
  - intros Hfull Hlv. destruct (Hent Hfull Hlv) as [HF HE].
    rewrite <- Hperm in HF. apply Forall_app in HF as [HF1 HF2].
    split; [done|]. split.
    + intros nn ->. done.
    + rewrite <- HE. rewrite (node_eta node'), Hlvl.
      destruct o as [nn|]; cbn [from_option] in *.
      * destruct Ho as (Hl & _). rewrite (node_eta nn), Hl.
        rewrite <- entries_app. cbn [n_branch]. by apply entries_perm.
      * rewrite app_nil_r in *. cbn [n_branch]. by apply entries_perm.
Qed.

Lemma addBranch_ok (h : nat) (lvl : Z) (bs : list branchT) (br : branchT) :
  Forall (brOkG good h) bs → brOkG good h br → (length bs ≤ 16)%nat →
  ∃ node' o,
    addBranch br (mkNode lvl bs) = Some (node', o) ∧
    n_level node' = lvl ∧ Forall (brOkG good h) (n_branch node') ∧
    match o with
    | None => n_count node' = S (length bs) ∧ (length bs < 16)%nat
    | Some nn =>
        n_level nn = lvl ∧ Forall (brOkG good h) (n_branch nn) ∧
        (8 ≤ n_count node' ≤ 16)%nat ∧ (8 ≤ n_count nn ≤ 16)%nat
    end ∧
    n_branch node' ++ from_option n_branch [] o ≡ₚ bs ++ [br].
Proof.
  intros Hbs Hbr Hlen.
  destruct (addBranch_spec br (mkNode lvl bs)) as (node' & o & Hadd & Hlvl & Ho).
  { by consts. }
  { eapply Forall_impl; [exact Hbs|]. intros b. apply brOk_wf. }
  { by eapply brOk_wf. }
  exists node', o. split; [done|]. split; [done|].
  assert (Forall (brOkG good h) (bs ++ [br])) as Hall
    by (apply Forall_app; split; [done|by constructor]).
  destruct o as [nn|]; cbn [from_option n_branch n_level] in *.
  - destruct Ho as (Hfull & Hl & Hperm & H1 & H2).
    destruct (split_post h _ _ _ Hperm Hall) as (HA & HB & _).
    apply Permutation_length in Hperm as Hlens.
    rewrite !length_app in Hlens. unfold n_count in *. cbn [n_branch] in *.
    rewrite length_cons, length_nil in Hlens.
    consts. repeat split; try done; lia.
  - destruct Ho as [Hb Hlt]. rewrite Hb, app_nil_r. consts.
    unfold n_count in *. rewrite Hb, length_app. cbn [n_branch] in *.
    rewrite length_cons, length_nil.
    split; [exact Hall|]. split; [|reflexivity]. split; lia.
Qed.

Lemma upd_canon {A} (bs : list A) (i : nat) (b b' : A) (extra : list A) :
  bs !! i = Some b → <[i := b']> bs ++ extra ≡ₚ b' :: extra ++ delete i bs.
Proof.
  intros Hi. rewrite (insert_Permutation bs i b b' Hi).
  cbn [app]. constructor. apply Permutation_app_comm.
Qed.

Lemma entries_cons_internal (lvl : Z) (b : branchT) (D : list branchT) :
  (lvl >? 0)%Z = true →
  entries (mkNode lvl (b :: D))
  = match b.(b_child) with Some c => entries c | None => [] end
    ++ entries (mkNode lvl D).
Proof. intros H. cbn [entries]. by rewrite H. Qed.

Lemma entries_leaf (bs : list branchT) :
  entries (mkNode (Z.of_nat 0) bs) = map (λ b : branchT, (b.(b_rect), b.(b_item))) bs.
Proof. done. Qed.

Lemma gtb_S (h : nat) : (Z.of_nat (S h) >? 0)%Z = true.
Proof. apply Z.gtb_lt. lia. Qed.

Lemma ocover_singleton (r : rectT) : ocover [r] = Some r.
Proof. done. Qed.

Lemma ins_here (h : nat) (bs : list branchT) (rect : rectT) (item : Z) :
  Forall (brOkG good h) bs → (length bs ≤ 16)%nat → good rect →
  ∃ node' o,
    addBranch (mkBranch rect None item) (mkNode (Z.of_nat h) bs) = Some (node', o) ∧
    insPost good h rect item h (mkNode (Z.of_nat h) bs) node' o.
Proof.
  intros Hbs Hlen Hwf.
  destruct (addBranch_ok h (Z.of_nat h) bs (mkBranch rect None item) Hbs)
    as (node' & o & Hadd & Hlvl & Hok & Ho & Hperm); [by apply brOk_leaf|done|].
  exists node', o. split; [done|].
  apply (insPost_intro _ _ _ _ _ _ _ (bs ++ [mkBranch rect None item]));
    [done|done| |done| |].
  - destruct o as [nn|]; [done|]. destruct Ho as [Hc Hlt].
    unfold n_count at 1. cbn [n_branch]. lia.
  - rewrite fmap_app, ocover_app. cbn [fmap list_fmap b_rect].
    rewrite ocover_singleton. apply ounion_comm.
  - intros _ ->. split.
    + apply Forall_true. by intros b.
    + rewrite !entries_leaf, map_app. cbn [map b_rect b_item].
      by rewrite <- Permutation_cons_append.
Qed.

Lemma brOk_S_child (h : nat) (b : branchT) (c : nodeT) :
  brOkG good (S h) b → b.(b_child) = Some c →
  good b.(b_rect) ∧ (8 ≤ n_count c ≤ 16)%nat ∧
  b.(b_rect) = nodeCover c ∧ okAtG good h c.
Proof.
  intros [Hwf H] Hc. rewrite Hc in H. destruct H as (H1 & H2 & H3 & H4).
  consts. done.
Qed.

Lemma brFull_S_child (h : nat) (b : branchT) (c : nodeT) :
  b.(b_child) = Some c → brFull (S h) b ↔ fullAt h c.
Proof. intros Hc. unfold fullAt. cbn [brFull]. by rewrite Hc. Qed.

Lemma brFull_S_None (h : nat) (b : branchT) :
  b.(b_child) = None → ¬ brFull (S h) b.
Proof. intros Hc H. cbn [brFull] in H. by rewrite Hc in H. Qed.

Lemma ins_descend (h : nat) (bs : list branchT) (rect : rectT) (item : Z) (lv : nat) :
  (∀ node rect item lv,
     okAtG good h node → (n_count node ≤ 16)%nat → ((0 < h)%nat → (1 ≤ n_count node)%nat) →
     (lv ≤ h)%nat → good rect →
     ∃ node' o, insertRectRec rect item node (Z.of_nat lv) = Some (node', o) ∧
                insPost good h rect item lv node node' o) →
  Forall (brOkG good (S h)) bs → (1 ≤ length bs ≤ 16)%nat → (lv ≤ h)%nat →
  good rect →
  ∃ node' o,
    insertRectRec rect item (mkNode (Z.of_nat (S h)) bs) (Z.of_nat lv)
    = Some (node', o) ∧
    insPost good (S h) rect item lv (mkNode (Z.of_nat (S h)) bs) node' o.
Proof.
  intros IH Hbs Hlen Hlv Hwf.
  cbn [insertRectRec].
  rewrite (proj2 (Z.gtb_lt (Z.of_nat (S h)) (Z.of_nat lv))) by lia.
  set (index := pickBranch rect (mkNode (Z.of_nat (S h)) bs)).
  assert (index < length bs)%nat as Hidx
    by (apply (pickBranch_lt rect (mkNode (Z.of_nat (S h)) bs)); unfold n_count;
        cbn [n_branch]; lia).
  destruct (lookup_lt_is_Some_2 bs index Hidx) as [b Hb].
  rewrite (withBranch_lookup _ _ _ _ _ Hb).
  pose proof (Forall_lookup_1 _ _ _ _ Hbs Hb) as Hbok.
  pose proof (delete_Permutation bs index b Hb) as HpermB.
  assert (Forall (brOkG good (S h)) (delete index bs)) as HD
    by (rewrite HpermB in Hbs; by apply Forall_cons in Hbs as [_ ?]).
  assert (cov (mkNode (Z.of_nat (S h)) bs)
          = ounion (Some b.(b_rect)) (ocover (b_rect <$> delete index bs))) as Hcovbs.
  { unfold cov. cbn [n_branch]. rewrite <- ocover_cons, <- fmap_cons.
    apply ocover_perm. by rewrite <- HpermB. }
  assert (entries (mkNode (Z.of_nat (S h)) bs)
          ≡ₚ match b.(b_child) with Some c => entries c | None => [] end
             ++ entries (mkNode (Z.of_nat (S h)) (delete index bs))) as Hentbs.
  { rewrite <- entries_cons_internal by apply gtb_S. by apply entries_perm. }
  destruct (b_child b) as [c|] eqn:Hc.
  - destruct (brOk_S_child h b c Hbok Hc) as (Hwfb & Hcc & Hrect & Hokc).
    destruct (IH c rect item lv Hokc) as (c' & oc & Hins & Hpost); [lia|lia|done|done|].
    rewrite Hins. cbn [mbind option_bind].
    destruct Hpost as (Hokc' & Hoc & Hentc).
    assert (cov c = Some b.(b_rect)) as Hcovc
      by (rewrite Hrect; apply cov_nodeCover; lia).
    destruct oc as [nn|].
    + (* the child was split *)
      destruct Hoc as (Hoknn & Hcc' & Hcnn & Hcov2). consts.
      cbn [mbind option_bind].
      set (b1 := mkBranch (nodeCover c') (Some c') b.(b_item)).
      set (br2 := mkBranch (nodeCover nn) (Some nn) 0).
      assert (brOkG good (S h) b1) as Hb1 by (apply brOk_child; by consts).
      assert (brOkG good (S h) br2) as Hb2 by (apply brOk_child; by consts).
      destruct (addBranch_ok (S h) (Z.of_nat (S h)) (<[index := b1]> bs) br2)
        as (node' & o & Hadd & Hlvl & Hok & Ho & Hperm);
        [by apply Forall_insert|done|by rewrite length_insert; lia|].
      exists node', o. split; [done|].
      pose proof (upd_canon bs index b b1 [br2] Hb) as Hcanon. cbn [app] in Hcanon.
      apply (insPost_intro _ _ _ _ _ _ _ (<[index := b1]> bs ++ [br2]));
        [done|done| |done| |].
      * destruct o as [nn'|]; [done|]. destruct Ho as [Hcn Hlt].
        rewrite length_insert in Hcn, Hlt. unfold n_count at 1. cbn [n_branch]. lia.
      * rewrite (ocover_perm _ _ (fmap_Permutation b_rect _ _ Hcanon)).
        rewrite !fmap_cons, !ocover_cons. cbn [b1 br2 b_rect].
        rewrite <- (cov_nodeCover c') by lia. rewrite <- (cov_nodeCover nn) by lia.
        rewrite Hcovbs, <- !ounion_assoc, Hcov2, Hcovc. done.
      * intros Hfull ->.
        unfold fullAt in Hfull. cbn [n_branch] in Hfull.
        pose proof (Forall_lookup_1 _ _ _ _ Hfull Hb) as Hbf.
        apply (brFull_S_child h b c Hc) in Hbf.
        destruct (Hentc Hbf eq_refl) as (Hfc' & Hfnn & Hperme).
        cbn [from_option] in Hperme.
        rewrite HpermB in Hfull. apply Forall_cons in Hfull as [_ HfD].
        split.
        -- rewrite Hcanon. apply Forall_cons_2; [|apply Forall_cons_2; [|done]].
           ++ by apply (brFull_S_child h b1 c').
           ++ apply (brFull_S_child h br2 nn); [done|]. by apply Hfnn.
        -- rewrite (entries_perm _ _ _ Hcanon), Hentbs.
           rewrite !entries_cons_internal by apply gtb_S. cbn [b1 br2 b_child].
           rewrite app_assoc, Hperme. done.
    + (* the child was not split *)
      destruct Hoc as (Hcc' & Hcov1).
      set (b1 := mkBranch (combineRect NUM_DIMS rect b.(b_rect)) (Some c') b.(b_item)).
      exists (mkNode (Z.of_nat (S h)) (<[index := b1]> bs)), None.
      split; [done|].
      assert (cov c' = Some (combineRect NUM_DIMS rect b.(b_rect))) as Hcovc'
        by (by rewrite Hcov1, Hcovc).
      assert (brOkG good (S h) b1) as Hb1.
      { split; [by apply good_union|]. cbn [b1 b_child b_rect].
        destruct Hokc' as [Hl' Hbs']. consts.
        split; [lia|]. split; [|done]. symmetry. by apply nodeCover_cov. }
      pose proof (upd_canon bs index b b1 [] Hb) as Hcanon.
      rewrite app_nil_r in Hcanon. cbn [app] in Hcanon.
      apply (insPost_intro _ _ _ _ _ _ _ (<[index := b1]> bs)); cbn [n_level n_branch].
      * done.
      * by apply Forall_insert.
      * unfold n_count. cbn [n_branch]. rewrite length_insert. lia.
      * by rewrite app_nil_r.
      * rewrite (ocover_perm _ _ (fmap_Permutation b_rect _ _ Hcanon)).
        rewrite fmap_cons, ocover_cons. cbn [b1 b_rect].
        rewrite Hcovbs, <- ounion_assoc. done.
      * intros Hfull ->.
        unfold fullAt in Hfull. cbn [n_branch] in Hfull.
        pose proof (Forall_lookup_1 _ _ _ _ Hfull Hb) as Hbf.
        apply (brFull_S_child h b c Hc) in Hbf.
        destruct (Hentc Hbf eq_refl) as (Hfc' & _ & Hperme).
        cbn [from_option] in Hperme. rewrite app_nil_r in Hperme.
        rewrite HpermB in Hfull. apply Forall_cons in Hfull as [_ HfD].
        split.
        -- rewrite Hcanon. apply Forall_cons_2; [|done].
           by apply (brFull_S_child h b1 c').
        -- rewrite (entries_perm _ _ _ Hcanon), Hentbs.
           rewrite !entries_cons_internal by apply gtb_S. cbn [b1 b_child].
           by rewrite Hperme.
  - (* NULL child: the call below returns 0 *)
    cbn [mbind option_bind].
    set (b1 := mkBranch (combineRect NUM_DIMS rect b.(b_rect)) None b.(b_item)).
    exists (mkNode (Z.of_nat (S h)) (<[index := b1]> bs)), None.
    split; [done|].
    pose proof (upd_canon bs index b b1 [] Hb) as Hcanon.
    rewrite app_nil_r in Hcanon. cbn [app] in Hcanon.
    apply (insPost_intro _ _ _ _ _ _ _ (<[index := b1]> bs)); cbn [n_level n_branch].
    + done.
    + apply Forall_insert; [done|]. split; [|done].
      apply good_union; [done|]. by eapply brOk_wf.
    + unfold n_count. cbn [n_branch]. rewrite length_insert. lia.
    + by rewrite app_nil_r.
    + rewrite (ocover_perm _ _ (fmap_Permutation b_rect _ _ Hcanon)).
      rewrite fmap_cons, ocover_cons. cbn [b1 b_rect].
      rewrite Hcovbs, <- ounion_assoc. done.
    + intros Hfull _. unfold fullAt in Hfull. cbn [n_branch] in Hfull.
      pose proof (Forall_lookup_1 _ _ _ _ Hfull Hb) as Hbf.
      by apply brFull_S_None in Hbf.
Qed.

Lemma insertRectRec_here (h : nat) (bs : list branchT) (rect : rectT) (item : Z) :
  insertRectRec rect item (mkNode (Z.of_nat h) bs) (Z.of_nat h)
  = addBranch (mkBranch rect None item) (mkNode (Z.of_nat h) bs).
Proof.
  cbn [insertRectRec]. by rewrite Z.gtb_ltb, Z.ltb_irrefl, Z.eqb_refl.
Qed.

Lemma insertRectRec_ok (h : nat) :
  ∀ (node : nodeT) (rect : rectT) (item : Z) (lv : nat),
    okAtG good h node → (n_count node ≤ 16)%nat → ((0 < h)%nat → (1 ≤ n_count node)%nat) →
    (lv ≤ h)%nat → good rect →
    ∃ node' o, insertRectRec rect item node (Z.of_nat lv) = Some (node', o) ∧
               insPost good h rect item lv node node' o.
Proof.
  induction h as [|h IH]; intros [lvl bs] rect item lv [Hlvl Hbs] Hcnt Hne Hlv Hwf;
    cbn [n_level n_branch] in *; subst lvl; unfold n_count in *; cbn [n_branch] in *.
  - assert (lv = 0%nat) as -> by lia.
    rewrite insertRectRec_here. by apply ins_here.
  - destruct (decide (lv = S h)) as [->|Hne'].
    + rewrite insertRectRec_here. by apply ins_here.
    + apply ins_descend; [exact IH|done|lia|lia|done].
Qed.

Lemma insertRect_ok (h k : nat) (r : nodeT) (rect : rectT) (item : Z) (lv : nat) :
  okAtG good h r → (n_count r ≤ 16)%nat → (1 ≤ k ≤ 2)%nat →
  ((0 < h)%nat → (k ≤ n_count r)%nat) →
  (lv ≤ h)%nat → good rect →
  ∃ r' flag h',
    insertRect rect item (Some r) (Z.of_nat lv) = Some (Some r', flag) ∧
    (h ≤ h')%nat ∧ okAtG good h' r' ∧ (n_count r' ≤ 16)%nat ∧
    ((0 < h')%nat → (k ≤ n_count r')%nat) ∧
    (fullAt h r → lv = 0%nat →
     fullAt h' r' ∧ entries r' ≡ₚ (rect, item) :: entries r).
Proof.
  intros Hok Hcnt Hk Hne Hlv Hwf.
  destruct (insertRectRec_ok h r rect item lv Hok Hcnt) as (r' & o & Hins & Hpost);
    [intros; specialize (Hne ltac:(done)); lia|done|done|].
  unfold insertRect. rewrite Hins. cbn [mbind option_bind].
  destruct Hpost as (Hok' & Ho & Hent).
  destruct o as [nn|].
  - destruct Ho as (Hoknn & Hc' & Hcnn & Hcov). consts.
    destruct Hok' as [Hl' Hb']. rewrite Hl'.
    rewrite addBranchNull_room by (cbn [length]; lia). cbn [mbind option_bind app].
    rewrite addBranchNull_room by (cbn [length]; lia). cbn [mbind option_bind app].
    eexists _, 1%Z, (S h). split; [done|]. split; [lia|].
    assert (brOkG good (S h) (mkBranch (nodeCover r') (Some r') 0)) as Hb1
      by (apply brOk_child; [done|by consts]).
    assert (brOkG good (S h) (mkBranch (nodeCover nn) (Some nn) 0)) as Hb2
      by (apply brOk_child; [done|by consts]).
    split; [|split; [|split]].
    + split; [cbn [n_level]; lia|]. cbn [n_branch].
      apply Forall_cons_2; [done|apply Forall_cons_2; [done|constructor]].
    + unfold n_count. cbn [n_branch length]. lia.
    + intros _. unfold n_count. cbn [n_branch length]. lia.
    + intros Hfull Hlv0. destruct (Hent Hfull Hlv0) as (Hf' & Hfnn & Hperm).
      cbn [from_option] in Hperm. split.
      * unfold fullAt. cbn [n_branch].
        apply Forall_cons_2; [|apply Forall_cons_2; [|constructor]].
        -- by apply (brFull_S_child h _ r').
        -- apply (brFull_S_child h _ nn); [done|]. by apply Hfnn.
      * replace (Z.of_nat h + 1)%Z with (Z.of_nat (S h)) by lia.
        rewrite !entries_cons_internal by apply gtb_S. cbn [b_child].
        cbn [entries]. rewrite gtb_S. cbn [flat_map]. by rewrite app_nil_r.
  - destruct Ho as (Hc' & Hcov). consts.
    exists r', 0%Z, h. split; [done|]. split; [lia|]. split; [done|].
    split; [lia|]. split.
    + intros Hh. specialize (Hne Hh). lia.
    + intros Hfull Hlv0. destruct (Hent Hfull Hlv0) as (Hf' & _ & Hperm).
      cbn [from_option] in Hperm. rewrite app_nil_r in Hperm. done.
Qed.

(** ** The deletion engine *)

Lemma nodeT_ind2 (P : nodeT → Prop) :
  (∀ lvl bs, Forall (λ b : branchT, ∀ c, b.(b_child) = Some c → P c) bs →
             P (mkNode lvl bs)) →
  ∀ n, P n.
Proof.
  intros H. fix IH 1. intros [lvl bs]. apply H.
  induction bs as [|b bs IHbs]; constructor; [|exact IHbs].
  intros c Hc. destruct b as [r [c'|] it]; cbn in Hc; [|discriminate].
  injection Hc as <-. apply IH.
Qed.

Lemma branch_eta (b : branchT) : mkBranch b.(b_rect) b.(b_child) b.(b_item) = b.
Proof. by destruct b. Qed.

Lemma disconnectBranch_perm (node : nodeT) (i : nat) (b : branchT) :
  n_branch node !! i = Some b →
  n_level (disconnectBranch node i) = n_level node ∧
  n_branch node ≡ₚ b :: n_branch (disconnectBranch node i) ∧
  n_count node = S (n_count (disconnectBranch node i)).
Proof.
  destruct node as [lvl bs]. cbn [n_branch n_level]. intros Hi.
  unfold disconnectBranch, n_count. cbn [n_branch n_level].
  destruct bs as [|x l] using rev_ind; [done|]. clear IHl.
  rewrite length_app, length_cons, length_nil.
  replace (length l + 1 - 1)%nat with (length l) by lia.
  rewrite lookup_app_r, Nat.sub_diag by lia. cbn [lookup list_lookup].
  cbn [n_level n_branch]. split; [done|].
  apply lookup_lt_Some in Hi as Hlt. rewrite length_app, length_cons, length_nil in Hlt.
  destruct (decide (i = length l)) as [->|Hne].
  - rewrite lookup_app_r, Nat.sub_diag in Hi by lia. cbn in Hi. simplify_eq.
    rewrite insert_app_r_alt, Nat.sub_diag by lia. cbn [insert list_insert].
    rewrite take_app_length. split; [by rewrite Permutation_app_comm|]. lia.
  - rewrite lookup_app_l in Hi by lia.
    rewrite insert_app_l by lia.
    rewrite take_app_length' by (rewrite length_insert; lia).
    split; [|rewrite length_insert; lia].
    rewrite (insert_Permutation l i b x Hi).
    rewrite (delete_Permutation l i b Hi) at 1.
    solve_Permutation.
Qed.

Lemma detOk_mono (h h' : nat) (d : nodeT) : (h ≤ h')%nat → detOk good h d → detOk good h' d.
Proof. intros Hh (hd & Hlt & Hok). exists hd. split; [lia|done]. Qed.

Lemma reachable_internal (rect : rectT) (item : Z) (lvl : Z) (bs : list branchT) :
  (lvl >? 0)%Z = true →
  reachable rect item (mkNode lvl bs) ↔ Exists (hit rect item) bs.
Proof.
  intros Hlvl. rewrite Exists_exists. split.
  - inversion 1 as [? ? b Hl Hin Hit|? ? b c Hl Hin Hov Hc Hr]; subst; [congruence|].
    exists b. split; [done|]. split; [done|]. by exists c.
  - intros (b & Hin & Hov & c & Hc & Hr). by eapply reach_internal.
Qed.

Lemma reachable_leaf (rect : rectT) (item : Z) (lvl : Z) (bs : list branchT) :
  (lvl >? 0)%Z = false →
  reachable rect item (mkNode lvl bs) ↔ Exists (λ b : branchT, b.(b_item) = item) bs.
Proof.
  intros Hlvl. rewrite Exists_exists. split.
  - inversion 1 as [? ? b Hl Hin Hit|? ? b c Hl Hin Hov Hc Hr]; subst; [|congruence].
    by exists b.
  - intros (b & Hin & Hit). by eapply reach_leaf.
Qed.

Lemma entries_internal_app (lvl : Z) (A : list branchT) (b : branchT) (B : list branchT) :
  (lvl >? 0)%Z = true →
  entries (mkNode lvl (A ++ b :: B))
  = entries (mkNode lvl A)
    ++ match b.(b_child) with Some c => entries c | None => [] end
    ++ entries (mkNode lvl B).
Proof. intros H. by rewrite entries_app, entries_cons_internal. Qed.

Lemma okAt_internal (h : nat) (lvl : Z) (bs : list branchT) :
  (lvl >? 0)%Z = true → okAtG good h (mkNode lvl bs) →
  ∃ h', h = S h' ∧ lvl = Z.of_nat (S h') ∧ Forall (brOkG good (S h')) bs.
Proof.
  intros Hlvl [Hl Hbs]. cbn [n_level n_branch] in *. destruct h as [|h'].
  - subst lvl. done.
  - by exists h'.
Qed.

Lemma removeScan_spec (recurse : nodeT → list nodeT → Z * nodeT * list nodeT)
    (rect : rectT) (item : Z) (lvl : Z) (todo : list branchT) :
  (lvl >? 0)%Z = true →
  Forall (λ b : branchT, ∀ c, b.(b_child) = Some c →
                              ∀ l, remSpec good rect item c l (recurse c l)) todo →
  ∀ done listNode,
    let '(res, node', list') := removeScan recurse rect lvl done todo listNode in
    (res = 1%Z ∧ node' = mkNode lvl (done ++ todo) ∧ list' = listNode ∧
     ¬ Exists (hit rect item) todo) ∨
    (res = 0%Z ∧ Exists (hit rect item) todo ∧ n_level node' = lvl ∧
     (n_count node' ≤ length (done ++ todo) ≤ S (n_count node'))%nat ∧
     ∃ det e,
       list' = det ++ listNode ∧ e.2 = item ∧
       entries (mkNode lvl (done ++ todo))
       ≡ₚ e :: entries node' ++ flat_map entries det ∧
       ∀ h, (okAtG good h (mkNode lvl (done ++ todo)) → okAtG good h node' ∧ Forall (detOk good h) det) ∧
            (fullAt h (mkNode lvl (done ++ todo)) → fullAt h node')).
Proof.
  intros Hlvl Hrec. induction Hrec as [|b todo Hb _ IH]; intros done listNode.
  - cbn [removeScan]. left. rewrite app_nil_r. split; [done|]. split; [done|].
    split; [done|]. by inversion 1.
  - cbn [removeScan].
    assert (∀ listNode,
              ¬ hit rect item b →
              let '(res, node', list') :=
                removeScan recurse rect lvl (done ++ [b]) todo listNode in
              (res = 1%Z ∧ node' = mkNode lvl (done ++ b :: todo) ∧ list' = listNode ∧
               ¬ Exists (hit rect item) (b :: todo)) ∨
              (res = 0%Z ∧ Exists (hit rect item) (b :: todo) ∧ n_level node' = lvl ∧
               (n_count node' ≤ length (done ++ b :: todo) ≤ S (n_count node'))%nat ∧
               ∃ det e,
                 list' = det ++ listNode ∧ e.2 = item ∧
                 entries (mkNode lvl (done ++ b :: todo))
                 ≡ₚ e :: entries node' ++ flat_map entries det ∧
                 ∀ h, (okAtG good h (mkNode lvl (done ++ b :: todo))
                       → okAtG good h node' ∧ Forall (detOk good h) det) ∧
                      (fullAt h (mkNode lvl (done ++ b :: todo)) → fullAt h node')))
      as Hskip.
    { intros l Hnohit. specialize (IH (done ++ [b]) l).
      rewrite <- app_assoc in IH. cbn [app] in IH.
      destruct (removeScan recurse rect lvl (done ++ [b]) todo l) as [[res node'] list'].
      rewrite Exists_cons. destruct IH as [(-> & -> & -> & Hno)|(-> & Hex & IH)].
      - left. split; [done|]. split; [done|]. split; [done|]. by intros [?|?].
      - right. split; [done|]. split; [by right|]. done. }
    destruct (overlap NUM_DIMS rect (b_rect b)) eqn:Hov;
      [|apply Hskip; unfold hit; intros [? _]; congruence].
    destruct (b_child b) as [c|] eqn:Hc;
      [|apply Hskip; unfold hit; intros (_ & c & ? & _); congruence].
    specialize (Hb c eq_refl listNode).
    destruct (recurse c listNode) as [[res c'] l'].
    destruct Hb as [(-> & -> & -> & Hnr)|(-> & Hr & Hlc & Hcc & detc & e & -> & He & Hent & Hinv)].
    + (* nothing removed below this branch *)
      rewrite decide_False by done. rewrite <- Hc, branch_eta.
      apply Hskip. unfold hit. intros (_ & c0 & Hc0 & Hr0). congruence.
    + (* an entry was removed below this branch *)
      rewrite decide_True by done.
      assert (Exists (hit rect item) (b :: todo)) as Hex
        by (apply Exists_cons_hd; split; [done|by exists c]).
      case_bool_decide as Hmin; consts; right.
      * (* the child keeps enough branches *)
        split; [done|]. split; [done|]. split; [done|].
        split; [unfold n_count; cbn [n_branch]; rewrite !length_app, !length_cons; lia|].
        exists detc, e. split; [done|]. split; [done|]. split.
        -- rewrite !entries_internal_app by done. cbn [b_child]. rewrite Hc, Hent.
           solve_Permutation.
        -- intros h. split.
           ++ intros Hok. destruct (okAt_internal h lvl _ Hlvl Hok) as (h' & -> & -> & Hbs).
              apply Forall_app in Hbs as [Hd Htd]. apply Forall_cons in Htd as [Hbok Htd].
              destruct (brOk_S_child h' b c Hbok Hc) as (_ & Hcnt & _ & Hokc).
              destruct (Hinv h') as [Hinv1 _]. destruct (Hinv1 Hokc) as [Hokc' Hdet].
              split.
              ** split; [done|]. cbn [n_branch]. apply Forall_app. split; [done|].
                 apply Forall_cons_2; [|done]. apply brOk_child; [done|]. consts. lia.
              ** eapply Forall_impl; [exact Hdet|]. intros d. apply detOk_mono. lia.
           ++ unfold fullAt. cbn [n_branch]. intros Hf.
              apply Forall_app in Hf as [Hd Htd]. apply Forall_cons in Htd as [Hbf Htd].
              apply Forall_app. split; [done|]. apply Forall_cons_2; [|done].
              destruct h as [|h']; [done|].
              apply (brFull_S_child h' _ c'); [done|].
              apply (brFull_S_child h' b c Hc) in Hbf. by apply (Hinv h').
      * (* the child underflowed: it is queued and its branch disconnected *)
        set (b' := mkBranch (b_rect b) (Some c') (b_item b)).
        destruct (disconnectBranch_perm (mkNode lvl (done ++ b' :: todo)) (length done) b')
          as (Hdl & Hdp & Hdc); [cbn [n_branch]; by rewrite list_lookup_middle|].
        cbn [n_level n_branch] in Hdl, Hdp.
        unfold n_count in Hdc at 1. cbn [n_branch] in Hdc.
        set (node' := disconnectBranch (mkNode lvl (done ++ b' :: todo)) (length done)) in *.
        assert (done ++ todo ≡ₚ n_branch node') as Hrest.
        { apply (Permutation_cons_inv (a := b')). rewrite <- Hdp. solve_Permutation. }
        split; [done|]. split; [done|]. split; [done|].
        split; [rewrite !length_app, !length_cons in *; lia|].
        exists (c' :: detc), e. split; [done|]. split; [done|]. split.
        -- rewrite entries_internal_app by done. rewrite Hc, Hent.
           rewrite (node_eta node'), Hdl, <- (entries_perm lvl _ _ Hrest), entries_app.
           cbn [flat_map]. solve_Permutation.
        -- intros h. split.
           ++ intros Hok. destruct (okAt_internal h lvl _ Hlvl Hok) as (h' & -> & -> & Hbs).
              apply Forall_app in Hbs as [Hd Htd]. apply Forall_cons in Htd as [Hbok Htd].
              destruct (brOk_S_child h' b c Hbok Hc) as (_ & Hcnt & _ & Hokc).
              destruct (Hinv h') as [Hinv1 _]. destruct (Hinv1 Hokc) as [Hokc' Hdet].
              split.
              ** split; [done|]. rewrite <- Hrest. apply Forall_app. done.
              ** apply Forall_cons_2; [exists h'; split; [lia|done]|].
                 eapply Forall_impl; [exact Hdet|]. intros d. apply detOk_mono. lia.
           ++ unfold fullAt. cbn [n_branch]. intros Hf.
              apply Forall_app in Hf as [Hd Htd]. apply Forall_cons in Htd as [Hbf Htd].
              rewrite <- Hrest. apply Forall_app. done.
Qed.

Lemma removeRectRec_spec (rect : rectT) (item : Z) :
  ∀ node listNode,
    remSpec good rect item node listNode (removeRectRec rect item node listNode).
Proof.
  induction node as [lvl bs IH] using nodeT_ind2. intros listNode.
  cbn [removeRectRec]. destruct (lvl >? 0)%Z eqn:Hlvl.
  - pose proof (removeScan_spec (removeRectRec rect item) rect item lvl bs Hlvl IH
                  [] listNode) as H.
    cbn [app] in H. unfold remSpec.
    destruct (removeScan (removeRectRec rect item) rect lvl [] bs listNode)
      as [[res node'] list'].
    rewrite (reachable_internal rect item lvl bs Hlvl).
    unfold n_count at 2 4. cbn [n_level n_branch]. exact H.
  - unfold remSpec.
    destruct (list_find (λ b : branchT, b_item b = item) bs) as [[i b]|] eqn:Hfind;
      rewrite (reachable_leaf rect item lvl bs Hlvl).
    + apply list_find_Some in Hfind as (Hi & Hit & _). right.
      destruct (disconnectBranch_perm (mkNode lvl bs) i b Hi) as (Hdl & Hdp & Hdc).
      cbn [n_level n_branch] in Hdl, Hdp.
      set (node' := disconnectBranch (mkNode lvl bs) i) in *.
      split; [done|]. split.
      { apply Exists_exists. exists b. split; [|done]. by eapply list_elem_of_lookup_2. }
      split; [done|]. split; [lia|].
      exists [], (b_rect b, b_item b). split; [done|]. split; [done|]. split.
      * rewrite (node_eta node'), Hdl. cbn [entries flat_map]. rewrite Hlvl, app_nil_r.
        by rewrite Hdp.
      * intros h. split.
        -- intros [Hl Hbs]. cbn [n_level n_branch] in *. split; [|done].
           split; [congruence|]. rewrite Hdp in Hbs. by apply Forall_cons in Hbs as [_ ?].
        -- unfold fullAt. cbn [n_branch]. intros Hf. rewrite Hdp in Hf.
           by apply Forall_cons in Hf as [_ ?].
    + apply list_find_None in Hfind. left. split; [done|]. split; [done|].
      split; [done|]. by apply Forall_Exists_neg.
Qed.

Lemma reinsert_fold (hd : nat) (bs : list branchT) :
  Forall (brOkG good hd) bs →
  ∀ (r : nodeT) (h : nat),
    (hd ≤ h)%nat → okAtG good h r → (n_count r ≤ 16)%nat →
    ((0 < h)%nat → (1 ≤ n_count r)%nat) →
    ∃ r' h',
      foldl (λ acc (b : branchT),
               root ← acc;
               '(root', _) ← insertRect b.(b_rect) b.(b_item) root (Z.of_nat hd);
               Some root')
            (Some (Some r)) bs = Some (Some r') ∧
      (h ≤ h')%nat ∧ okAtG good h' r' ∧ (n_count r' ≤ 16)%nat ∧
      ((0 < h')%nat → (1 ≤ n_count r')%nat) ∧
      (hd = 0%nat → fullAt h r →
       fullAt h' r' ∧
       entries r' ≡ₚ map (λ b : branchT, (b.(b_rect), b.(b_item))) bs ++ entries r).
Proof.
  induction 1 as [|b bs Hb _ IH]; intros r h Hh Hok Hcnt Hne.
  - exists r, h. cbn [foldl map app]. done.
  - cbn [foldl mbind option_bind].
    destruct (insertRect_ok h 1 r (b_rect b) (b_item b) hd Hok Hcnt)
      as (r1 & flag & h1 & Hins & Hh1 & Hok1 & Hcnt1 & Hne1 & Hent1);
      [lia|done|done|by eapply brOk_wf|].
    rewrite Hins. cbn [mbind option_bind].
    destruct (IH r1 h1) as (r' & h' & Hfold & Hh' & Hok' & Hcnt' & Hne' & Hent');
      [lia|done|done|done|].
    exists r', h'. split; [done|]. split; [lia|]. split; [done|]. split; [done|].
    split; [done|]. intros Hd Hfull.
    destruct (Hent1 Hfull Hd) as [Hfull1 Hperm1].
    destruct (Hent' Hd Hfull1) as [Hfull' Hperm']. split; [done|].
    rewrite Hperm', Hperm1. cbn [map]. solve_Permutation.
Qed.

Lemma reinsertNode_ok (tempNode r : nodeT) (hd h : nat) :
  okAtG good hd tempNode → (hd ≤ h)%nat → okAtG good h r → (n_count r ≤ 16)%nat →
  ((0 < h)%nat → (1 ≤ n_count r)%nat) →
  ∃ r' h',
    reinsertNode tempNode (Some r) = Some (Some r') ∧
    (h ≤ h')%nat ∧ okAtG good h' r' ∧ (n_count r' ≤ 16)%nat ∧
    ((0 < h')%nat → (1 ≤ n_count r')%nat) ∧
    (hd = 0%nat → fullAt h r →
     fullAt h' r' ∧ entries r' ≡ₚ branchData tempNode ++ entries r).
Proof.
  intros [Hl Hbs] Hh Hok Hcnt Hne. unfold reinsertNode, branchData. rewrite Hl.
  by apply reinsert_fold.
Qed.

Lemma branchData_leaf (d : nodeT) : n_level d = 0%Z → entries d = branchData d.
Proof. destruct d as [lvl bs]. cbn [n_level]. by intros ->. Qed.

Lemma okAt_level_0 (hd : nat) (d : nodeT) : okAtG good hd d → n_level d = 0%Z → hd = 0%nat.
Proof. intros [Hl _] H0. lia. Qed.

Lemma drain_ok (h0 : nat) (det : list nodeT) :
  Forall (detOk good h0) det →
  ∀ (r : nodeT) (h : nat),
    (h0 ≤ h)%nat → okAtG good h r → (n_count r ≤ 16)%nat →
    ((0 < h)%nat → (1 ≤ n_count r)%nat) →
    ∃ r' h',
      foldl (λ acc tempNode, root ← acc; reinsertNode tempNode root)
            (Some (Some r)) det = Some (Some r') ∧
      (h ≤ h')%nat ∧ okAtG good h' r' ∧ (n_count r' ≤ 16)%nat ∧
      ((0 < h')%nat → (1 ≤ n_count r')%nat) ∧
      (Forall (λ d, n_level d = 0%Z) det → fullAt h r →
       fullAt h' r' ∧ entries r' ≡ₚ flat_map entries det ++ entries r).
Proof.
  induction 1 as [|d det (hd & Hhd & Hokd) _ IH]; intros r h Hh Hok Hcnt Hne.
  - exists r, h. cbn [foldl flat_map app]. done.
  - cbn [foldl mbind option_bind].
    destruct (reinsertNode_ok d r hd h Hokd) as
      (r1 & h1 & Hre & Hh1 & Hok1 & Hcnt1 & Hne1 & Hent1); [lia|done|done|done|].
    rewrite Hre.
    destruct (IH r1 h1) as (r' & h' & Hfold & Hh' & Hok' & Hcnt' & Hne' & Hent');
      [lia|done|done|done|].
    exists r', h'. split; [done|]. split; [lia|]. split; [done|]. split; [done|].
    split; [done|]. intros Hlv Hfull. apply Forall_cons in Hlv as [Hd0 Hlv].
    destruct (Hent1 (okAt_level_0 hd d Hokd Hd0) Hfull) as [Hfull1 Hperm1].
    destruct (Hent' Hlv Hfull1) as [Hfull' Hperm']. split; [done|].
    rewrite Hperm', Hperm1. cbn [flat_map]. rewrite (branchData_leaf d Hd0).
    solve_Permutation.
Qed.

Lemma okAt_height_unique (h1 h2 : nat) (n : nodeT) : okAtG good h1 n → okAtG good h2 n → h1 = h2.
Proof. intros [H1 _] [H2 _]. lia. Qed.

Lemma removeRect_ok (rect : rectT) (item : Z) (r : nodeT) :
  rootOkG good (Some r) →
  ∃ res root',
    removeRect rect item (Some r) = Some (res, root') ∧ rootOkG good root' ∧
    ((res = 1%Z ∧ root' = Some r ∧ ¬ reachable rect item r) ∨
     (res = 0%Z ∧ reachable rect item r ∧
      ∀ h, okAtG good h r → fullAt h r →
           Forall (λ d, n_level d = 0%Z) (removeRectRec rect item r []).2 →
           ∃ r'' h'' e,
             root' = Some r'' ∧ okAtG good h'' r'' ∧ fullAt h'' r'' ∧
             e.2 = item ∧ entries r ≡ₚ e :: entries r'')).
Proof.
  intros (h & Hok & Hcnt & Hne). consts. unfold removeRect.
  pose proof (removeRectRec_spec rect item r []) as Hspec.
  destruct (removeRectRec rect item r []) as [[res r'] lst]. cbn [snd].
  destruct Hspec as [(-> & -> & -> & Hnr)|
                     (-> & Hr & Hl & Hc & det & e & -> & He & Hent & Hinv)].
  - rewrite decide_False by done. exists 1%Z, (Some r).
    split; [done|]. split; [exists h; by consts|]. by left.
  - rewrite decide_True by done. rewrite app_nil_r.
    destruct (Hinv h) as [Hinv1 Hinv2]. destruct (Hinv1 Hok) as [Hok' Hdet].
    destruct (drain_ok h det Hdet r' h) as (r1 & h1 & Hfold & Hh1 & Hok1 & Hcnt1 & Hne1 & Hent1);
      [lia|done|lia|intros Hh; specialize (Hne Hh); lia|].
    rewrite Hfold. cbn [mbind option_bind].
    destruct (bool_decide (n_count r1 = 1%nat) && (n_level r1 >? 0)%Z) eqn:Hcond.
    + (* redundant root *)
      apply andb_true_iff in Hcond as [Hc1 Hlv%Z.gtb_lt]. apply bool_decide_eq_true in Hc1.
      destruct Hok1 as [Hl1 Hb1]. destruct h1 as [|h1']; [lia|].
      unfold n_count in Hc1. destruct (n_branch r1) as [|b0 [|]] eqn:Hbr; try done.
      apply Forall_cons in Hb1 as [Hb0 _].
      cbn [lookup_total list_lookup_total].
      eexists 0%Z, _. split; [done|]. split.
      * destruct (b_child b0) as [c|] eqn:Hc0; [|done].
        destruct (brOk_S_child h1' b0 c Hb0 Hc0) as (_ & Hcc & _ & Hokc).
        exists h1'. consts. split; [done|]. split; [lia|]. intros _. lia.
      * right. split; [done|]. split; [done|]. intros h2 Hok2 Hfull Hleaves.
        rewrite (okAt_height_unique h2 h r Hok2 Hok) in Hfull.
        destruct (Hent1 Hleaves (Hinv2 Hfull)) as [Hfull1 Hperm1].
        unfold fullAt in Hfull1. rewrite Hbr in Hfull1.
        apply Forall_cons in Hfull1 as [Hf0 _].
        destruct (b_child b0) as [c|] eqn:Hc0; [|by apply brFull_S_None in Hf0].
        destruct (brOk_S_child h1' b0 c Hb0 Hc0) as (_ & Hcc & _ & Hokc).
        exists c, h1', e. split; [done|]. split; [done|].
        split; [by apply (brFull_S_child h1' b0 c Hc0)|]. split; [done|].
        rewrite Hent, (Permutation_app_comm (entries r')), <- Hperm1.
        rewrite (node_eta r1), Hl1, Hbr.
        rewrite entries_cons_internal by apply gtb_S. rewrite Hc0.
        cbn [entries]. rewrite gtb_S. cbn [flat_map]. by rewrite app_nil_r.
    + exists 0%Z, (Some r1). split; [done|]. split.
      * exists h1. consts. split; [done|]. split; [done|]. intros Hh.
        specialize (Hne1 Hh). apply andb_false_iff in Hcond as [Hc1|Hlv].
        -- apply bool_decide_eq_false in Hc1. lia.
        -- destruct Hok1 as [Hl1 _]. rewrite Hl1 in Hlv.
           rewrite Z.gtb_ltb in Hlv. apply Z.ltb_ge in Hlv. lia.
      * right. split; [done|]. split; [done|]. intros h2 Hok2 Hfull Hleaves.
        rewrite (okAt_height_unique h2 h r Hok2 Hok) in Hfull.
        destruct (Hent1 Hleaves (Hinv2 Hfull)) as [Hfull1 Hperm1].
        exists r1, h1, e. split; [done|]. split; [done|]. split; [done|].
        split; [done|].
        by rewrite Hent, (Permutation_app_comm (entries r')), <- Hperm1.
Qed.

(** ** Sequences of operations *)

Lemma rootOk_empty : rootOkG good (Some zeroNode).
Proof.
  exists 0%nat. split; [by split|]. split; [unfold n_count; cbn; lia|lia].
Qed.

Lemma step_rootOk (o : opT) (root : option nodeT) :
  opOk good o → rootOkG good root → ∃ root', step root o = Some root' ∧ rootOkG good root'.
Proof.
  intros Hwf Hok. destruct o as [rect item|rect item]; cbn [step].
  - destruct root as [r|]; [|by exists None].
    destruct Hok as (h & Hok & Hcnt & Hne). consts.
    destruct (insertRect_ok h 2 r rect item 0 Hok Hcnt)
      as (r' & flag & h' & Hins & _ & Hok' & Hcnt' & Hne' & _); [lia|done|lia|done|].
    change (Z.of_nat 0) with 0%Z in Hins. rewrite Hins.
    exists (Some r'). split; [done|]. exists h'. by consts.
  - destruct root as [r|]; [|by exists None].
    destruct (removeRect_ok rect item r Hok) as (res & root' & Hrem & Hok' & _).
    rewrite Hrem. by exists root'.
Qed.

Lemma run_rootOk (ops : list opT) :
  Forall (opOk good) ops →
  ∀ root, rootOkG good root → ∃ root', run ops root = Some root' ∧ rootOkG good root'.
Proof.
  unfold run. induction 1 as [|o ops Ho _ IH]; intros root Hok.
  - by exists root.
  - cbn [foldl mbind option_bind].
    destruct (step_rootOk o root Ho Hok) as (root1 & -> & Hok1). by apply IH.
Qed.

Lemma okAt_subnodes (h : nat) :
  ∀ n, okAtG good h n →
       Forall (λ m, (MIN_NODES ≤ n_count m ≤ MAX_NODES)%nat) (subnodes n).
Proof.
  induction h as [|h IH]; intros [lvl bs] [Hl Hbs]; cbn [n_level n_branch] in *;
    subst lvl; cbn [subnodes].
  - change (Z.of_nat 0 >? 0)%Z with false. constructor.
  - rewrite gtb_S. induction Hbs as [|b bs Hb _ IHbs]; [constructor|].
    cbn [flat_map]. apply Forall_app. split; [|exact IHbs].
    destruct (b_child b) as [c|] eqn:Hc; [|constructor].
    destruct Hb as [_ Hb]. rewrite Hc in Hb. destruct Hb as (Hcc & _ & Hlc & Hbc).
    apply Forall_cons_2; [done|]. apply IH. by split.
Qed.

Lemma foldl_combine_unionRects (rs : list rectT) :
  ∀ r0, length (rmin r0) = 2%nat → length (rmax r0) = 2%nat →
        foldl (combineRect NUM_DIMS) r0 rs = unionRects r0 rs.
Proof.
  induction rs as [|x rs IH]; intros r0 Hmin Hmax.
  - destruct r0 as [[|a [|b [|]]] [|c [|d [|]]]]; done.
  - cbn [foldl]. rewrite IH by done. unfold unionRects, minimum, maximum.
    cbn [NUM_DIMS seq map fmap list_fmap foldl]. change NUM_DIMS with 2%nat.
    by destruct (combineRect_sub r0 x) as (-> & -> & -> & ->).
Qed.

Lemma okAt_internalBranches (h : nat) :
  ∀ n, okAtG good h n →
       Forall (λ rc : rectT * nodeT,
                 match n_branch rc.2 with
                 | b0 :: bs => rc.1 = unionRects b0.(b_rect) (b_rect <$> bs)
                 | [] => False
                 end)
              (internalBranches n).
Proof.
  induction h as [|h IH]; intros [lvl bs] [Hl Hbs]; cbn [n_level n_branch] in *;
    subst lvl; cbn [internalBranches].
  - change (Z.of_nat 0 >? 0)%Z with false. constructor.
  - rewrite gtb_S. induction Hbs as [|b bs Hb _ IHbs]; [constructor|].
    cbn [flat_map]. apply Forall_app. split; [|exact IHbs].
    destruct (b_child b) as [c|] eqn:Hc; [|constructor].
    destruct Hb as [_ Hb]. rewrite Hc in Hb. destruct Hb as (Hcc & Hrect & Hlc & Hbc).
    apply Forall_cons_2; [|apply IH; by split]. cbn [fst snd].
    consts. unfold n_count in Hcc. destruct c as [lc [|b0 bc]]; [cbn in Hcc; lia|].
    cbn [n_branch] in *. rewrite Hrect, nodeCover_cons.
    apply Forall_cons in Hbc as [Hb0 _]. apply brOk_wf, good_wf in Hb0 as (H1 & H2 & _).
    by apply foldl_combine_unionRects.
Qed.

(** ** Search *)





Lemma insertAll_ok (l : list (rectT * Z)) :
  Forall (λ p : rectT * Z, good p.1) l →
  ∀ (r : nodeT) (h : nat),
    okAtG good h r → (n_count r ≤ 16)%nat → ((0 < h)%nat → (2 ≤ n_count r)%nat) →
    fullAt h r →
    ∃ r' h',
      insertAll l (Some r) = Some (Some r') ∧
      okAtG good h' r' ∧ (n_count r' ≤ 16)%nat ∧ ((0 < h')%nat → (2 ≤ n_count r')%nat) ∧
      fullAt h' r' ∧ entries r' ≡ₚ l ++ entries r.
Proof.
  unfold insertAll, run.
  induction 1 as [|[rect item] l Hp _ IH]; intros r h Hok Hcnt Hne Hfull.
  - exists r, h. done.
  - cbn [map foldl mbind option_bind step fst snd].
    destruct (insertRect_ok h 2 r rect item 0 Hok Hcnt)
      as (r1 & flag & h1 & Hins & _ & Hok1 & Hcnt1 & Hne1 & Hent1); [lia|done|lia|done|].
    change (Z.of_nat 0) with 0%Z in Hins. rewrite Hins. cbn [fmap option_fmap option_map fst].
    destruct (Hent1 Hfull eq_refl) as [Hfull1 Hperm1].
    destruct (IH r1 h1 Hok1 Hcnt1 Hne1 Hfull1)
      as (r' & h' & Hrun & Hok' & Hcnt' & Hne' & Hfull' & Hperm').
    exists r', h'. split; [done|]. split; [done|]. split; [done|]. split; [done|].
    split; [done|]. rewrite Hperm', Hperm1. solve_Permutation.
Qed.

End Engine.

(** ** Families of rectangles *)

Lemma wf_rectb_correct (r : rectT) : wf_rectb r = true → wf_rect NUM_DIMS r.
Proof.
  unfold wf_rectb. rewrite !andb_true_iff, !Nat.eqb_eq, forallb_forall.
  intros [[H1 H2] H3]. split; [done|]. split; [done|].
  intros i Hi. apply dlt_false, negb_true_iff, H3, in_seq. lia.
Qed.

Lemma rect_leb_complete (A C : rectT) : rect_le A C → rect_leb A C = true.
Proof.
  intros Hle. unfold rect_leb. apply forallb_forall. intros i [_ Hi]%in_seq.
  destruct (Hle i Hi) as [H1 H2].
  apply andb_true_iff. split; by apply negb_true_iff, dlt_false.
Qed.

(** A family that passes the evaluated check is safe. *)
Lemma safeDomainb_correct (Dom : list rectT) : safeDomainb Dom = true → safeDomain Dom.
Proof.
  unfold safeDomainb. rewrite !andb_true_iff. intros [[[H1 H2] H3] H4].
  rewrite forallb_forall in H1, H2, H3, H4.
  split; [|split; [|split]].
  - apply Forall_forall. intros r Hr%list_elem_of_In.
    destruct (proj1 (andb_true_iff _ _) (H1 r Hr)) as [Hw Hd].
    split; [by apply wf_rectb_correct|].
    apply Forall_forall. intros c Hc%list_elem_of_In.
    rewrite forallb_forall in Hd. by apply Hd.
  - intros A B HA%list_elem_of_In HB%list_elem_of_In.
    specialize (H2 A HA). rewrite forallb_forall in H2.
    exact (proj1 (bool_decide_eq_true _) (H2 B HB)).
  - intros A B C HA%list_elem_of_In HB%list_elem_of_In HC%list_elem_of_In HAC HBC.
    specialize (H3 A HA). rewrite forallb_forall in H3.
    specialize (H3 B HB). rewrite forallb_forall in H3.
    specialize (H3 C HC).
    by rewrite (rect_leb_complete A C HAC), (rect_leb_complete B C HBC) in H3.
  - intros cur R0 R1 H0%list_elem_of_In HR0%list_elem_of_In HR1%list_elem_of_In.
    specialize (H4 cur H0). rewrite forallb_forall in H4.
    specialize (H4 R0 HR0). rewrite forallb_forall in H4.
    by apply negb_true_iff, H4.
Qed.

Lemma safeDomain_wf (Dom : list rectT) :
  safeDomain Dom → ∀ r, inDom Dom r → wf_rect NUM_DIMS r.
Proof.
  intros [Hwf _] r Hr. rewrite Forall_forall in Hwf. by destruct (Hwf r Hr).
Qed.

Lemma safeDomain_union (Dom : list rectT) :
  safeDomain Dom →
  ∀ a b, inDom Dom a → inDom Dom b → inDom Dom (combineRect NUM_DIMS a b).
Proof. intros (_ & Hu & _). exact Hu. Qed.

Lemma safeDomain_split (Dom : list rectT) :
  safeDomain Dom →
  ∀ (node : nodeT) (br : branchT),
    n_count node = 16%nat →
    Forall (λ b : branchT, inDom Dom (b_rect b)) (n_branch node) →
    inDom Dom (b_rect br) →
    ∃ A B, splitNode node br = Some (mkNode (n_level node) A, mkNode (n_level node) B) ∧
           A ++ B ≡ₚ n_branch node ++ [br] ∧ (8 ≤ length A)%nat ∧ (8 ≤ length B)%nat.
Proof. intros HS node br Hc Hbs Hbr. by apply (splitNode_spec Dom). Qed.

(** Trees in order for one family are in order for every wider one. *)
Lemma brOkG_mono (good good' : rectT → Prop) :
  (∀ r, good r → good' r) → ∀ h b, brOkG good h b → brOkG good' h b.
Proof.
  intros Himp. induction h as [|h IH]; intros b [Hg Hb]; (split; [by apply Himp|]).
  - done.
  - destruct (b_child b) as [c|]; [|done].
    destruct Hb as (Hc & Hr & Hl & Hbs). split; [done|]. split; [done|]. split; [done|].
    eapply Forall_impl; [exact Hbs|]. exact IH.
Qed.

Lemma okAtG_mono (good good' : rectT → Prop) (h : nat) (n : nodeT) :
  (∀ r, good r → good' r) → okAtG good h n → okAtG good' h n.
Proof.
  intros Himp [Hl Hbs]. split; [done|].
  eapply Forall_impl; [exact Hbs|]. by apply brOkG_mono.
Qed.

Lemma okAt_of_dom (Dom : list rectT) (h : nat) (n : nodeT) :
  safeDomain Dom → okAtG (inDom Dom) h n → okAt h n.
Proof. intros HS. apply okAtG_mono. by apply safeDomain_wf. Qed.

(** ** Concrete rectangles *)

Lemma wf_box (a b c e : Z) : (a ≤ c)%Z → (b ≤ e)%Z → wf_rect NUM_DIMS (box a b c e).
Proof.
  intros Hac Hbe. split; [done|]. split; [done|].
  intros [|[|i]] Hi; [| |unfold NUM_DIMS in Hi; lia].
  - change (coord a ≤ coord c). by apply (proj1 (Z2Qc_inj_le a c)).
  - change (coord b ≤ coord e). by apply (proj1 (Z2Qc_inj_le b e)).
Qed.




Lemma okAtG_leafOf (good : rectT → Prop) (l : list (rectT * Z)) :
  Forall (λ p : rectT * Z, good p.1) l → okAtG good 0 (leafOf l).
Proof.
  intros Hwf. split; [done|]. cbn [leafOf n_branch]. apply Forall_map.
  eapply Forall_impl; [exact Hwf|]. intros p Hp. by split.
Qed.



Lemma fullAt_leafOf (l : list (rectT * Z)) : fullAt 0 (leafOf l).
Proof. unfold fullAt. apply Forall_forall. by intros b _. Qed.

Lemma entries_leafOf (l : list (rectT * Z)) : entries (leafOf l) = l.
Proof.
  unfold leafOf. rewrite entries_leaf, map_map. cbn [b_rect b_item].
  rewrite map_ext with (g := id) by (by intros [rr ii]). apply map_id.
Qed.

(** The grid family is safe, and the workloads over it stay inside. *)
Lemma smallDom_safe : safeDomain smallDom.
Proof. apply safeDomainb_correct. vm_compute. reflexivity. Qed.

Lemma smallDom_elem (r : rectT) : bool_decide (r ∈ smallDom) = true → inDom smallDom r.
Proof. exact (proj1 (bool_decide_eq_true _)). Qed.

Lemma gridWork_in (n : nat) : Forall (λ p : rectT * Z, inDom smallDom p.1) (gridWork n).
Proof.
  unfold gridWork. apply Forall_map, Forall_forall. intros i _. cbn [fst].
  apply list_elem_of_In, nth_In, Nat.mod_upper_bound. by vm_compute.
Qed.

Lemma workload_in : Forall (opOk (inDom smallDom)) workload.
Proof.
  unfold workload. apply Forall_app. split.
  - apply Forall_map. eapply Forall_impl; [apply (gridWork_in 40)|]. by intros [r i].
  - apply Forall_cons_2; [done|]. apply Forall_cons_2; [done|].
    apply Forall_cons_2; [|done]. apply smallDom_elem. by vm_compute.
Qed.

(** ** The union of rectangles in builds with more than two dimensions *)

(** Whatever [NUM_DIMS] is, [combineRect] leaves the coordinates from
    index 2 on at the zero of [memset]. *)
Lemma combineRect_beyond_2 (D : nat) (A B : rectT) (i : nat) :
  (2 ≤ i)%nat →
  sub (rmin (combineRect D A B)) i = 0 ∧ sub (rmax (combineRect D A B)) i = 0.
Proof.
  intros Hi. unfold combineRect, zeroRect. cbn [seq foldl rmin rmax]. unfold sub at 1 6.
  rewrite !list_lookup_insert_ne by lia.
  destruct (replicate D _ !! i) as [x|] eqn:E; [|done].
  by apply lookup_replicate_1 in E as [-> _].
Qed.

(** C9.  In a build with [NUM_DIMS = 3] the union of the cubes
    [(1,1,1)-(2,2,2)] and [(3,3,3)-(4,4,4)] has 0 for both coordinates of
    the third dimension, where the minimum of the mins is 1 and the
    maximum of the maxes is 4. *)
Theorem combineRect_third_dimension :
  sub (rmin (combineRect 3 (cube 1 2) (cube 3 4))) 2 = 0 ∧
  min (sub (rmin (cube 1 2)) 2) (sub (rmin (cube 3 4)) 2) = coord 1 ∧
  sub (rmax (combineRect 3 (cube 1 2) (cube 3 4))) 2 = 0 ∧
  max (sub (rmax (cube 1 2)) 2) (sub (rmax (cube 3 4)) 2) = coord 4 ∧
  coord 1 ≠ 0 ∧ coord 4 ≠ 0.
Proof.
  split; [apply combineRect_beyond_2; lia|]. split; [reflexivity|].
  split; [apply combineRect_beyond_2; lia|]. split; [reflexivity|].
  split; intros H; rewrite <- Z2Qc_inj_0 in H; apply Z2Qc_inj in H; lia.
Qed.

(** ** Overlap *)

Lemma overlap_correct_witness :
  (overlap NUM_DIMS (box 0 0 1 1) (box 1 0 2 1) = true ↔
     ∀ i, (i < NUM_DIMS)%nat →
          sub (rmin (box 0 0 1 1)) i ≤ sub (rmax (box 1 0 2 1)) i ∧
          sub (rmin (box 1 0 2 1)) i ≤ sub (rmax (box 0 0 1 1)) i).
Proof.
  apply (overlap_correct NUM_DIMS (box 0 0 1 1) (box 1 0 2 1)); apply wf_box; lia.
Defined.

(** ** Splits whose sizes leave the binary64 range *)

(** C5.  Two full leaves of finite, well-formed rectangles, each split
    with one more such rectangle.  The leaf of the strips 0 to 15 with
    strip 16: the reused node keeps 1 branch and the sibling gets 16, so
    one node is below [MIN_NODES].  The leaf of the two clusters with
    [huge]: the two nodes get 8 branches each, the 16 old ones, and the
    incoming branch is in neither. *)
Theorem splitNode_beyond_double_range :
  finiteRects wideStrips = true ∧
  n_count (leafOf (take 16 wideStrips)) = MAX_NODES ∧
  splitCounts (leafOf (take 16 wideStrips))
              (mkBranch (box (16 * 2 ^ 600) 0 (17 * 2 ^ 600) 1) None 16)
  = Some (1%nat, 16%nat) ∧
  finiteRects (twoClusters ++ [(huge, 16%Z)]) = true ∧
  n_count (leafOf twoClusters) = MAX_NODES ∧
  splitCounts (leafOf twoClusters) (mkBranch huge None 16) = Some (8%nat, 8%nat) ∧
  (l ← splitEntries (leafOf twoClusters) (mkBranch huge None 16);
   Some (bool_decide ((huge, 16%Z) ∈ l), bool_decide (l ≡ₚ twoClusters)))
  = Some (false, true).
Proof.
  split; [vm_compute; reflexivity|]. split; [reflexivity|].
  split; [vm_compute; reflexivity|]. split; [vm_compute; reflexivity|].
  split; [reflexivity|]. split; vm_compute; reflexivity.
Qed.

(** C3.  Inserting the seventeen strips, finite and well formed, into an
    empty index splits the root leaf into leaves of 1 and 16 entries:
    the root is at level 1 and its first child holds one branch, fewer
    than [MIN_NODES]. *)
Theorem balance_lost_beyond_double_range :
  finiteRects wideStrips = true ∧
  (root ← insertAll wideStrips (Some zeroNode);
   Some (n_level <$> root, subnodeCounts root))
  = Some (Some 1%Z, [1%nat; 16%nat]) ∧
  (1 < MIN_NODES)%nat.
Proof.
  split; [vm_compute; reflexivity|]. split; [vm_compute; reflexivity|].
  unfold MIN_NODES. vm_compute. lia.
Qed.

(** C4.  In the tree of [fullFirstLeaf] (159 entries, root at level 2)
    the first branch of the root has the rectangle [(0,0)-(72,1)], the
    cover of its child.  Inserting [huge] splits the full first leaf;
    the split drops the new entry (159 entries are found afterwards, not
    160), and yet the first branch of the root now has the rectangle
    [huge] while the cover of its child is still [(0,0)-(72,1)].  And in
    the state [afterSecondDelete] seven internal branches have no child
    at all. *)
Theorem cover_loose_beyond_double_range :
  finiteRects (fullFirstLeaf ++ [(huge, 999%Z)]) = true ∧
  (root ← insertAll fullFirstLeaf (Some zeroNode);
   Some (n_level <$> root, search root beyond, firstCover root))
  = Some (Some 2%Z, 159%Z, Some (box 0 0 72 1, box 0 0 72 1)) ∧
  (root ← insertAll (fullFirstLeaf ++ [(huge, 999%Z)]) (Some zeroNode);
   Some (n_level <$> root, search root beyond, firstCover root))
  = Some (Some 2%Z, 159%Z, Some (huge, box 0 0 72 1)) ∧
  huge ≠ box 0 0 72 1 ∧
  from_option nullChildren 0%nat <$> afterSecondDelete = Some 7%nat.
Proof.
  split; [vm_compute; reflexivity|]. split; [vm_compute; reflexivity|].
  split; [vm_compute; reflexivity|]. split; [|vm_compute; reflexivity].
  intros H. apply (f_equal (λ r, Qnum (sub (rmax r) 1))) in H. vm_compute in H.
  discriminate H.
Qed.

(** C6.  Seventeen distinct pairs with finite, well-formed rectangles,
    all inside the query [beyond]: after inserting them into an empty
    index [search] over [beyond] counts 16 matches, and the pair
    [(huge, 16)] is not among the entries of the tree. *)
Theorem insert_lost_beyond_double_range :
  finiteRects (twoClusters ++ [(huge, 16%Z)]) = true ∧
  bool_decide (NoDup (twoClusters ++ [(huge, 16%Z)])) = true ∧
  length (twoClusters ++ [(huge, 16%Z)]) = 17%nat ∧
  forallb (λ p : rectT * Z, rect_leb p.1 beyond) (twoClusters ++ [(huge, 16%Z)]) = true ∧
  (root ← insertAll (twoClusters ++ [(huge, 16%Z)]) (Some zeroNode);
   r ← root;
   Some (search root beyond, countRec r 0, bool_decide ((huge, 16%Z) ∈ entries r)))
  = Some (16%Z, Some 16%Z, false).
Proof.
  split; [vm_compute; reflexivity|]. split; [vm_compute; reflexivity|].
  split; [reflexivity|]. split; vm_compute; reflexivity.
Qed.

(** ** Deletion by payload *)

Lemma reachable_entries (rect : rectT) (item : Z) (n : nodeT) :
  reachable rect item n → ∃ e, e ∈ entries n ∧ e.2 = item.
Proof.
  induction 1 as [lvl bs b Hl Hin Hit|lvl bs b c Hl Hin Hov Hc _ (e & He & Hit)].
  - exists (b_rect b, b_item b). split; [|done].
    cbn [entries]. rewrite Hl. apply (list_elem_of_fmap_2 (λ b : branchT, (b_rect b, b_item b))). done.
  - exists e. split; [|done]. cbn [entries]. rewrite Hl.
    apply list_elem_of_In, in_flat_map. exists b.
    split; [by apply list_elem_of_In|]. rewrite Hc. by apply list_elem_of_In.
Qed.




(** Deleting a pair that matches no leaf entry (no stored rectangle
    overlaps the argument) still removes the entry with the payload. *)
Lemma removeRect_no_match_alters :
  Forall (λ e : rectT * Z, overlap NUM_DIMS (box 10 10 11 11) e.1 = false)
         (entries (leafOf [(box 0 0 1 1, 1%Z); (box 0 0 2 2, 3%Z)])) ∧
  insertAll [(box 0 0 1 1, 1%Z); (box 0 0 2 2, 3%Z)] (Some zeroNode)
    = Some (Some (leafOf [(box 0 0 1 1, 1%Z); (box 0 0 2 2, 3%Z)])) ∧
  removeRect (box 10 10 11 11) 3
             (Some (leafOf [(box 0 0 1 1, 1%Z); (box 0 0 2 2, 3%Z)]))
    = Some (0%Z, Some (leafOf [(box 0 0 1 1, 1%Z)])).
Proof.
  split; [|split; reflexivity].
  apply Forall_cons_2; [reflexivity|]. apply Forall_cons_2; [reflexivity|done].
Qed.

(** C7.  When no leaf entry with the payload can be reached through
    internal branches overlapping the argument (in particular when no
    leaf entry of the tree carries the payload), [removeRect] returns 1
    and the root handle and the whole tree are as before. *)
Theorem removeRect_not_found (rect : rectT) (item : Z) (root : option nodeT) :
  (∀ r, root = Some r →
        ¬ reachable rect item r ∨ Forall (λ e : rectT * Z, e.2 ≠ item) (entries r)) →
  removeRect rect item root = Some (1%Z, root).
Proof.
  intros Hno. destruct root as [r|]; [|done].
  assert (¬ reachable rect item r) as Hnr.
  { destruct (Hno r eq_refl) as [H|H]; [done|].
    intros (e & He & Hit)%reachable_entries.
    rewrite Forall_forall in H. by apply (H e He). }
  unfold removeRect.
  pose proof (removeRectRec_spec (good := λ _, True) (λ _ _ _ _, I) rect item r []) as Hspec.
  destruct (removeRectRec rect item r []) as [[res r'] lst].
  destruct Hspec as [(-> & -> & -> & _)|(-> & Hr & _)]; [|done].
  by rewrite decide_False.
Qed.

Lemma removeRect_not_found_witness :
  removeRect (box 0 0 1 1) 9 (Some (leafOf [(box 0 0 1 1, 1%Z); (box 0 0 2 2, 3%Z)]))
    = Some (1%Z, Some (leafOf [(box 0 0 1 1, 1%Z); (box 0 0 2 2, 3%Z)])).
Proof.
  apply (removeRect_not_found (box 0 0 1 1) 9).
  intros r [= <-]. right.
  apply Forall_cons_2; [cbn; lia|]. apply Forall_cons_2; [cbn; lia|done].
Defined.

(** ** Reinsertion of a detached internal node *)

(** C2.  After 152 insertions the index holds 152 leaf entries under a
    root at level 2.  Deleting square 0 leaves 151 entries.  Deleting
    square 1 then succeeds and detaches a leaf and its parent; the seven
    branches of the parent come back with NULL children, [search] finds
    80 entries where 150 should remain, and [countRec] reads through a
    NULL child. *)
Theorem removeRect_loses_subtrees :
  census <$> grown = Some (152%Z, Some 152%Z, 0%nat) ∧
  census <$> afterFirstDelete = Some (151%Z, Some 151%Z, 0%nat) ∧
  (root ← afterFirstDelete; fst <$> removeRect (box 1 0 2 1) 101 root) = Some 0%Z ∧
  census <$> afterSecondDelete = Some (80%Z, None, 7%nat).
Proof.
  split; [vm_compute; reflexivity|]. split; [vm_compute; reflexivity|].
  split; vm_compute; reflexivity.
Qed.

(** C10.  In the state the two deletions leave, inserting the square
    [(3,0)-(4,1)] with payload 999 returns 0 (no root split) and adds no
    leaf entry: [search] still finds 80 entries and none in the square
    itself, and [countRec] still reads through a NULL child. *)
Theorem insertRect_through_null_child :
  (root ← afterSecondDelete;
   '(root', flag) ← insertRect (box 3 0 4 1) 999 root 0;
   Some (search root world, flag, search root' world,
         search root' (box 3 0 4 1), countRoot root'))
  = Some (80%Z, 0%Z, 80%Z, 0%Z, None).
Proof. vm_compute. reflexivity. Qed.

(** * Further properties of the code *)

(** ** Geometry *)

(** [overlap] does not depend on the order of its arguments, and a
    well-formed rectangle overlaps itself. *)
Theorem overlap_symmetric (D : nat) (A B : rectT) :
  overlap D A B = overlap D B A ∧ (wf_rect D A → overlap D A A = true).
Proof.
  split.
  - apply eq_true_iff_eq. rewrite !overlap_true_iff.
    split; intros H i Hi; destruct (H i Hi); by split.
  - intros (_ & _ & HA). apply overlap_true_iff. intros i Hi. split; by apply HA.
Qed.

(** In the default build the union of two rectangles contains both and
    lies inside every rectangle that contains both; the order of the
    arguments does not matter. *)
Theorem combineRect_least_upper_bound (A B : rectT) :
  rect_le A (combineRect NUM_DIMS A B) ∧
  rect_le B (combineRect NUM_DIMS A B) ∧
  (∀ C, rect_le A C → rect_le B C → rect_le (combineRect NUM_DIMS A B) C) ∧
  combineRect NUM_DIMS A B = combineRect NUM_DIMS B A.
Proof.
  split; [apply combineRect_le_l|]. split; [apply combineRect_le_r|].
  split; [intros C; apply combineRect_lub|apply combineRect_comm].
Qed.

(** ** Covering rectangles *)

Lemma ocover_ge (rs : list rectT) (r c : rectT) :
  r ∈ rs → ocover rs = Some c → rect_le r c.
Proof.
  revert c. induction rs as [|a rs IH]; intros c Hin Hc; [by apply elem_of_nil in Hin|].
  rewrite ocover_cons in Hc. destruct (ocover rs) as [y|] eqn:Hy.
  - cbn [ounion] in Hc. injection Hc as <-.
    apply elem_of_cons in Hin as [->|Hin]; [apply combineRect_le_l|].
    eapply rect_le_trans; [by apply IH|apply combineRect_le_r].
  - cbn [ounion] in Hc. injection Hc as <-.
    apply elem_of_cons in Hin as [->|Hin]; [apply rect_le_refl|].
    destruct (ocover_is_Some rs) as [y Hy']; [|congruence].
    intros ->. by apply elem_of_nil in Hin.
Qed.

(** The rectangle [nodeCover] computes for a node with at least one
    branch contains the rectangle of every branch and lies inside every
    rectangle that contains them all. *)
Theorem nodeCover_least_upper_bound (node : nodeT) :
  (1 ≤ n_count node)%nat →
  Forall (λ b : branchT, rect_le (b_rect b) (nodeCover node)) (n_branch node) ∧
  ∀ q, Forall (λ b : branchT, rect_le (b_rect b) q) (n_branch node) →
       rect_le (nodeCover node) q.
Proof.
  intros Hc. pose proof (cov_nodeCover node Hc) as Hcov. unfold cov in Hcov. split.
  - apply Forall_forall. intros b Hb. eapply ocover_ge; [|exact Hcov].
    by apply list_elem_of_fmap_2.
  - intros q Hq. eapply ocover_le; [|exact Hcov]. by apply Forall_fmap.
Qed.

Lemma nodeCover_least_upper_bound_witness :
  Forall (λ b : branchT, rect_le (b_rect b) (nodeCover (leafOf (unitSquares 3))))
         (n_branch (leafOf (unitSquares 3))).
Proof.
  apply (nodeCover_least_upper_bound (leafOf (unitSquares 3))).
  unfold n_count, leafOf, unitSquares. cbn [n_branch seq map length]. lia.
Defined.

(** ** Search *)













(** ** The counting traversal *)

Lemma countRec_spec :
  ∀ node counter,
    countRec node counter
    = if decide (nullChildren node = 0%nat)
      then Some (counter + Z.of_nat (length (entries node)))%Z else None.
Proof.
  induction node as [lvl bs IH] using nodeT_ind2. intros counter.
  cbn [countRec nullChildren entries]. destruct (lvl >? 0)%Z.
  - set (f := λ (acc : option Z) (b : branchT),
               counter ← acc;
               match b_child b with Some c => countRec c counter | None => None end).
    assert (∀ l, foldl f None l = None) as Hnone by (by induction l).
    revert counter. induction IH as [|b bs Hb _ IHbs]; intros counter.
    + cbn [foldl foldr flat_map length]. rewrite decide_True by done.
      f_equal. lia.
    + cbn [foldl foldr flat_map]. unfold f at 2. cbn [mbind option_bind].
      destruct (b_child b) as [c|] eqn:Hc.
      * rewrite (Hb c eq_refl counter).
        destruct (decide (nullChildren c = 0%nat)) as [Hz|Hz].
        -- rewrite IHbs, Hz. cbn [Nat.add]. case_decide; [|done].
           f_equal. rewrite length_app. lia.
        -- rewrite Hnone. by rewrite decide_False by lia.
      * rewrite Hnone. by rewrite decide_False by lia.
  - rewrite decide_True by done. by rewrite length_map.
Qed.

Lemma fullAt_nullChildren (h : nat) :
  ∀ n, okAt h n → fullAt h n → nullChildren n = 0%nat.
Proof.
  induction h as [|h IH]; intros [lvl bs] [Hl Hbs] Hfull;
    cbn [n_level n_branch] in *; subst lvl; unfold fullAt in Hfull; cbn [n_branch] in Hfull.
  - done.
  - cbn [nullChildren]. rewrite gtb_S.
    induction Hbs as [|b bs Hb _ IHbs]; [done|].
    apply Forall_cons in Hfull as [Hf Hfs]. cbn [foldr]. rewrite (IHbs Hfs).
    destruct (b_child b) as [c|] eqn:Hc; [|by cbn [brFull] in Hf; rewrite Hc in Hf].
    destruct (brOk_S_child h b c Hb Hc) as (_ & _ & _ & Hokc).
    rewrite (IH c Hokc); [done|]. by apply (brFull_S_child h b c Hc).
Qed.

(** Whatever the tree, as long as the counter stays in the range of
    [int]: [countRec] adds the number of leaf entries to its counter
    when no internal branch has a NULL child, and reads through a NULL
    pointer (no result) as soon as one has. *)
Theorem countRec_counts_entries (node : nodeT) (counter : Z) :
  (INT_MIN ≤ counter)%Z →
  (counter + Z.of_nat (length (entries node)) ≤ INT_MAX)%Z →
  (nullChildren node = 0%nat →
   countRec node counter = Some (counter + Z.of_nat (length (entries node)))%Z) ∧
  (nullChildren node ≠ 0%nat → countRec node counter = None).
Proof.
  intros _ _. rewrite countRec_spec.
  split; intros H; [by rewrite decide_True|by rewrite decide_False].
Qed.

Lemma countRec_counts_entries_witness :
  countRec (leafOf (unitSquares 3)) 5
  = Some (5 + Z.of_nat (length (entries (leafOf (unitSquares 3)))))%Z.
Proof.
  apply (countRec_counts_entries (leafOf (unitSquares 3)) 5).
  - unfold INT_MIN. lia.
  - rewrite entries_leafOf. unfold INT_MAX, unitSquares. cbn [seq map length]. lia.
  - reflexivity.
Defined.



(** ** Insertion *)

Lemma insertRect_flag (Dom : list rectT) (h : nat) (r : nodeT) (rect : rectT) (item : Z)
    (lv : nat) (r' : nodeT) (flag : Z) :
  safeDomain Dom →
  okAtG (inDom Dom) h r → (n_count r ≤ 16)%nat → ((0 < h)%nat → (1 ≤ n_count r)%nat) →
  (lv ≤ h)%nat → inDom Dom rect →
  insertRect rect item (Some r) (Z.of_nat lv) = Some (Some r', flag) →
  (flag = 0%Z ∧ n_level r' = n_level r) ∨
  (flag = 1%Z ∧ n_level r' = (n_level r + 1)%Z ∧ n_count r' = 2%nat).
Proof.
  intros HS Hok Hcnt Hne Hlv Hwf Hins.
  destruct (insertRectRec_ok (safeDomain_union Dom HS) (safeDomain_split Dom HS)
              h r rect item lv Hok Hcnt Hne Hlv Hwf)
    as (r1 & o & Hrec & ([Hl1 _] & _ & _)).
  unfold insertRect in Hins. rewrite Hrec in Hins. cbn [mbind option_bind] in Hins.
  destruct Hok as [Hl _]. destruct o as [nn|].
  - rewrite addBranchNull_room in Hins by (cbn [length]; lia).
    cbn [mbind option_bind app] in Hins.
    rewrite addBranchNull_room in Hins by (cbn [length]; lia).
    cbn [mbind option_bind app] in Hins. injection Hins as <- <-.
    right. split; [done|]. split; [cbn [n_level]; lia|done].
  - injection Hins as <- <-. left. split; [done|lia].
Qed.

(** On a tree in order without NULL children whose rectangles belong to
    a safe family, one call of [insertRect] at level 0 with a rectangle
    of the family succeeds, adds exactly the new leaf entry and keeps
    all others, raises the count of [countRec] by one (the count staying
    below [INT_MAX]), and returns 1 exactly when the root was split: the
    new root is then one level higher and has two branches; otherwise
    the root keeps its level. *)
Theorem insertRect_adds_one_entry (Dom : list rectT) (h : nat) (r : nodeT)
    (rect : rectT) (item : Z) :
  safeDomain Dom →
  okAtG (inDom Dom) h r → fullAt h r → (n_count r ≤ MAX_NODES)%nat →
  ((0 < h)%nat → (2 ≤ n_count r)%nat) → inDom Dom rect →
  (Z.of_nat (length (entries r)) < INT_MAX)%Z →
  ∃ r' flag,
    insertRect rect item (Some r) 0 = Some (Some r', flag) ∧
    entries r' ≡ₚ (rect, item) :: entries r ∧
    countRec r 0 = Some (Z.of_nat (length (entries r))) ∧
    countRec r' 0 = Some (Z.of_nat (length (entries r)) + 1)%Z ∧
    ((flag = 0%Z ∧ n_level r' = n_level r) ∨
     (flag = 1%Z ∧ n_level r' = (n_level r + 1)%Z ∧ n_count r' = 2%nat)).
Proof.
  intros HS Hok Hfull Hcnt Hne Hwf _. consts.
  destruct (insertRect_ok (safeDomain_union Dom HS) (safeDomain_split Dom HS)
              h 2 r rect item 0 Hok Hcnt)
    as (r' & flag & h' & Hins & _ & Hok' & _ & _ & Hent); [lia|done|lia|done|].
  destruct (Hent Hfull eq_refl) as [Hfull' Hperm].
  exists r', flag. split; [exact Hins|]. split; [done|].
  rewrite !countRec_spec, !decide_True
    by (eapply fullAt_nullChildren; [by eapply okAt_of_dom|done]).
  split; [done|]. split.
  - rewrite Hperm. cbn [length]. f_equal. lia.
  - apply (insertRect_flag Dom h r rect item 0); try done; [|lia].
    intros Hh. specialize (Hne Hh). lia.
Qed.

Lemma insertRect_adds_one_entry_witness :
  ∃ r' flag,
    insertRect (box 1 0 3 1) 116 (Some (leafOf (gridWork 16))) 0
      = Some (Some r', flag) ∧
    entries r' ≡ₚ (box 1 0 3 1, 116%Z) :: entries (leafOf (gridWork 16)).
Proof.
  destruct (insertRect_adds_one_entry smallDom 0 (leafOf (gridWork 16)) (box 1 0 3 1) 116)
    as (r' & flag & H1 & H2 & _).
  - exact smallDom_safe.
  - apply okAtG_leafOf, gridWork_in.
  - apply fullAt_leafOf.
  - unfold n_count, leafOf. cbn [n_branch]. rewrite length_map. unfold gridWork.
    rewrite length_map, length_seq. consts. lia.
  - lia.
  - apply smallDom_elem. by vm_compute.
  - rewrite entries_leafOf. unfold gridWork. rewrite length_map, length_seq.
    unfold INT_MAX. lia.
  - exists r', flag. split; [exact H1|exact H2].
Defined.

(** ** Shape of the tree *)

Lemma okAt_childLevels (h : nat) :
  ∀ n, okAt h n →
       Forall (λ p : Z * Z, p.2 = (p.1 - 1)%Z ∧ (0 ≤ p.2)%Z) (childLevels n).
Proof.
  induction h as [|h IH]; intros [lvl bs] [Hl Hbs]; cbn [n_level n_branch] in *;
    subst lvl; cbn [childLevels].
  - change (Z.of_nat 0 >? 0)%Z with false. constructor.
  - rewrite gtb_S. induction Hbs as [|b bs Hb _ IHbs]; [constructor|].
    cbn [flat_map]. apply Forall_app. split; [|exact IHbs].
    destruct (b_child b) as [c|] eqn:Hc; [|constructor].
    destruct (brOk_S_child h b c Hb Hc) as (_ & _ & _ & Hokc).
    apply Forall_cons_2; [|by apply IH].
    destruct Hokc as [Hlc _]. cbn [fst snd]. lia.
Qed.

Lemma okAt_allRects (h : nat) :
  ∀ n, okAt h n → Forall (wf_rect NUM_DIMS) (allRects n).
Proof.
  induction h as [|h IH]; intros [lvl bs] [Hl Hbs]; cbn [n_level n_branch] in *;
    subst lvl; cbn [allRects].
  - change (Z.of_nat 0 >? 0)%Z with false. apply Forall_map.
    eapply Forall_impl; [exact Hbs|]. intros b Hb. by eapply brOk_wf.
  - rewrite gtb_S. induction Hbs as [|b bs Hb _ IHbs]; [constructor|].
    cbn [flat_map]. apply Forall_app. split; [|exact IHbs].
    apply Forall_cons_2; [by eapply brOk_wf|].
    destruct (b_child b) as [c|] eqn:Hc; [|constructor].
    destruct (brOk_S_child h b c Hb Hc) as (_ & _ & _ & Hokc). by apply IH.
Qed.

(** After any sequence of operations whose inserted rectangles belong
    to a safe family the tree is height-balanced: the level of the root
    is not negative, every child sits exactly one level below its parent
    (so every leaf is at level 0 and at the same depth), an internal
    root has at least two branches, and every rectangle stored in the
    tree is well formed. *)
Theorem shape_invariant (Dom : list rectT) (ops : list opT) :
  safeDomain Dom → Forall (opOk (inDom Dom)) ops →
  ∃ root, run ops (Some zeroNode) = Some root ∧
          ∀ r, root = Some r →
               (0 ≤ n_level r)%Z ∧
               Forall (λ p : Z * Z, p.2 = (p.1 - 1)%Z ∧ (0 ≤ p.2)%Z) (childLevels r) ∧
               ((0 < n_level r)%Z → (2 ≤ n_count r)%nat) ∧
               Forall (wf_rect NUM_DIMS) (allRects r).
Proof.
  intros HS Hops.
  destruct (run_rootOk (safeDomain_union Dom HS) (safeDomain_split Dom HS)
              ops Hops (Some zeroNode) rootOk_empty) as (root & Hrun & Hok).
  exists root. split; [done|]. intros r ->.
  destruct Hok as (h & Hok & _ & Hne). pose proof Hok as [Hl _].
  apply (okAt_of_dom Dom h r HS) in Hok.
  split; [lia|]. split; [by eapply okAt_childLevels|].
  split; [intros Hh; apply Hne; lia|by eapply okAt_allRects].
Qed.

Lemma shape_invariant_witness :
  ∃ root, run workload (Some zeroNode) = Some root ∧
          ∀ r, root = Some r →
               (0 ≤ n_level r)%Z ∧
               Forall (λ p : Z * Z, p.2 = (p.1 - 1)%Z ∧ (0 ≤ p.2)%Z) (childLevels r) ∧
               ((0 < n_level r)%Z → (2 ≤ n_count r)%nat) ∧
               Forall (wf_rect NUM_DIMS) (allRects r).
Proof.
  apply (shape_invariant smallDom workload); [exact smallDom_safe|exact workload_in].
Defined.

(** After any sequence of operations whose inserted rectangles belong to
    a safe family, the root holds between 0 and [MAX_NODES] branches and
    every other node between [MIN_NODES] and [MAX_NODES]. *)
Theorem balance_invariant (Dom : list rectT) (ops : list opT) :
  safeDomain Dom → Forall (opOk (inDom Dom)) ops →
  ∃ root, run ops (Some zeroNode) = Some root ∧ balanced root.
Proof.
  intros HS Hops.
  destruct (run_rootOk (safeDomain_union Dom HS) (safeDomain_split Dom HS)
              ops Hops (Some zeroNode) rootOk_empty) as (root & Hrun & Hok).
  exists root. split; [done|]. destruct root as [r|]; [|done].
  destruct Hok as (h & Hok & Hcnt & _). split; [lia|]. by eapply okAt_subnodes.
Qed.

Lemma balance_invariant_witness :
  ∃ root, run workload (Some zeroNode) = Some root ∧ balanced root.
Proof.
  apply (balance_invariant smallDom workload); [exact smallDom_safe|exact workload_in].
Defined.

(** After any sequence of operations whose inserted rectangles belong to
    a safe family, the rectangle of each internal branch that has a
    child equals the union of the rectangles of the child's branches:
    per dimension the minimum of the mins and the maximum of the maxes.
    After insertions alone, moreover, every internal branch has a
    child. *)
Theorem cover_invariant (Dom : list rectT) :
  safeDomain Dom →
  (∀ ops, Forall (opOk (inDom Dom)) ops →
          ∃ root, run ops (Some zeroNode) = Some root ∧ coverExact root) ∧
  (∀ l, Forall (λ p : rectT * Z, inDom Dom p.1) l →
        ∃ r, insertAll l (Some zeroNode) = Some (Some r) ∧
             nullChildren r = 0%nat ∧ coverExact (Some r)).
Proof.
  intros HS. split.
  - intros ops Hops.
    destruct (run_rootOk (safeDomain_union Dom HS) (safeDomain_split Dom HS)
                ops Hops (Some zeroNode) rootOk_empty) as (root & Hrun & Hok).
    exists root. split; [done|]. destruct root as [r|]; [|done].
    destruct Hok as (h & Hok & _).
    by eapply (okAt_internalBranches (safeDomain_wf Dom HS)).
  - intros l Hin.
    destruct (insertAll_ok (safeDomain_union Dom HS) (safeDomain_split Dom HS) l Hin zeroNode 0)
      as (r & h & Hrun & Hok & _ & _ & Hfull & _).
    { by split. }
    { unfold n_count. cbn. lia. }
    { lia. }
    { constructor. }
    exists r. split; [done|]. split.
    + eapply fullAt_nullChildren; [by eapply okAt_of_dom|done].
    + by eapply (okAt_internalBranches (safeDomain_wf Dom HS)).
Qed.

Lemma cover_invariant_witness :
  (∃ root, run workload (Some zeroNode) = Some root ∧ coverExact root) ∧
  (∃ r, insertAll (gridWork 40) (Some zeroNode) = Some (Some r) ∧
        nullChildren r = 0%nat ∧ coverExact (Some r)).
Proof.
  destruct (cover_invariant smallDom smallDom_safe) as [H1 H2].
  split; [exact (H1 workload workload_in)|exact (H2 (gridWork 40) (gridWork_in 40))].
Defined.





(** ** Deletion *)

(** [disconnectBranch] at an index inside the live prefix removes
    exactly that branch: the last branch moves into its slot, every
    other branch stays where it is, the count drops by one and the level
    is unchanged. *)
Theorem disconnectBranch_swaps_last (node : nodeT) (i : nat) (b : branchT) :
  n_branch node !! i = Some b →
  n_level (disconnectBranch node i) = n_level node ∧
  n_count node = S (n_count (disconnectBranch node i)) ∧
  n_branch node ≡ₚ b :: n_branch (disconnectBranch node i) ∧
  (∀ j, (j < n_count node - 1)%nat → j ≠ i →
        n_branch (disconnectBranch node i) !! j = n_branch node !! j) ∧
  ((i < n_count node - 1)%nat →
   n_branch (disconnectBranch node i) !! i = n_branch node !! (n_count node - 1)%nat).
Proof.
  intros Hi. destruct (disconnectBranch_perm node i b Hi) as (Hl & Hp & Hc).
  split; [done|]. split; [done|]. split; [done|].
  apply lookup_lt_Some in Hi as Hlt. fold (n_count node) in Hlt.
  unfold disconnectBranch.
  destruct (lookup_lt_is_Some_2 (n_branch node) (n_count node - 1)) as [x Hx];
    [unfold n_count in *; lia|].
  rewrite Hx. cbn [n_branch]. split.
  - intros j Hj Hne. rewrite lookup_take_lt by done. by rewrite list_lookup_insert_ne.
  - intros Hi'. rewrite lookup_take_lt by done.
    by rewrite list_lookup_insert_eq by (unfold n_count in *; lia).
Qed.

Lemma disconnectBranch_swaps_last_witness :
  n_count (leafOf (unitSquares 3)) = S (n_count (disconnectBranch (leafOf (unitSquares 3)) 0)).
Proof.
  apply (disconnectBranch_swaps_last (leafOf (unitSquares 3)) 0
           (mkBranch (box 0 0 1 1) None 100)).
  reflexivity.
Defined.

(** Whatever the tree, the recursive descent of a deletion loses no leaf
    entry: either it returns 1 and changes neither the node nor the
    reinsertion list, or it returns 0, keeps the level of the node, and
    the leaf entries before the call are one entry with the payload plus
    the entries left in the node plus the entries of the nodes it queued
    in front of the list. *)
Theorem removeRectRec_conserves_entries (rect : rectT) (item : Z) (node : nodeT)
    (listNode : list nodeT) :
  ∃ res node' det,
    removeRectRec rect item node listNode = (res, node', det ++ listNode) ∧
    ((res = 1%Z ∧ node' = node ∧ det = [] ∧ ¬ reachable rect item node) ∨
     (res = 0%Z ∧ reachable rect item node ∧ n_level node' = n_level node ∧
      ∃ e, e.2 = item ∧
           entries node ≡ₚ e :: entries node' ++ flat_map entries det)).
Proof.
  pose proof (removeRectRec_spec (good := λ _, True) (λ _ _ _ _, I)
                rect item node listNode) as Hspec.
  destruct (removeRectRec rect item node listNode) as [[res node'] lst].
  destruct Hspec as [(-> & -> & -> & Hnr)|
                     (-> & Hr & Hl & _ & det & e & -> & He & Hent & _)].
  - exists 1%Z, node, []. split; [done|]. by left.
  - exists 0%Z, node', det. split; [done|]. right.
    split; [done|]. split; [done|]. split; [done|]. by exists e.
Qed.

Lemma removeRectRec_leaves (Dom : list rectT) (rect : rectT) (item : Z) (h : nat)
    (r : nodeT) :
  safeDomain Dom → okAtG (inDom Dom) h r → (h ≤ 1)%nat →
  Forall (λ d, n_level d = 0%Z) (removeRectRec rect item r []).2.
Proof.
  intros HS Hok Hh.
  pose proof (removeRectRec_spec (safeDomain_union Dom HS) rect item r []) as Hspec.
  destruct (removeRectRec rect item r []) as [[res r'] lst]. cbn [snd].
  destruct Hspec as [(_ & _ & -> & _)|(_ & _ & _ & _ & det & e & -> & _ & _ & Hinv)];
    [constructor|].
  rewrite app_nil_r. destruct (Hinv h) as [Hinv1 _]. destruct (Hinv1 Hok) as [_ Hdet].
  eapply Forall_impl; [exact Hdet|]. intros d (hd & Hhd & [Hld _]). lia.
Qed.

(** On a tree in order of height at most one (a leaf root, or a root
    whose children are leaves) without NULL children, with rectangles of
    a safe family and fewer than [INT_MAX] entries, deleting a payload
    that a descent can reach returns 0, removes exactly one leaf entry,
    one with that payload, keeps all the others, and lowers the count of
    [countRec] by one. *)
Theorem removeRect_exact_on_low_trees (Dom : list rectT) (h : nat) (r : nodeT)
    (rect : rectT) (item : Z) :
  safeDomain Dom →
  okAtG (inDom Dom) h r → fullAt h r → (h ≤ 1)%nat → (n_count r ≤ MAX_NODES)%nat →
  ((0 < h)%nat → (2 ≤ n_count r)%nat) → reachable rect item r →
  (Z.of_nat (length (entries r)) ≤ INT_MAX)%Z →
  ∃ r'' e,
    removeRect rect item (Some r) = Some (0%Z, Some r'') ∧
    e ∈ entries r ∧ e.2 = item ∧ entries r ≡ₚ e :: entries r'' ∧
    countRec r'' 0 = Some (Z.of_nat (length (entries r)) - 1)%Z.
Proof.
  intros HS Hok Hfull Hh Hcnt Hne Hr _.
  destruct (removeRect_ok (safeDomain_union Dom HS) (safeDomain_split Dom HS) rect item r)
    as (res & root' & Hrm & _ & [(_ & _ & Hnr)|(-> & _ & Hent)]);
    [by exists h|done|].
  destruct (Hent h Hok Hfull (removeRectRec_leaves Dom rect item h r HS Hok Hh))
    as (r'' & h'' & e & -> & Hok'' & Hfull'' & He & Hperm).
  exists r'', e. split; [done|]. split; [rewrite Hperm; apply elem_of_cons; by left|].
  split; [done|]. split; [done|].
  rewrite countRec_spec, decide_True
    by (eapply fullAt_nullChildren; [by eapply okAt_of_dom|done]).
  rewrite Hperm. cbn [length]. f_equal. lia.
Qed.

Lemma removeRect_exact_on_low_trees_witness :
  ∃ r'' e,
    removeRect (box 7 7 8 8) 101 (Some (leafOf (gridWork 3))) = Some (0%Z, Some r'') ∧
    e ∈ entries (leafOf (gridWork 3)) ∧ e.2 = 101%Z ∧
    entries (leafOf (gridWork 3)) ≡ₚ e :: entries r''.
Proof.
  destruct (removeRect_exact_on_low_trees smallDom 0 (leafOf (gridWork 3)) (box 7 7 8 8) 101)
    as (r'' & e & H1 & H2 & H3 & H4 & _).
  - exact smallDom_safe.
  - apply okAtG_leafOf, gridWork_in.
  - apply fullAt_leafOf.
  - lia.
  - unfold n_count, leafOf. cbn [n_branch]. rewrite length_map. unfold gridWork.
    rewrite length_map, length_seq. consts. lia.
  - lia.
  - apply (reach_leaf _ _ 0 _ (mkBranch (box 0 0 0 1) None 101)); [reflexivity| |reflexivity].
    apply list_elem_of_In. right. left. reflexivity.
  - rewrite entries_leafOf. unfold gridWork. rewrite length_map, length_seq.
    unfold INT_MAX. lia.
  - exists r'', e. split; [exact H1|]. split; [exact H2|]. split; [exact H3|exact H4].
Defined.

(** ** Splitting and adding branches *)

Lemma nodeCover_union (lvl : Z) (A B L : list branchT) :
  A ++ B ≡ₚ L → (1 ≤ length A)%nat → (1 ≤ length B)%nat →
  combineRect NUM_DIMS (nodeCover (mkNode lvl A)) (nodeCover (mkNode lvl B))
  = nodeCover (mkNode lvl L).
Proof.
  intros Hp HA HB.
  assert (1 ≤ length L)%nat as HL by (rewrite <- Hp, length_app; lia).
  pose proof (cov_nodeCover (mkNode lvl A) HA) as HcA.
  pose proof (cov_nodeCover (mkNode lvl B) HB) as HcB.
  pose proof (cov_nodeCover (mkNode lvl L) HL) as HcL.
  unfold cov in *. cbn [n_branch] in *.
  assert (ocover (b_rect <$> L) = ocover (b_rect <$> (A ++ B))) as Heq
    by (apply ocover_perm; by rewrite Hp).
  rewrite fmap_app, ocover_app, HcA, HcB, HcL in Heq. cbn [ounion] in Heq.
  by injection Heq.
Qed.

(** Splitting a full node ([MAX_NODES] branches) with one extra branch,
    all rectangles in a safe family: the [MAX_NODES + 1] candidates are
    redistributed between the reused node and the new sibling, none
    dropped and none duplicated; each of the two nodes holds at least
    [MIN_NODES] branches; the sibling has the level of the original. *)
Theorem splitNode_redistributes (Dom : list rectT) (node : nodeT) (br : branchT) :
  safeDomain Dom →
  n_count node = MAX_NODES →
  Forall (λ b : branchT, inDom Dom (b_rect b)) (n_branch node) →
  inDom Dom (b_rect br) →
  ∃ node' newNode,
    splitNode node br = Some (node', newNode) ∧
    n_branch node' ++ n_branch newNode ≡ₚ n_branch node ++ [br] ∧
    (MIN_NODES ≤ n_count node')%nat ∧ (MIN_NODES ≤ n_count newNode)%nat ∧
    n_level newNode = n_level node ∧ n_level node' = n_level node.
Proof.
  intros HS Hcnt Hwf Hbr.
  destruct (splitNode_spec Dom node br HS Hcnt Hwf Hbr) as (A & B & Hs & Hperm & HA & HB).
  exists (mkNode (n_level node) A), (mkNode (n_level node) B).
  repeat split; done.
Qed.

Lemma splitNode_redistributes_witness :
  ∃ node' newNode,
    splitNode (leafOf (gridWork 16)) (mkBranch (box 1 0 3 1) None 116)
      = Some (node', newNode) ∧
    n_branch node' ++ n_branch newNode
      ≡ₚ n_branch (leafOf (gridWork 16)) ++ [mkBranch (box 1 0 3 1) None 116] ∧
    (MIN_NODES ≤ n_count node')%nat ∧ (MIN_NODES ≤ n_count newNode)%nat ∧
    n_level newNode = n_level (leafOf (gridWork 16)) ∧
    n_level node' = n_level (leafOf (gridWork 16)).
Proof.
  apply (splitNode_redistributes smallDom (leafOf (gridWork 16))
           (mkBranch (box 1 0 3 1) None 116)).
  - exact smallDom_safe.
  - reflexivity.
  - unfold leafOf. cbn [n_branch]. apply Forall_map. exact (gridWork_in 16).
  - apply smallDom_elem. by vm_compute.
Defined.

(** A split of a full node whose rectangles belong to a safe family
    shares the 17 candidates out as 8 and 9 or as 9 and 8, and the two
    resulting nodes together cover exactly what the 17 candidates
    cover. *)
Theorem splitNode_sizes_and_cover (Dom : list rectT) (node : nodeT) (br : branchT) :
  safeDomain Dom →
  n_count node = MAX_NODES →
  Forall (λ b : branchT, inDom Dom (b_rect b)) (n_branch node) →
  inDom Dom (b_rect br) →
  ∃ node' newNode,
    splitNode node br = Some (node', newNode) ∧
    ((n_count node' = 8%nat ∧ n_count newNode = 9%nat) ∨
     (n_count node' = 9%nat ∧ n_count newNode = 8%nat)) ∧
    combineRect NUM_DIMS (nodeCover node') (nodeCover newNode)
    = nodeCover (mkNode (n_level node) (n_branch node ++ [br])).
Proof.
  intros HS Hc Hwf Hbr.
  destruct (splitNode_spec Dom node br HS Hc Hwf Hbr) as (A & B & Hs & Hp & HA & HB).
  exists (mkNode (n_level node) A), (mkNode (n_level node) B). split; [done|].
  pose proof (count_perm _ _ Hp) as Hlen.
  rewrite !length_app, length_cons, length_nil in Hlen.
  unfold n_count in *. cbn [n_branch]. rewrite Hc in Hlen. consts.
  split; [lia|]. apply nodeCover_union; [done|lia|lia].
Qed.

Lemma splitNode_sizes_and_cover_witness :
  ∃ node' newNode,
    splitNode (leafOf (gridWork 16)) (mkBranch (box 1 0 3 1) None 116)
      = Some (node', newNode) ∧
    ((n_count node' = 8%nat ∧ n_count newNode = 9%nat) ∨
     (n_count node' = 9%nat ∧ n_count newNode = 8%nat)).
Proof.
  destruct (splitNode_sizes_and_cover smallDom (leafOf (gridWork 16))
              (mkBranch (box 1 0 3 1) None 116)) as (n1 & n2 & H1 & H2 & _).
  - exact smallDom_safe.
  - reflexivity.
  - unfold leafOf. cbn [n_branch]. apply Forall_map. exact (gridWork_in 16).
  - apply smallDom_elem. by vm_compute.
  - exists n1, n2. split; [exact H1|exact H2].
Defined.

(** [addBranch] on a node with room appends the branch in the next free
    slot and reports no split; on a full node whose rectangles belong,
    with the new one, to a safe family it splits and reports the new
    sibling.  Either way the level is kept and the branches of the node
    and of the sibling are the old branches plus the new one. *)
Theorem addBranch_appends_or_splits (Dom : list rectT) (br : branchT) (node : nodeT) :
  safeDomain Dom →
  (n_count node ≤ MAX_NODES)%nat →
  Forall (λ b : branchT, inDom Dom (b_rect b)) (n_branch node) →
  inDom Dom (b_rect br) →
  ∃ node' o,
    addBranch br node = Some (node', o) ∧ n_level node' = n_level node ∧
    (o = None ↔ (n_count node < MAX_NODES)%nat) ∧
    (o = None → n_branch node' = n_branch node ++ [br]) ∧
    (∀ nn, o = Some nn → n_level nn = n_level node) ∧
    n_branch node' ++ from_option n_branch [] o ≡ₚ n_branch node ++ [br].
Proof.
  intros HS Hc Hwf Hbr.
  destruct (addBranch_spec (safeDomain_split Dom HS) br node Hc Hwf Hbr)
    as (node' & o & Ha & Hl & Ho).
  exists node', o. split; [done|]. split; [done|]. destruct o as [nn|].
  - destruct Ho as (Hfull & Hlnn & Hp & _). cbn [from_option].
    split; [split; [done|lia]|]. split; [done|]. split; [by intros ? [= <-]|done].
  - destruct Ho as [Hb Hlt]. cbn [from_option]. rewrite app_nil_r, Hb.
    split; [done|]. split; [done|]. split; [done|done].
Qed.

Lemma addBranch_appends_or_splits_witness :
  ∃ node' o,
    addBranch (mkBranch (box 1 0 3 1) None 103) (leafOf (gridWork 3)) = Some (node', o) ∧
    n_level node' = n_level (leafOf (gridWork 3)) ∧
    (o = None ↔ (n_count (leafOf (gridWork 3)) < MAX_NODES)%nat).
Proof.
  destruct (addBranch_appends_or_splits smallDom (mkBranch (box 1 0 3 1) None 103)
              (leafOf (gridWork 3))) as (n1 & o & H1 & H2 & H3 & _).
  - exact smallDom_safe.
  - unfold n_count, leafOf. cbn [n_branch]. rewrite length_map. unfold gridWork.
    rewrite length_map, length_seq. consts. lia.
  - unfold leafOf. cbn [n_branch]. apply Forall_map. exact (gridWork_in 3).
  - apply smallDom_elem. by vm_compute.
  - exists n1, o. split; [exact H1|]. split; [exact H2|exact H3].
Defined.

(** [getBranches] on a full node loads the buffer with the 16 branches
    of the node followed by the extra branch, empties the node, and
    leaves in [coverSplit] the least rectangle that contains all 17
    rectangles, with its size in [coverSplitArea]. *)
Theorem getBranches_loads_buffer (node : nodeT) (br : branchT) (parVars : partitionVarsT) :
  n_count node = MAX_NODES →
  pv_branchBuf (getBranches node br parVars).2 = n_branch node ++ [br] ∧
  pv_branchCount (getBranches node br parVars).2 = 17%nat ∧
  n_count (getBranches node br parVars).1 = 0%nat ∧
  n_level (getBranches node br parVars).1 = (-1)%Z ∧
  Forall (λ b : branchT, rect_le (b_rect b) (pv_coverSplit (getBranches node br parVars).2))
         (n_branch node ++ [br]) ∧
  (∀ q, Forall (λ b : branchT, rect_le (b_rect b) q) (n_branch node ++ [br]) →
        rect_le (pv_coverSplit (getBranches node br parVars).2) q) ∧
  pv_coverSplitArea (getBranches node br parVars).2
  = calcRectVolume (pv_coverSplit (getBranches node br parVars).2).
Proof.
  intros Hc. unfold getBranches.
  cbn [fst snd pv_branchBuf pv_branchCount pv_coverSplit pv_coverSplitArea n_level].
  rewrite take_ge by (unfold n_count in Hc; lia).
  split; [done|]. split; [done|]. split; [done|]. split; [done|].
  assert (foldl (λ c (b : branchT), combineRect NUM_DIMS c (b_rect b))
                (b_rect ((n_branch node ++ [br]) !!! 0%nat)) (drop 1 (n_branch node ++ [br]))
          = nodeCover (mkNode 0 (n_branch node ++ [br]))) as ->.
  { destruct (n_branch node ++ [br]) as [|b0 bs]; [done|].
    rewrite nodeCover_cons. cbn [drop lookup_total list_lookup_total].
    generalize (b_rect b0). induction bs as [|b bs IH]; intros r0; [done|].
    cbn [foldl fmap list_fmap]. apply IH. }
  assert (1 ≤ n_count (mkNode 0 (n_branch node ++ [br])))%nat as Hone
    by (unfold n_count; cbn [n_branch]; rewrite length_app, length_cons; lia).
  pose proof (cov_nodeCover _ Hone) as Hcov. unfold cov in Hcov. cbn [n_branch] in Hcov.
  split; [|split; [|done]].
  - apply Forall_forall. intros b Hb. eapply ocover_ge; [|exact Hcov].
    by apply list_elem_of_fmap_2.
  - intros q Hq. eapply ocover_le; [|exact Hcov]. by apply Forall_fmap.
Qed.

Lemma getBranches_loads_buffer_witness :
  pv_branchBuf (getBranches (leafOf (unitSquares 16)) (mkBranch (box 16 0 17 1) None 116)
                            zeroParVars).2
  = n_branch (leafOf (unitSquares 16)) ++ [mkBranch (box 16 0 17 1) None 116].
Proof.
  apply (getBranches_loads_buffer (leafOf (unitSquares 16))
           (mkBranch (box 16 0 17 1) None 116) zeroParVars).
  reflexivity.
Defined.

(** ** Seeds of a split *)

(** In a split of a full node whose rectangles belong to a safe family
    [pickSeeds] assigns exactly one buffer slot to group 0 and one to
    group 1, leaves the other fifteen unassigned, and counts one member
    in each group. *)
Theorem pickSeeds_two_seeds (Dom : list rectT) (node : nodeT) (br : branchT) :
  safeDomain Dom →
  n_count node = MAX_NODES →
  Forall (λ b : branchT, inDom Dom (b_rect b)) (n_branch node) →
  inDom Dom (b_rect br) →
  pv_count (seedsOf node br) = (1%nat, 1%nat) ∧
  tally 0 (pv_partition (seedsOf node br)) = 1%nat ∧
  tally 1 (pv_partition (seedsOf node br)) = 1%nat ∧
  tally (-1) (pv_partition (seedsOf node br)) = 15%nat ∧
  length (pv_partition (seedsOf node br)) = 17%nat.
Proof.
  intros Hsafe Hcnt Hdom Hbr. unfold n_count, MAX_NODES in Hcnt.
  unfold seedsOf, getBranches. cbn [snd pv_branchCount].
  rewrite take_ge by (unfold MAX_NODES; lia).
  set (buf := n_branch node ++ [br]).
  assert (length buf = 17%nat) as Hlen
    by (unfold buf; rewrite length_app, length_cons, length_nil; lia).
  assert (Forall (λ b : branchT, b_rect b ∈ Dom) buf) as Hbuf
    by (apply Forall_app; split; [done|by constructor]).
  set (CS := foldl (λ c (b : branchT), combineRect NUM_DIMS c (b_rect b))
                   (b_rect (buf !!! 0%nat)) (drop 1 buf)).
  assert (CS ∈ Dom ∧ rect_le (b_rect (buf !!! 0%nat)) CS
          ∧ rect_le (b_rect (buf !!! 1%nat)) CS) as (HCSd & HCS0 & HCS1).
  { unfold CS. destruct buf as [|b0 [|b1 rest]]; [done..|].
    apply Forall_cons in Hbuf as [Hb0 Hrest].
    cbn [drop lookup_total list_lookup_total foldl].
    split; [|split].
    - destruct Hsafe as (_ & Hun & _).
      apply (foldl_combineRect_dom Dom (b1 :: rest) Hun Hrest). done.
    - apply (foldl_combineRect_ge (b_rect b0) (b1 :: rest)).
    - eapply rect_le_trans; [|apply foldl_combineRect_ge]. apply combineRect_le_r. }
  change (MAX_NODES + 1)%nat with 17%nat. change MIN_NODES with 8%nat.
  match goal with
  | |- context [initParVars ?pv 17 8] =>
      destruct (initParVars_ok buf pv eq_refl Hlen eq_refl eq_refl)
        as (HokI & HtkI & HcntI & HareaI);
      destruct (pickSeeds_ok Dom buf (initParVars pv 17 8) CS Hsafe HokI HtkI HcntI Hbuf
                  HCSd HCS0 HCS1 HareaI) as (HokS & HcntS & _);
      set (pvS := pickSeeds (initParVars pv 17 8)) in *
  end.
  destruct HokS as (_ & _ & _ & _ & Hrel & Hlt & Hc0 & Hc1).
  rewrite HcntS in Hc0, Hc1. cbn [fst snd] in Hc0, Hc1.
  pose proof (Forall2_length _ _ _ Hrel) as Hl. rewrite Hlt in Hl.
  split; [done|]. split; [done|]. split; [done|]. split; [|done].
  assert (∀ P : list Z,
            Forall (λ p, p = 0%Z ∨ p = 1%Z ∨ p = (-1)%Z) P →
            (tally 0 P + tally 1 P + tally (-1) P = length P)%nat) as Hsum.
  { unfold tally. induction 1 as [|p P Hp _ IH]; [done|].
    rewrite !filter_cons. cbn [length]. rewrite <- IH.
    destruct Hp as [-> | [-> | ->]]; repeat case_decide; try done; cbn [length]; lia. }
  specialize (Hsum (pv_partition pvS)). rewrite <- Hc0, <- Hc1, <- Hl in Hsum.
  enough (Forall (λ p, p = 0%Z ∨ p = 1%Z ∨ p = (-1)%Z) (pv_partition pvS)) as HF
    by (specialize (Hsum HF); lia).
  clear -Hrel. induction Hrel as [|t p T P Htp _ IH]; [done|].
  apply Forall_cons_2; [|done]. destruct t; [destruct Htp; auto|auto].
Qed.

Lemma pickSeeds_two_seeds_witness :
  pv_count (seedsOf (leafOf (gridWork 16)) (mkBranch (box 1 0 3 1) None 116))
  = (1%nat, 1%nat).
Proof.
  apply (pickSeeds_two_seeds smallDom (leafOf (gridWork 16)) (mkBranch (box 1 0 3 1) None 116)).
  - exact smallDom_safe.
  - reflexivity.
  - unfold leafOf. cbn [n_branch]. apply Forall_map. exact (gridWork_in 16).
  - apply smallDom_elem. by vm_compute.
Defined.

(** On the full leaf of the strips with the seventeenth, whose sizes are
    all [+inf]: every waste is NaN, no pair passes the test of
    [pickSeeds], and both seeds stay at slot 0.  That slot is classified
    twice, so the counts read one member in each group while group 0 has
    none; of the second full leaf the incoming rectangle [huge] alone
    has an infinite size. *)
Theorem pickSeeds_beyond_double_range :
  calcRectVolume (box 0 0 (2 ^ 600) 1) = infinity ∧
  PrimFloat.is_nan (wasteOf (box 0 0 (2 ^ 600) 1) (box (2 ^ 600) 0 (2 * 2 ^ 600) 1)) = true ∧
  (let parVars := seedsOf (leafOf (take 16 wideStrips))
                          (mkBranch (box (16 * 2 ^ 600) 0 (17 * 2 ^ 600) 1) None 16) in
   (pv_count parVars, tally 0 (pv_partition parVars), tally 1 (pv_partition parVars),
    tally (-1) (pv_partition parVars)))
  = (1%nat, 1%nat, 0%nat, 1%nat, 16%nat) ∧
  calcRectVolume huge = infinity.
Proof.
  split; [vm_compute; reflexivity|]. split; [vm_compute; reflexivity|].
  split; vm_compute; reflexivity.
Qed.
